(** * ReCOGnAIze chat client: the Reply Formatter and the Session Controller

    A shallow embedding of the client logic of the React front end.

    Definitions, from the source:
    - [Js]        JavaScript strings as UTF-16 code units, the string
                  methods the client calls ([trim], [split], [startsWith],
                  [includes], [substring], [replace]) and the regular
                  expressions of the formatters, matched in the
                  backtracking order of the JavaScript matcher;
    - [Generic]   [renderMessageContent] of the screen-based client:
                  headings, section blocks of bullets, numbered and plain
                  lines, inline emphasis;
    - [Slides]    [renderMessageContent] of [src/frontend/src/App.jsx]:
                  the four-section template and its line-by-line fallback;
    - [Session]   [handleUpload], [sendMessage], [handleSend],
                  [handleQuickReply] and [handleNewChat] of the
                  screen-based client, the two remote calls taken as
                  parameters;
    - [Persisted] [handleUpload], [clearFile], [sendMessage] and
                  [handleNewChat] of [src/frontend/src/App.jsx], with its
                  local storage and the two effects that load and store it.

    Not modelled: React keys and class names other than the kind of
    a line, the timers ([uploadStatus], the dismissal of errors), scrolling
    and the resizing of the input.  A handler reads the state of the render
    it was created in; here that state is the argument of the handler.

    Theorems: [JsFacts], [GenericFacts], [SlidesFacts], [SessionFacts],
    and further properties of the same code in [GenericMore],
    [SlidesMore], [SessionMore] and [PersistedMore]. *)

From Stdlib Require Import Ascii String.
From Stdlib Require Import List NArith Arith Bool Lia.
Import ListNotations.

Set Implicit Arguments.

(* ===================================================================== *)
(** * JavaScript strings and regular expressions *)
(* ===================================================================== *)

Module Js.

(** A JavaScript string is a sequence of UTF-16 code units. *)
Definition jsstring := list N.

(** ASCII literals: each character is its own code unit. *)
Definition js (s : string) : jsstring :=
  map N_of_ascii (list_ascii_of_string s).

Definition code_eqb (a b : N) : bool := N.eqb a b.

Fixpoint str_eqb (a b : jsstring) : bool :=
  match a, b with
  | [], [] => true
  | x :: a', y :: b' => code_eqb x y && str_eqb a' b'
  | _, _ => false
  end.

(** ** Character classes *)

Definition between (lo hi c : N) : bool := (N.leb lo c && N.leb c hi)%N.

Definition is_char (k c : N) : bool := N.eqb c k.

Definition LF : N := 10%N.
Definition HASH : N := 35%N.        (* # *)
Definition AMP : N := 38%N.         (* & *)
Definition RPAREN : N := 41%N.      (* ) *)
Definition ASTERISK : N := 42%N.    (* * *)
Definition DASH : N := 45%N.        (* - *)
Definition DOT : N := 46%N.         (* . *)
Definition COLON : N := 58%N.       (* : *)
Definition BULLET : N := 8226%N.    (* U+2022 *)

(** LineTerminator: LF, CR, LS, PS. *)
Definition isLineTerminator (c : N) : bool :=
  (N.eqb c 10 || N.eqb c 13 || N.eqb c 8232 || N.eqb c 8233)%N.

(** WhiteSpace and LineTerminator together: what [\s] matches and what
    [trim] removes (TAB, LF, VT, FF, CR, SP, NBSP, U+1680, U+2000-U+200A,
    LS, PS, U+202F, U+205F, U+3000, U+FEFF). *)
Definition isWhiteSpace (c : N) : bool :=
  (between 9 13 c || N.eqb c 32 || N.eqb c 160 || N.eqb c 5760
   || between 8192 8202 c || N.eqb c 8232 || N.eqb c 8233
   || N.eqb c 8239 || N.eqb c 8287 || N.eqb c 12288 || N.eqb c 65279)%N.

(** [.] without the [s] flag: any code unit but a line terminator. *)
Definition dot_any (c : N) : bool := negb (isLineTerminator c).

Definition is_digit (c : N) : bool := between 48 57 c.     (* \d *)
Definition is_upper (c : N) : bool := between 65 90 c.     (* A-Z *)
Definition is_lower (c : N) : bool := between 97 122 c.    (* a-z *)

(** ** String.prototype methods *)

Fixpoint dropWhile (p : N -> bool) (s : jsstring) : jsstring :=
  match s with
  | c :: s' => if p c then dropWhile p s' else s
  | [] => []
  end.

Definition trimStart (s : jsstring) : jsstring := dropWhile isWhiteSpace s.
Definition trimEnd (s : jsstring) : jsstring :=
  rev (dropWhile isWhiteSpace (rev s)).
Definition trim (s : jsstring) : jsstring := trimEnd (trimStart s).

(** [s.split('\n')]: the pieces between line feeds; one piece, the empty
    string, for the empty string. *)
Fixpoint split_lf (s : jsstring) : list jsstring :=
  match s with
  | [] => [[]]
  | c :: s' =>
      if N.eqb c LF then [] :: split_lf s'
      else match split_lf s' with
           | l :: ls => (c :: l) :: ls
           | [] => [[c]]
           end
  end.

Fixpoint startsWith (p s : jsstring) : bool :=
  match p, s with
  | [], _ => true
  | x :: p', y :: s' => code_eqb x y && startsWith p' s'
  | _ :: _, [] => false
  end.

Fixpoint includes (p s : jsstring) : bool :=
  startsWith p s ||
  match s with
  | [] => false
  | _ :: s' => includes p s'
  end.

(** ** Regular expressions

    The fragment the formatters use: anchors, one code unit of a class,
    a quantified class (greedy or lazy, with bounds), concatenation and
    numbered capture groups. *)

Inductive regex : Type :=
| Bol                                                     (* ^ *)
| Eol                                                     (* $ *)
| Cls (p : N -> bool)                                     (* [..] *)
| Rep (greedy : bool) (lo : nat) (hi : option nat) (p : N -> bool)
| Cat (r1 r2 : regex)
| Grp (i : nat) (r : regex).                              (* ( .. ) *)

(** A matcher state: the index reached in the input, the input from
    there on, and the groups captured so far (latest first). *)
Record mstate : Type := MState
  { pos : nat; rest : jsstring; caps : list (nat * jsstring) }.

Definition advance (k : nat) (st : mstate) : mstate :=
  {| pos := pos st + k; rest := skipn k (rest st); caps := caps st |}.

(** Length of the longest prefix whose code units are all in the class. *)
Fixpoint run_len (p : N -> bool) (s : jsstring) : nat :=
  match s with
  | c :: s' => if p c then S (run_len p s') else 0
  | [] => 0
  end.

Definition cap_hi (hi : option nat) (n : nat) : nat :=
  match hi with Some h => Nat.min h n | None => n end.

(** The iteration counts a quantifier tries, in the order it tries them:
    a greedy one from the most down to [lo], a lazy one from [lo] up. *)
Definition counts (greedy : bool) (lo n : nat) : list nat :=
  let up := seq lo (S n - lo) in
  if greedy then rev up else up.

(** All the ways [r] matches at a state, in backtracking order: the head
    of the list is the match JavaScript reports. *)
Fixpoint run (r : regex) (st : mstate) : list mstate :=
  match r with
  | Bol => if Nat.eqb (pos st) 0 then [st] else []
  | Eol => match rest st with [] => [st] | _ :: _ => [] end
  | Cls p =>
      match rest st with
      | c :: _ => if p c then [advance 1 st] else []
      | [] => []
      end
  | Rep greedy lo hi p =>
      map (fun k => advance k st)
          (counts greedy lo (cap_hi hi (run_len p (rest st))))
  | Cat r1 r2 => flat_map (run r2) (run r1 st)
  | Grp i r =>
      map (fun st' =>
             {| pos := pos st'; rest := rest st';
                caps := (i, firstn (pos st' - pos st) (rest st)) :: caps st' |})
          (run r st)
  end.

Module RegexNotations.
Infix ";;" := Cat (at level 61, right associativity).
End RegexNotations.
Import RegexNotations.

(** A match result: [m.index], [m[0]], the groups, and the input after
    the match. *)
Record rmatch : Type := RMatch
  { index : nat; whole : jsstring; groups : list (nat * jsstring);
    after : jsstring }.

Fixpoint assoc (i : nat) (l : list (nat * jsstring)) : option jsstring :=
  match l with
  | [] => None
  | (j, v) :: l' => if Nat.eqb i j then Some v else assoc i l'
  end.

(** [m[i]] *)
Definition group (i : nat) (m : rmatch) : option jsstring :=
  assoc i (groups m).

(** One attempt, at index [i], where [s] is the input from [i] on. *)
Definition exec_at (r : regex) (i : nat) (s : jsstring) : option rmatch :=
  match run r {| pos := i; rest := s; caps := [] |} with
  | st :: _ =>
      Some {| index := i; whole := firstn (pos st - i) s;
              groups := caps st; after := rest st |}
  | [] => None
  end.

(** The leftmost match at or after index [i]. *)
Fixpoint search (r : regex) (i : nat) (s : jsstring) : option rmatch :=
  match exec_at r i s with
  | Some m => Some m
  | None =>
      match s with
      | [] => None
      | _ :: s' => search r (S i) s'
      end
  end.

(** [s.match(r)] for a regular expression without the [g] flag. *)
Definition exec (r : regex) (s : jsstring) : option rmatch := search r 0 s.

(** [s.replace(r, f)] without the [g] flag: the first match only. *)
Definition replace (r : regex) (f : rmatch -> jsstring) (s : jsstring)
  : jsstring :=
  match exec r s with
  | Some m => firstn (index m) s ++ f m ++ after m
  | None => s
  end.

(** [s.replace(r, f)] with the [g] flag.  The input is walked once;
    [skip] counts the code units still covered by the last match.  An
    empty match leaves the code unit at its index in place and the scan
    resumes one further on. *)
Fixpoint replace_from (r : regex) (f : rmatch -> jsstring)
         (skip i : nat) (s : jsstring) : jsstring :=
  match skip with
  | S k =>
      match s with
      | [] => []
      | _ :: s' => replace_from r f k (S i) s'
      end
  | 0 =>
      match exec_at r i s with
      | Some m =>
          f m ++
          match s with
          | [] => []
          | c :: s' =>
              match length (whole m) with
              | 0 => c :: replace_from r f 0 (S i) s'
              | S k => replace_from r f k (S i) s'
              end
          end
      | None =>
          match s with
          | [] => []
          | c :: s' => c :: replace_from r f 0 (S i) s'
          end
      end
  end.

Definition replace_g (r : regex) (f : rmatch -> jsstring) (s : jsstring)
  : jsstring := replace_from r f 0 0 s.

(** [s.substring(n)] *)
Definition substring_from (n : nat) (s : jsstring) : jsstring := skipn n s.

(** [s.substring(0, n)] *)
Definition substring_to (n : nat) (s : jsstring) : jsstring := firstn n s.

Definition nonempty (s : jsstring) : bool :=
  match s with [] => false | _ :: _ => true end.

(** The replacement patterns of the source: [''] and ['$1']. *)
Definition to_empty (_ : rmatch) : jsstring := [].
Definition to_group1 (m : rmatch) : jsstring :=
  match group 1 m with Some g => g | None => [] end.

(** [/\*+/g] *)
Definition starsRe : regex := Rep true 1 None (is_char ASTERISK).

(** [t.replace(/\*+/g, '')] *)
Definition strip_stars (t : jsstring) : jsstring :=
  replace_g starsRe to_empty t.

End Js.

Import Js.
Import Js.RegexNotations.

(* ===================================================================== *)
(** * Messages *)
(* ===================================================================== *)

Inductive role : Type := User | Assistant.

(** A transcript entry.  [content] is [None] when the reply field of a
    chat response was missing ([undefined]). *)
Record chat_msg : Type := ChatMsg
  { msg_role : role; msg_content : option jsstring; msg_time : jsstring }.

(** [msg.content || ''] *)
Definition content_or_empty (msg : chat_msg) : jsstring :=
  match msg_content msg with
  | Some (c :: s) => c :: s
  | _ => []
  end.

(** Property access on [undefined] throws. *)
Inductive result (A : Type) : Type :=
| Ok (a : A)
| TypeError.
Arguments Ok {A} a.
Arguments TypeError {A}.

Definition bind {A B : Type} (x : result A) (f : A -> result B) : result B :=
  match x with
  | Ok a => f a
  | TypeError => TypeError
  end.

(* ===================================================================== *)
(** * The generic Reply Formatter (screen-based client) *)
(* ===================================================================== *)

Module Generic.

(** [/^#{1,4}\s+(.+)/] *)
Definition hashRe : regex :=
  Bol ;; Rep true 1 (Some 4) (is_char HASH) ;; Rep true 1 None isWhiteSpace ;;
  Grp 1 (Rep true 1 None dot_any).

(** [/^\*\*(.+?)\*\*:?$/] *)
Definition boldHeadingRe : regex :=
  Bol ;; Cls (is_char ASTERISK) ;; Cls (is_char ASTERISK) ;;
  Grp 1 (Rep false 1 None dot_any) ;;
  Cls (is_char ASTERISK) ;; Cls (is_char ASTERISK) ;;
  Rep true 0 (Some 1) (is_char COLON) ;; Eol.

(** [[A-Z\s&]] *)
Definition caps_body (c : N) : bool :=
  is_upper c || isWhiteSpace c || is_char AMP c.

(** [/^([A-Z][A-Z\s&]{3,}):?$/] *)
Definition capsHeadingRe : regex :=
  Bol ;; Grp 1 (Cls is_upper ;; Rep true 3 None caps_body) ;;
  Rep true 0 (Some 1) (is_char COLON) ;; Eol.

(** [/\*\*(.+?)\*\*/] *)
Definition boldRe : regex :=
  Cls (is_char ASTERISK) ;; Cls (is_char ASTERISK) ;;
  Grp 1 (Rep false 1 None dot_any) ;;
  Cls (is_char ASTERISK) ;; Cls (is_char ASTERISK).

(** [[•\-\*]] *)
Definition bullet_glyph (c : N) : bool :=
  is_char BULLET c || is_char DASH c || is_char ASTERISK c.

(** [/^[•\-\*]\s+(.+)/] *)
Definition bulletRe : regex :=
  Bol ;; Cls bullet_glyph ;; Rep true 1 None isWhiteSpace ;;
  Grp 1 (Rep true 1 None dot_any).

(** [[\.\)]] *)
Definition dot_or_paren (c : N) : bool := is_char DOT c || is_char RPAREN c.

(** [/^(\d+[\.\)]\s+)(.+)/] *)
Definition numberedRe : regex :=
  Bol ;;
  Grp 1 (Rep true 1 None is_digit ;; Cls dot_or_paren ;;
         Rep true 1 None isWhiteSpace) ;;
  Grp 2 (Rep true 1 None dot_any).

(** A [<span>]; [bold] is the [msg-bold] class. *)
Record span : Type := Span { bold : bool; span_text : jsstring }.

(** [renderInline] returns the array of spans, or the cleaned string
    when the array is empty. *)
Inductive inline : Type :=
| Parts (ps : list span)
| Text (t : jsstring).

(** The [while (remaining.length > 0)] loop of [renderInline].  Each
    iteration that does not [break] shortens [remaining], so a fuel of
    its length is never used up ([inline_loop_fuel]). *)
Fixpoint inline_loop (fuel : nat) (remaining : jsstring) (parts : list span)
  : list span :=
  match fuel with
  | 0 => parts
  | S fuel' =>
      match remaining with
      | [] => parts
      | _ :: _ =>
          match exec boldRe remaining with
          | Some boldMatch =>
              let beforeBold := substring_to (index boldMatch) remaining in
              let parts1 :=
                if nonempty beforeBold
                then parts ++ [Span false beforeBold] else parts in
              let parts2 := parts1 ++ [Span true (to_group1 boldMatch)] in
              inline_loop fuel'
                (substring_from
                   (index boldMatch + length (whole boldMatch)) remaining)
                parts2
          | None =>
              (* Clean remaining asterisks *)
              let cleaned := strip_stars remaining in
              if nonempty cleaned
              then parts ++ [Span false cleaned] else parts
          end
      end
  end.

Definition renderInline (text : jsstring) : inline :=
  match inline_loop (length text) text [] with
  | [] => Text (strip_stars text)
  | p :: ps => Parts (p :: ps)
  end.

Inductive line_class : Type := MsgBullet | MsgNumbered | MsgLine.

(** An entry of [sectionLines]: [{ cls, content }]. *)
Record section_line : Type := SectionLine
  { cls : line_class; content : inline }.

Inductive element : Type :=
| Heading (headingText : jsstring)            (* msg-line msg-heading *)
| SectionBlock (lines : list section_line)    (* msg-section-block *)
| Line (c : inline).                          (* msg-line *)

(** The two variables the [forEach] callback mutates. *)
Record acc : Type := Acc
  { elements : list element; sectionLines : list section_line }.

Definition flushSection (a : acc) : acc :=
  match sectionLines a with
  | [] => a
  | _ :: _ =>
      {| elements := elements a ++ [SectionBlock (sectionLines a)];
         sectionLines := [] |}
  end.

Definition push_element (e : element) (a : acc) : acc :=
  {| elements := elements a ++ [e]; sectionLines := sectionLines a |}.

Definition push_section_line (l : section_line) (a : acc) : acc :=
  {| elements := elements a; sectionLines := sectionLines a ++ [l] |}.

(** [m?.[1]] *)
Definition opt_group1 (m : option rmatch) : option jsstring :=
  match m with
  | Some r => group 1 r
  | None => None
  end.

(** [a || b] on values that are strings or [undefined]. *)
Definition js_or (a b : option jsstring) : option jsstring :=
  match a with
  | Some (_ :: _) => a
  | _ => b
  end.

Definition is_some {A : Type} (o : option A) : bool :=
  match o with Some _ => true | None => false end.

(** The body of the [rawLines.forEach] callback. *)
Definition on_line (a : acc) (rawLine : jsstring) : result acc :=
  let line := trim rawLine in
  match line with
  | [] => Ok (flushSection a)
  | _ :: _ =>
      let hashMatch := exec hashRe line in
      let boldHeadingMatch := exec boldHeadingRe line in
      let capsHeadingMatch := exec capsHeadingRe line in
      if is_some hashMatch || is_some boldHeadingMatch
         || is_some capsHeadingMatch
      then
        match js_or (opt_group1 hashMatch)
                (js_or (opt_group1 boldHeadingMatch)
                   (opt_group1 capsHeadingMatch)) with
        | Some t =>
            Ok (push_element (Heading (trim (strip_stars t)))
                  (flushSection a))
        | None => TypeError
        end
      else
        let bulletMatch := exec bulletRe line in
        let numberedMatch := exec numberedRe line in
        match bulletMatch with
        | Some m =>
            match group 1 m with
            | Some t =>
                Ok (push_section_line
                      {| cls := MsgBullet; content := renderInline t |} a)
            | None => TypeError
            end
        | None =>
            if is_some numberedMatch
            then Ok (push_section_line
                       {| cls := MsgNumbered; content := renderInline line |}
                       a)
            else
              let content := renderInline line in
              match sectionLines a with
              | _ :: _ =>
                  Ok (push_section_line
                        {| cls := MsgLine; content := content |} a)
              | [] => Ok (push_element (Line content) a)
              end
        end
  end.

Fixpoint forEach (a : acc) (rawLines : list jsstring) : result acc :=
  match rawLines with
  | [] => Ok a
  | rawLine :: more => bind (on_line a rawLine) (fun a' => forEach a' more)
  end.

(** What a bubble shows: the content as it is for a user message, the
    elements for an assistant message. *)
Inductive rendered : Type :=
| Raw (c : option jsstring)
| Elements (es : list element).

Definition renderMessageContent (msg : chat_msg) : result rendered :=
  match msg_role msg with
  | User => Ok (Raw (msg_content msg))
  | Assistant =>
      let rawLines := split_lf (content_or_empty msg) in
      bind (forEach {| elements := []; sectionLines := [] |} rawLines)
           (fun a => Ok (Elements (elements (flushSection a))))
  end.

End Generic.

(* ===================================================================== *)
(** * The template Reply Formatter ([src/frontend/src/App.jsx]) *)
(* ===================================================================== *)

Module Slides.

(** [/\*\*(.*?)\*\*/g] *)
Definition boldPairRe : regex :=
  Cls (is_char ASTERISK) ;; Cls (is_char ASTERISK) ;;
  Grp 1 (Rep false 0 None dot_any) ;;
  Cls (is_char ASTERISK) ;; Cls (is_char ASTERISK).

(** [/\*(.*?)\*/g] *)
Definition starPairRe : regex :=
  Cls (is_char ASTERISK) ;; Grp 1 (Rep false 0 None dot_any) ;;
  Cls (is_char ASTERISK).

(** [/^\*+\s*/] *)
Definition leadingStarsRe : regex :=
  Bol ;; Rep true 1 None (is_char ASTERISK) ;; Rep true 0 None isWhiteSpace.

(** [/\*+$/g] *)
Definition trailingStarsRe : regex :=
  Rep true 1 None (is_char ASTERISK) ;; Eol.

(** [[^a-zA-Z0-9]] *)
Definition not_alnum (c : N) : bool :=
  negb (is_lower c || is_upper c || is_digit c).

(** [/^[^a-zA-Z0-9]+/] *)
Definition leadingNonAlnumRe : regex := Bol ;; Rep true 1 None not_alnum.

(** [[-•]] *)
Definition dash_or_bullet (c : N) : bool := is_char DASH c || is_char BULLET c.

(** [/^[-•]\s*/] *)
Definition bulletPrefixRe : regex :=
  Bol ;; Cls dash_or_bullet ;; Rep true 0 None isWhiteSpace.

Definition normalizeAssistantLine (line : jsstring) : jsstring :=
  let cleaned := trim line in
  let cleaned := replace_g boldPairRe to_group1 cleaned in
  let cleaned := replace_g starPairRe to_group1 cleaned in
  let cleaned := replace leadingStarsRe to_empty cleaned in
  let cleaned := replace_g trailingStarsRe to_empty cleaned in
  cleaned.

(** [(msg.content || '').split('\n').map(trim).filter(nonempty)
      .map(normalizeAssistantLine)] *)
Definition rawLines (msg : chat_msg) : list jsstring :=
  map normalizeAssistantLine
    (filter nonempty (map trim (split_lf (content_or_empty msg)))).

(** An entry of [sectionDefs]; icons are given as code units. *)
Record section_def : Type := SectionDef
  { def_key : jsstring; def_match : jsstring; def_icon : jsstring }.

Definition sectionDefs : list section_def :=
  [ {| def_key := js "understanding";
       def_match := js "understanding your results";
       def_icon := [55357; 56522]%N |};                  (* U+1F4CA *)
    {| def_key := js "action";
       def_match := js "your personalized action plan";
       def_icon := [55356; 57263]%N |};                  (* U+1F3AF *)
    {| def_key := js "monitoring";
       def_match := js "monitoring your progress";
       def_icon := [55357; 56517]%N |};                  (* U+1F4C5 *)
    {| def_key := js "doctor";
       def_match := js "when to see your doctor";
       def_icon := [9877; 65039]%N |} ].                 (* U+2695 U+FE0F *)

(** A section card. *)
Record section : Type := Section_
  { key : jsstring; title : jsstring; icon : jsstring;
    paragraphs : list jsstring; bullets : list jsstring }.

Definition push_bullet (b : jsstring) (c : section) : section :=
  {| key := key c; title := title c; icon := icon c;
     paragraphs := paragraphs c; bullets := bullets c ++ [b] |}.

Definition push_paragraph (p : jsstring) (c : section) : section :=
  {| key := key c; title := title c; icon := icon c;
     paragraphs := paragraphs c ++ [p]; bullets := bullets c |}.

(** [current] is the object last pushed on [sections]; a push on one of
    its arrays is seen through [sections], so the update is made on the
    last entry. *)
Fixpoint on_current (f : section -> section) (sections : list section)
  : list section :=
  match sections with
  | [] => []
  | [c] => [f c]
  | s :: more => s :: on_current f more
  end.

(** What a bubble shows. [Lines] pairs each line with the outcome of
    [isHeaderLine]. *)
Inductive rendered : Type :=
| Raw (c : option jsstring)
| Slide (sections : list section)
| Lines (ls : list (bool * jsstring)).

Section WithRuntime.

(** [String.prototype.toLowerCase], Unicode case tables included, is the
    runtime's. *)
Variable toLowerCase : jsstring -> jsstring.

(** The callback of [rawLines.some]. *)
Definition mentions_marker (line : jsstring) : bool :=
  let lower := toLowerCase line in
  includes (js "understanding your results") lower
  || includes (js "your personalized action plan") lower
  || includes (js "monitoring your progress") lower
  || includes (js "when to see your doctor") lower.

Definition hasSlideSections (lines : list jsstring) : bool :=
  existsb mentions_marker lines.

(** [sectionDefs.find((s) => lower.includes(s.match))] *)
Definition find_header (line : jsstring) : option section_def :=
  let lower := toLowerCase line in
  find (fun s => includes (def_match s) lower) sectionDefs.

(** The body of the [rawLines.forEach] callback of the template path. *)
Definition on_line (sections : list section) (line : jsstring)
  : list section :=
  match find_header line with
  | Some header =>
      let cleanedTitle := trim (replace leadingNonAlnumRe to_empty line) in
      sections ++
      [ {| key := def_key header; title := cleanedTitle;
           icon := def_icon header; paragraphs := []; bullets := [] |} ]
  | None =>
      match sections with
      | [] => []                                   (* if (!current) return *)
      | _ :: _ =>
          if startsWith [BULLET] line || startsWith [DASH] line
          then
            let cleaned := replace bulletPrefixRe to_empty line in
            on_current (push_bullet cleaned) sections
          else on_current (push_paragraph line) sections
      end
  end.

Definition build_sections (lines : list jsstring) : list section :=
  fold_left on_line lines [].

(** [rawLines[index + 1] || ''] *)
Definition next_line (lines : list jsstring) (index : nat) : jsstring :=
  nth (index + 1) lines [].

Definition isHeaderLine (lines : list jsstring) (line : jsstring)
           (index : nat) : bool :=
  let lower := toLowerCase line in
  if startsWith [BULLET] line || startsWith [DASH] line then false
  else if str_eqb lower (js "your results by game:")
          || str_eqb lower (js "what this means:")
          || str_eqb lower (js "next steps:")
          || str_eqb lower (js "key points")
          || str_eqb lower (js "common symptoms")
          || str_eqb lower (js "types of mci")
          || str_eqb lower (js "important note")
          || includes (js "understanding your results") lower
          || includes (js "your personalized action plan") lower
          || includes (js "monitoring your progress") lower
          || includes (js "when to see your doctor") lower
  then true
  else
    let next := next_line lines index in
    Nat.leb (length line) 60
    && (startsWith [BULLET] next || startsWith [DASH] next).

(** [rawLines.map((line, index) => ...)] of the fallback path. *)
Fixpoint map_indexed (lines : list jsstring) (index : nat)
         (todo : list jsstring) : list (bool * jsstring) :=
  match todo with
  | [] => []
  | line :: more =>
      (isHeaderLine lines line index, line) :: map_indexed lines (S index) more
  end.

Definition renderMessageContent (msg : chat_msg) : rendered :=
  match msg_role msg with
  | User => Raw (msg_content msg)
  | Assistant =>
      let lines := rawLines msg in
      if hasSlideSections lines
      then Slide (build_sections lines)
      else Lines (map_indexed lines 0 lines)
  end.

End WithRuntime.

(** Lower-casing of ASCII text: what [toLowerCase] does on strings whose
    code units are all below 128. *)
Definition asciiLower (s : jsstring) : jsstring :=
  map (fun c => if is_upper c then (c + 32)%N else c) s.

End Slides.

(* ===================================================================== *)
(** * The Session Controller (screen-based client) *)
(* ===================================================================== *)

(** How an awaited request settles.  [data] is [None] when the response
    carries no body, so that reading a field of it throws. *)
Inductive settled (D : Type) : Type :=
| Fulfilled (data : option D)
| Rejected (code : option jsstring) (response : bool).
Arguments Fulfilled {D} data.
Arguments Rejected {D} code response.

(** [{ filename, content }] or [{ error }] *)
Record upload_data : Type := UploadData
  { up_error : option jsstring; up_filename : option jsstring;
    up_content : option jsstring }.

(** [{ reply }] *)
Record chat_data : Type := ChatData { reply : option jsstring }.

(** The body of [POST /chat]. *)
Record payload : Type := Payload
  { message_ : jsstring;
    conversation_history : list (role * option jsstring);
    file_context : option jsstring }.

(** A value caught by [catch (err)]: [err.code] and whether
    [err.response] is set. *)
Record caught : Type := Caught
  { err_code : option jsstring; err_response : bool }.

(** What reading a property of [undefined] throws. *)
Definition type_error : caught :=
  {| err_code := None; err_response := false |}.

(** Truthiness of a value that is a string or [undefined]. *)
Definition truthy (v : option jsstring) : bool :=
  match v with
  | Some (_ :: _) => true
  | _ => false
  end.

(** [v || ''] *)
Definition or_empty (v : option jsstring) : jsstring :=
  match v with
  | Some s => s
  | None => []
  end.

(** [v || null] *)
Definition or_null (v : jsstring) : option jsstring :=
  match v with
  | [] => None
  | _ :: _ => Some v
  end.

Module Session.

Inductive screen_name : Type := upload | chat.

Record state : Type := State
  { screen : screen_name;
    message : jsstring;
    loading : bool;
    uploading : bool;
    fileName : option jsstring;
    fileContext : jsstring;
    messages : list chat_msg;
    error : option jsstring }.

(** The [useState] defaults. *)
Definition initial : state :=
  {| screen := upload; message := []; loading := false; uploading := false;
     fileName := None; fileContext := []; messages := []; error := None |}.

Definition setScreen (v : screen_name) (st : state) : state :=
  {| screen := v; message := message st; loading := loading st;
     uploading := uploading st; fileName := fileName st;
     fileContext := fileContext st; messages := messages st;
     error := error st |}.

Definition setMessage (v : jsstring) (st : state) : state :=
  {| screen := screen st; message := v; loading := loading st;
     uploading := uploading st; fileName := fileName st;
     fileContext := fileContext st; messages := messages st;
     error := error st |}.

Definition setLoading (v : bool) (st : state) : state :=
  {| screen := screen st; message := message st; loading := v;
     uploading := uploading st; fileName := fileName st;
     fileContext := fileContext st; messages := messages st;
     error := error st |}.

Definition setUploading (v : bool) (st : state) : state :=
  {| screen := screen st; message := message st; loading := loading st;
     uploading := v; fileName := fileName st;
     fileContext := fileContext st; messages := messages st;
     error := error st |}.

Definition setFileName (v : option jsstring) (st : state) : state :=
  {| screen := screen st; message := message st; loading := loading st;
     uploading := uploading st; fileName := v;
     fileContext := fileContext st; messages := messages st;
     error := error st |}.

Definition setFileContext (v : jsstring) (st : state) : state :=
  {| screen := screen st; message := message st; loading := loading st;
     uploading := uploading st; fileName := fileName st;
     fileContext := v; messages := messages st; error := error st |}.

(** [setMessages] with an updater function. *)
Definition setMessages (f : list chat_msg -> list chat_msg) (st : state)
  : state :=
  {| screen := screen st; message := message st; loading := loading st;
     uploading := uploading st; fileName := fileName st;
     fileContext := fileContext st; messages := f (messages st);
     error := error st |}.

Definition setError (v : option jsstring) (st : state) : state :=
  {| screen := screen st; message := message st; loading := loading st;
     uploading := uploading st; fileName := fileName st;
     fileContext := fileContext st; messages := messages st; error := v |}.

Definition getErrorMessage (err : caught) : jsstring :=
  if match err_code err with
     | Some c => str_eqb c (js "ECONNABORTED")
     | None => false
     end
  then js "Server took too long to respond. It may be starting up "
       ++ [8212%N]                                       (* U+2014 *)
       ++ js " please try again."
  else if negb (err_response err)
  then js "Cannot reach the server. Please check your connection and try again."
  else js "Something went wrong. Please try again.".

Definition handleNewChat (st : state) : state :=
  setScreen upload
    (setError None
       (setFileContext []
          (setFileName None (setMessage [] (setMessages (fun _ => []) st))))).

Section Collaborators.

(** The picked file, the two remote calls, and the clock read when the
    user message and the reply are stamped. *)
Variable File : Type.
Variable post_upload : File -> settled upload_data.
Variable post_chat : payload -> settled chat_data.
Variables time_sent time_received : jsstring.

(** The [try] block of [handleUpload]: the state it leaves and what it
    threw, if anything. *)
Definition upload_try (file : File) (st : state) : state * option caught :=
  match post_upload file with
  | Fulfilled (Some data) =>
      if truthy (up_error data)
      then (setError (up_error data) st, None)          (* return *)
      else
        (setScreen chat
           (setFileContext (or_empty (up_content data))
              (setFileName (up_filename data) st)), None)
  | Fulfilled None => (st, Some type_error)
  | Rejected code response =>
      (st, Some {| err_code := code; err_response := response |})
  end.

(** [handleUpload]: the final state and the file posted, if any. *)
Definition handleUpload (file : option File) (st : state)
  : state * option File :=
  match file with
  | None => (st, None)                                  (* if (!file) return *)
  | Some f =>
      let st := setError None (setUploading true st) in
      let (st, thrown) := upload_try f st in
      let st :=
        match thrown with
        | Some err => setError (Some (getErrorMessage err)) st
        | None => st
        end in
      (setUploading false st, Some f)
  end.

(** [sendMessage] up to the [await]: the guard, the request body, and
    the optimistic update. *)
Definition send_begin (text : jsstring) (st : state)
  : option (state * payload) :=
  if negb (nonempty (trim text)) || loading st then None
  else
    let userMessage :=
      {| msg_role := User; msg_content := Some text;
         msg_time := time_sent |} in
    let request :=
      {| message_ := text;
         conversation_history :=
           map (fun m => (msg_role m, msg_content m)) (messages st);
         file_context := or_null (fileContext st) |} in
    Some (setLoading true
            (setMessage []
               (setMessages (fun prev => prev ++ [userMessage]) st)),
          request).

(** [sendMessage] from the [await] on: [try], [catch] and [finally]. *)
Definition send_settle (outcome : settled chat_data) (st : state) : state :=
  let st :=
    match outcome with
    | Fulfilled (Some data) =>
        let assistantReply :=
          {| msg_role := Assistant; msg_content := reply data;
             msg_time := time_received |} in
        setMessages (fun prev => prev ++ [assistantReply]) st
    | Fulfilled None => setError (Some (getErrorMessage type_error)) st
    | Rejected code response =>
        setError
          (Some (getErrorMessage
                   {| err_code := code; err_response := response |})) st
    end in
  setLoading false st.

(** [sendMessage]: the final state and the request issued, if any. *)
Definition sendMessage (text : jsstring) (st : state)
  : state * option payload :=
  match send_begin text st with
  | None => (st, None)
  | Some (st1, request) => (send_settle (post_chat request) st1, Some request)
  end.

(** [const handleSend = () => sendMessage(message)] *)
Definition handleSend (st : state) : state * option payload :=
  sendMessage (message st) st.

(** [const handleQuickReply = (text) => sendMessage(text)] *)
Definition handleQuickReply (text : jsstring) (st : state)
  : state * option payload :=
  sendMessage text st.

End Collaborators.

(** [disabled={loading || !message.trim()}] of the send button. *)
Definition send_disabled (st : state) : bool :=
  loading st || negb (nonempty (trim (message st))).

(** [{error && (<div className="error-toast"><span>{error}</span> ...)}],
    on the upload screen and on the chat screen: the text of the toast,
    when one is shown. *)
Definition error_toast (st : state) : option jsstring :=
  if truthy (error st) then error st else None.

End Session.

(* ===================================================================== *)
(** * The local-storage client ([src/frontend/src/App.jsx]) *)
(* ===================================================================== *)

Module Persisted.

(** The three [STORAGE_KEYS] of [localStorage]; the transcript is kept
    as the list it serialises. *)
Record storage : Type := Storage
  { recognaize_messages : option (list chat_msg);
    recognaize_filename : option jsstring;
    recognaize_file_context : option jsstring }.

Record state : Type := State
  { message : jsstring;
    loading : bool;
    fileName : option jsstring;
    fileContext : jsstring;
    messages : list chat_msg;
    error : option jsstring;
    localStorage : storage }.

Definition handleNewChat (st : state) : state :=
  {| message := []; loading := loading st; fileName := None;
     fileContext := []; messages := []; error := None;
     localStorage :=
       {| recognaize_messages := None; recognaize_filename := None;
          recognaize_file_context := None |} |}.

(** [const hasMessages = messages.length > 0]: the welcome banner and the
    upload section are shown while it is false. *)
Definition hasMessages (st : state) : bool :=
  match messages st with
  | [] => false
  | _ :: _ => true
  end.

(** The effect that mirrors the transcript after a render in which it
    changed. *)
Definition persist_messages (st : state) : state :=
  {| message := message st; loading := loading st; fileName := fileName st;
     fileContext := fileContext st; messages := messages st;
     error := error st;
     localStorage :=
       {| recognaize_messages := Some (messages st);
          recognaize_filename := recognaize_filename (localStorage st);
          recognaize_file_context :=
            recognaize_file_context (localStorage st) |} |}.

(** [clearFile] *)
Definition clearFile (st : state) : state :=
  {| message := message st; loading := loading st; fileName := None;
     fileContext := []; messages := messages st; error := error st;
     localStorage :=
       {| recognaize_messages := recognaize_messages (localStorage st);
          recognaize_filename := None;
          recognaize_file_context := None |} |}.

(** The effect that loads the persisted state on mount.  A stored
    transcript is a JSON text, hence never the empty string; a stored file
    name or report context is used when it is not the empty string. *)
Definition load_persisted (st : state) : state :=
  {| message := message st; loading := loading st;
     fileName :=
       match recognaize_filename (localStorage st) with
       | Some (c :: s) => Some (c :: s)
       | _ => fileName st
       end;
     fileContext :=
       match recognaize_file_context (localStorage st) with
       | Some (c :: s) => c :: s
       | _ => fileContext st
       end;
     messages :=
       match recognaize_messages (localStorage st) with
       | Some saved => saved
       | None => messages st
       end;
     error := error st; localStorage := localStorage st |}.

(** The [useState] defaults, over what the browser has stored. *)
Definition initial (stored : storage) : state :=
  {| message := []; loading := false; fileName := None; fileContext := [];
     messages := []; error := None; localStorage := stored |}.

(** A reload of the page: the defaults, then the effect that loads the
    persisted state. *)
Definition reload (st : state) : state :=
  load_persisted (initial (localStorage st)).

(** [localStorage.setItem(key, value)] stores the string form of the
    value: ["undefined"] for [undefined]. *)
Definition stored_string (v : option jsstring) : jsstring :=
  match v with
  | Some s => s
  | None => js "undefined"
  end.

Section Collaborators.

Variable File : Type.
Variable post_upload : File -> settled upload_data.
Variable post_chat : payload -> settled chat_data.
Variables time_sent time_received : jsstring.

(** [handleUpload]: the final state and the file posted, if any.  The
    writes to the storage are taken to succeed. *)
Definition handleUpload (file : option File) (st : state)
  : state * option File :=
  match file with
  | None => (st, None)                                  (* if (!file) return *)
  | Some f =>
      let failed (msg : jsstring) :=
        {| message := message st; loading := false; fileName := fileName st;
           fileContext := fileContext st; messages := messages st;
           error := Some msg; localStorage := localStorage st |} in
      match post_upload f with
      | Fulfilled (Some data) =>
          if truthy (up_error data)
          then
            ({| message := message st; loading := false;
                fileName := fileName st; fileContext := fileContext st;
                messages := messages st; error := up_error data;
                localStorage := localStorage st |}, Some f)
          else
            let parsed := or_empty (up_content data) in
            ({| message := message st; loading := false;
                fileName := up_filename data; fileContext := parsed;
                messages := messages st; error := error st;
                localStorage :=
                  {| recognaize_messages :=
                       recognaize_messages (localStorage st);
                     recognaize_filename :=
                       Some (stored_string (up_filename data));
                     recognaize_file_context := Some parsed |} |}, Some f)
      | _ => (failed (js "Unable to upload file. Please try again."), Some f)
      end
  end.

Definition send_begin (text : jsstring) (st : state)
  : option (state * payload) :=
  if negb (nonempty (trim text)) then None
  else
    let userMessage :=
      {| msg_role := User; msg_content := Some text;
         msg_time := time_sent |} in
    let request :=
      {| message_ := text;
         conversation_history :=
           map (fun m => (msg_role m, msg_content m)) (messages st);
         file_context := or_null (fileContext st) |} in
    Some ({| message := []; loading := true; fileName := fileName st;
             fileContext := fileContext st;
             messages := messages st ++ [userMessage];
             error := error st; localStorage := localStorage st |},
          request).

Definition send_settle (outcome : settled chat_data) (st : state) : state :=
  match outcome with
  | Fulfilled (Some data) =>
      let assistantReply :=
        {| msg_role := Assistant; msg_content := reply data;
           msg_time := time_received |} in
      {| message := message st; loading := false; fileName := fileName st;
         fileContext := fileContext st;
         messages := messages st ++ [assistantReply];
         error := error st; localStorage := localStorage st |}
  | _ =>
      {| message := message st; loading := false; fileName := fileName st;
         fileContext := fileContext st; messages := messages st;
         error := Some (js "Unable to reach the assistant. Please try again.");
         localStorage := localStorage st |}
  end.

Definition sendMessage (text : jsstring) (st : state)
  : state * option payload :=
  match send_begin text st with
  | None => (st, None)
  | Some (st1, request) => (send_settle (post_chat request) st1, Some request)
  end.

(** [const handleSend = () => { sendMessage(message) }] *)
Definition handleSend (st : state) : state * option payload :=
  sendMessage (message st) st.

End Collaborators.

End Persisted.

Definition assistant (s : jsstring) : chat_msg :=
  {| msg_role := Assistant; msg_content := Some s; msg_time := [] |}.

(** Lines joined by line feeds. *)
Fixpoint unlines (ls : list jsstring) : jsstring :=
  match ls with
  | [] => []
  | [l] => l
  | l :: more => l ++ [LF] ++ unlines more
  end.

(** A reply that follows the four-topic template. *)
Definition template_reply : jsstring :=
  unlines
    [ js "**Understanding Your Results**";
      js "Your scores are within the expected range.";
      js "**Your Personalized Action Plan**";
      js "- Walk daily";
      js "- Sleep eight hours";
      js "**Monitoring Your Progress**";
      js "Repeat the assessment in six months.";
      js "**When to See Your Doctor**";
      js "If memory lapses become frequent." ].

(** The same topics with the first marker on two lines. *)
Definition template_repeated : jsstring :=
  unlines
    [ js "Understanding Your Results";
      js "Your scores are within the expected range.";
      js "More on understanding your results:";
      js "- Each game tests one domain";
      js "Your Personalized Action Plan";
      js "Monitoring Your Progress";
      js "When to See Your Doctor" ].

(** The four markers on one line. *)
Definition template_one_line : jsstring :=
  js "Understanding your results, your personalized action plan, monitoring your progress, when to see your doctor".

(* ===================================================================== *)
(** * Reading the generic formatter's output *)
(* ===================================================================== *)

Module GenericView.
Import Generic.

Inductive kind : Type := KHeading | KBullet | KNumbered | KPlain.

(** A typed line of a formatted reply: its kind and what it shows. *)
Record typed_line : Type := TypedLine { tl_kind : kind; tl_shown : inline }.

Definition of_section_line (l : section_line) : typed_line :=
  {| tl_kind := match cls l with
                | MsgBullet => KBullet
                | MsgNumbered => KNumbered
                | MsgLine => KPlain
                end;
     tl_shown := content l |}.

Definition of_element (e : element) : list typed_line :=
  match e with
  | Heading t => [ {| tl_kind := KHeading; tl_shown := Text t |} ]
  | SectionBlock ls => map of_section_line ls
  | Line c => [ {| tl_kind := KPlain; tl_shown := c |} ]
  end.

(** The typed lines of a list of elements, section blocks opened up. *)
Definition typed_lines (es : list element) : list typed_line :=
  flat_map of_element es.

(** The typed lines held by the two variables of the loop. *)
Definition pending (a : acc) : list typed_line :=
  typed_lines (elements a) ++ map of_section_line (sectionLines a).

Definition empty_acc : acc := {| elements := []; sectionLines := [] |}.

(** What the [forEach] callback makes of one raw line when nothing has
    been collected yet. *)
Definition alone (rawLine : jsstring) : list typed_line :=
  match on_line empty_acc rawLine with
  | Ok a => pending a
  | TypeError => []
  end.

(** The text of a list of spans. *)
Definition spans_text (ps : list span) : jsstring := flat_map span_text ps.

(** The visible text of a typed line. *)
Definition shown_text (c : inline) : jsstring :=
  match c with
  | Parts ps => spans_text ps
  | Text t => t
  end.

Definition not_asterisk (c : N) : bool := negb (is_char ASTERISK c).

(** ** The tests of the callback *)

(** [hashMatch || boldHeadingMatch || capsHeadingMatch] *)
Definition heading_found (line : jsstring) : bool :=
  is_some (exec hashRe line) || is_some (exec boldHeadingRe line)
  || is_some (exec capsHeadingRe line).

(** The value whose [replace] gives the heading text. *)
Definition heading_source (line : jsstring) : option jsstring :=
  js_or (opt_group1 (exec hashRe line))
    (js_or (opt_group1 (exec boldHeadingRe line))
       (opt_group1 (exec capsHeadingRe line))).

(** ** Shapes of a trimmed line *)

Definition starts_in (p : N -> bool) (s : jsstring) : bool :=
  match s with
  | c :: _ => p c
  | [] => false
  end.

Definition ends_with_colon (line : jsstring) : bool :=
  N.eqb (last line 0%N) COLON.

(** [f] holds of the line, or of the line without its final colon. *)
Definition optional_colon (f : jsstring -> bool) (line : jsstring) : bool :=
  f line || (ends_with_colon line && f (removelast line)).

(** One to four [#], then white space. *)
Definition hash_shape (line : jsstring) : bool :=
  let n := run_len (is_char HASH) line in
  (1 <=? n) && (n <=? 4) && starts_in isWhiteSpace (skipn n line).

(** Two asterisks, a non-empty text free of line terminators, two
    asterisks. *)
Definition wrapped (b : jsstring) : bool :=
  match b with
  | a1 :: a2 :: t =>
      let k := length t - 2 in
      is_char ASTERISK a1 && is_char ASTERISK a2
      && (1 <=? k) && (2 <=? length t)
      && forallb dot_any (firstn k t)
      && forallb (is_char ASTERISK) (skipn k t)
  | _ => false
  end.

Definition bold_shape (line : jsstring) : bool := optional_colon wrapped line.

(** An upper-case letter, then at least three code units, each an
    upper-case letter, white space or [&]. *)
Definition caps_phrase (b : jsstring) : bool :=
  match b with
  | c :: body =>
      is_upper c && (3 <=? length body) && forallb caps_body body
  | [] => false
  end.

Definition caps_shape (line : jsstring) : bool :=
  optional_colon caps_phrase line.

(** A glyph among U+2022, [-] and [*], then white space. *)
Definition bullet_shape (line : jsstring) : bool :=
  match line with
  | g :: t => bullet_glyph g && starts_in isWhiteSpace t
  | [] => false
  end.

(** Digits, then [.] or [)], then white space. *)
Definition numbered_shape (line : jsstring) : bool :=
  let n := run_len is_digit line in
  (1 <=? n) &&
  match skipn n line with
  | sep :: t => dot_or_paren sep && starts_in isWhiteSpace t
  | [] => false
  end.


(** ** The classification as the specification words it *)

(** "An all-caps phrase of at least 4 letters": as [caps_phrase], with
    the letters counted. *)
Definition spec_caps_phrase (b : jsstring) : bool :=
  match b with
  | c :: body =>
      is_upper c && forallb caps_body body
      && (4 <=? length (filter is_upper b))
  | [] => false
  end.

Definition spec_heading (line : jsstring) : bool :=
  hash_shape line || bold_shape line || optional_colon spec_caps_phrase line.

(** ** Properties of the output *)

(** No heading of the list holds an asterisk. *)
Definition headings_clean (es : list element) : Prop :=
  forall t, In (Heading t) es -> ~ In ASTERISK t.

(** A run of section lines that starts with a bullet or a numbered
    line. *)
Definition led_by_item (ls : list section_line) : Prop :=
  exists l more, ls = l :: more /\ cls l <> MsgLine.

(** The blocks pushed so far and the lines being collected are led by an
    item. *)
Definition blocks_led (a : acc) : Prop :=
  (forall ls, In (SectionBlock ls) (elements a) -> led_by_item ls) /\
  (sectionLines a = [] \/ led_by_item (sectionLines a)).

(** A text without asterisks. *)
Definition plain_text (t : jsstring) : bool := forallb not_asterisk t.

(** A span that is not empty and, when emphasized, on one line. *)
Definition span_ok (p : span) : Prop :=
  span_text p <> [] /\
  (bold p = true -> forallb dot_any (span_text p) = true).


End GenericView.

(* ===================================================================== *)
(** * Reading the template formatter's output *)
(* ===================================================================== *)

Module SlidesView.
Import Slides.

(** The section blocks of what a bubble shows. *)
Definition section_blocks (r : rendered) : nat :=
  match r with
  | Slide sections => length sections
  | _ => 0
  end.

(** How many lines a list of sections holds: one for each title, one for
    each paragraph and one for each bullet. *)
Definition placed (sections : list section) : nat :=
  list_sum (map (fun s => 1 + length (paragraphs s) + length (bullets s))
              sections).

(** The lines from the first one that satisfies [p] on. *)
Fixpoint from_first (p : jsstring -> bool) (lines : list jsstring)
  : list jsstring :=
  match lines with
  | [] => []
  | line :: more => if p line then lines else from_first p more
  end.

(** The key, the title and the icon of a section. *)
Definition header_of (s : section) : jsstring * jsstring * jsstring :=
  (key s, title s, icon s).

(** [a-zA-Z0-9] *)
Definition alnum (c : N) : bool := is_lower c || is_upper c || is_digit c.

(** The seven fixed titles of [isHeaderLine]. *)
Definition fixed_title (lower : jsstring) : bool :=
  str_eqb lower (js "your results by game:")
  || str_eqb lower (js "what this means:")
  || str_eqb lower (js "next steps:")
  || str_eqb lower (js "key points")
  || str_eqb lower (js "common symptoms")
  || str_eqb lower (js "types of mci")
  || str_eqb lower (js "important note").

(** [line.startsWith('•') || line.startsWith('-')] *)
Definition starts_with_glyph (line : jsstring) : bool :=
  startsWith [BULLET] line || startsWith [DASH] line.

(** An expression that matches only where an asterisk stands. *)
Definition needs_asterisk (r : regex) : Prop :=
  forall i s, GenericView.starts_in (is_char ASTERISK) s = false -> exec_at r i s = None.

Section WithRuntime.

Variable toLowerCase : jsstring -> jsstring.

(** The line, lower-cased, contains the marker of [d]. *)
Definition mentions (d : section_def) (line : jsstring) : bool :=
  includes (def_match d) (toLowerCase line).

Definition b2n (b : bool) : nat := if b then 1 else 0.

(** How many of the four markers a line contains. *)
Definition hits (line : jsstring) : nat :=
  length (filter (fun d => mentions d line) sectionDefs).

(** How many lines contain the marker of [d]. *)
Definition count_lines (lines : list jsstring) (d : section_def) : nat :=
  length (filter (mentions d) lines).

(** The marker of [d] is present: some line contains it. *)
Definition present (lines : list jsstring) (d : section_def) : bool :=
  existsb (mentions d) lines.

(** How many of the four markers are present. *)
Definition markers_present (lines : list jsstring) : nat :=
  length (filter (present lines) sectionDefs).

(** The lines up to the next marker line. *)
Fixpoint until_marker (lines : list jsstring) : list jsstring :=
  match lines with
  | [] => []
  | line :: more =>
      match find_header toLowerCase line with
      | Some _ => []
      | None => line :: until_marker more
      end
  end.

(** The card of a marker line and of the lines under it: the lines that
    start with a glyph are its bullets, the others its paragraphs. *)
Definition card (d : section_def) (line : jsstring)
           (under : list jsstring) : section :=
  {| key := def_key d;
     title := trim (replace leadingNonAlnumRe to_empty line);
     icon := def_icon d;
     paragraphs := filter (fun l => negb (starts_with_glyph l)) under;
     bullets :=
       map (replace bulletPrefixRe to_empty)
         (filter starts_with_glyph under) |}.

(** One card for each marker line, holding the lines up to the next
    marker line. *)
Fixpoint cards (lines : list jsstring) : list section :=
  match lines with
  | [] => []
  | line :: more =>
      match find_header toLowerCase line with
      | Some d => card d line (until_marker more) :: cards more
      | None => cards more
      end
  end.

(** A section with further lines under it. *)
Definition with_lines (under : list jsstring) (c : section) : section :=
  {| key := key c; title := title c; icon := icon c;
     paragraphs :=
       paragraphs c ++ filter (fun l => negb (starts_with_glyph l)) under;
     bullets :=
       bullets c
       ++ map (replace bulletPrefixRe to_empty)
            (filter starts_with_glyph under) |}.
(** What a line opens: a section header, when it contains a marker. *)
Definition opened (line : jsstring)
  : list (jsstring * jsstring * jsstring) :=
  match find_header toLowerCase line with
  | Some d =>
      [ (def_key d, trim (replace leadingNonAlnumRe to_empty line),
         def_icon d) ]
  | None => []
  end.

End WithRuntime.

End SlidesView.

(* ===================================================================== *)
(** * Facts about the string primitives and the matcher *)
(* ===================================================================== *)

Module JsFacts.

Lemma nonempty_true (s : jsstring) : nonempty s = true <-> s <> [].
Proof. destruct s; simpl; split; congruence. Qed.

Lemma dropWhile_head (p : N -> bool) (s : jsstring) c t :
  dropWhile p s = c :: t -> p c = false.
Proof.
  induction s as [|x s IH]; simpl; [discriminate|].
  destruct (p x) eqn:Hx; [exact IH|].
  intros E; inversion E; subst; exact Hx.
Qed.

Lemma dropWhile_snoc (p : N -> bool) (s : jsstring) c :
  p c = false -> dropWhile p (s ++ [c]) = dropWhile p s ++ [c].
Proof.
  intros Hc; induction s as [|x s IH]; simpl.
  - now rewrite Hc.
  - destruct (p x); [exact IH | reflexivity].
Qed.

(** A trimmed line neither starts nor ends with white space. *)
Lemma trim_head (s : jsstring) c t :
  trim s = c :: t -> isWhiteSpace c = false.
Proof.
  unfold trim, trimEnd, trimStart.
  destruct (dropWhile isWhiteSpace s) as [|x u] eqn:E.
  - simpl; discriminate.
  - pose proof (dropWhile_head _ _ E) as Hx.
    simpl rev. destruct (rev u ++ [x]) as [|? ?] eqn:Er.
    + destruct (rev u); discriminate.
    + rewrite <- Er, dropWhile_snoc, rev_app_distr by exact Hx.
      simpl. intros H; inversion H; subst; exact Hx.
Qed.

Lemma trim_last (s : jsstring) u c :
  trim s = u ++ [c] -> isWhiteSpace c = false.
Proof.
  unfold trim, trimEnd. intros H.
  apply (f_equal (@rev N)) in H.
  rewrite rev_involutive, rev_app_distr in H. simpl in H.
  exact (dropWhile_head _ _ H).
Qed.

(** ** Quantifier runs *)

Lemma run_len_le (p : N -> bool) (s : jsstring) : run_len p s <= length s.
Proof.
  induction s as [|c s IH]; simpl; [lia|]. destruct (p c); simpl; lia.
Qed.

Lemma run_len_prefix (p : N -> bool) (s : jsstring) k :
  k <= run_len p s <-> k <= length s /\ forallb p (firstn k s) = true.
Proof.
  revert k; induction s as [|c s IH]; intros k; simpl.
  - destruct k; simpl; split; intros; try split; auto; lia.
  - destruct k as [|k]; simpl.
    + split; intros; try split; auto; lia.
    + destruct (p c); simpl.
      * rewrite <- Nat.succ_le_mono, IH. rewrite <- Nat.succ_le_mono. tauto.
      * split; [lia | intros [_ H]; discriminate].
Qed.


Lemma run_len_split (p : N -> bool) (s : jsstring) :
  forallb p (firstn (run_len p s) s) = true /\
  match skipn (run_len p s) s with
  | c :: _ => p c = false
  | [] => True
  end.
Proof.
  induction s as [|c s IH]; simpl; [auto|].
  destruct (p c) eqn:Hc; simpl; [rewrite Hc; exact IH | auto].
Qed.

Lemma in_counts greedy lo n k : In k (counts greedy lo n) <-> lo <= k <= n.
Proof.
  unfold counts. destruct greedy; [rewrite <- in_rev|]; rewrite in_seq; lia.
Qed.

Lemma counts_greedy lo n :
  lo <= n -> counts true lo n = n :: rev (seq lo (n - lo)).
Proof.
  intros H. unfold counts.
  replace (S n - lo) with ((n - lo) + 1) by lia.
  rewrite seq_app, rev_app_distr. simpl.
  now replace (lo + (n - lo)) with n by lia.
Qed.

Lemma counts_lazy lo n :
  lo <= n -> counts false lo n = lo :: seq (S lo) (n - lo).
Proof.
  intros H. unfold counts.
  now replace (S n - lo) with (S (n - lo)) by lia.
Qed.

(** ** Membership in [run]: the matches of each construct *)

Lemma in_run_Bol st st' : In st' (run Bol st) <-> pos st = 0 /\ st' = st.
Proof.
  simpl. destruct (Nat.eqb_spec (pos st) 0); simpl; intuition congruence.
Qed.

Lemma in_run_Eol st st' : In st' (run Eol st) <-> rest st = [] /\ st' = st.
Proof.
  simpl. destruct (rest st); simpl; intuition congruence.
Qed.

Lemma in_run_Cls p st st' :
  In st' (run (Cls p) st) <->
  exists c t, rest st = c :: t /\ p c = true /\ st' = advance 1 st.
Proof.
  simpl. destruct (rest st) as [|c t].
  - simpl; split; [tauto | intros (? & ? & ? & _); discriminate].
  - destruct (p c) eqn:Hc; simpl.
    + split.
      * intros [<-|[]]. now exists c, t.
      * intros (? & ? & _ & _ & ->); auto.
    + split; [tauto|]. intros (? & ? & E & Hp & _). congruence.
Qed.

Lemma in_run_Rep g lo hi p st st' :
  In st' (run (Rep g lo hi p) st) <->
  exists k, lo <= k <= cap_hi hi (run_len p (rest st)) /\ st' = advance k st.
Proof.
  simpl. rewrite in_map_iff. split.
  - intros (k & <- & Hk). apply in_counts in Hk. eauto.
  - intros (k & Hk & ->). exists k. split; auto. now apply in_counts.
Qed.

Lemma in_run_Cat r1 r2 st st' :
  In st' (run (r1 ;; r2) st) <->
  exists st1, In st1 (run r1 st) /\ In st' (run r2 st1).
Proof. simpl. apply in_flat_map. Qed.

Lemma in_run_Grp i r st st' :
  In st' (run (Grp i r) st) <->
  exists st1, In st1 (run r st) /\
    st' = {| pos := pos st1; rest := rest st1;
             caps := (i, firstn (pos st1 - pos st) (rest st)) :: caps st1 |}.
Proof.
  simpl. rewrite in_map_iff. split; intros (st1 & H1 & H2); eauto.
Qed.

(** Every match consumes a prefix of what is left. *)
Lemma run_consumes r : forall st st',
  In st' (run r st) ->
  exists k, k <= length (rest st) /\ pos st' = pos st + k /\
            rest st' = skipn k (rest st).
Proof.
  induction r as [| |p|g lo hi p|r1 IH1 r2 IH2|i r IH]; intros st st' H.
  - apply in_run_Bol in H as [_ ->]. exists 0. simpl. split; [lia|]. auto.
  - apply in_run_Eol in H as [_ ->]. exists 0. simpl. split; [lia|]. auto.
  - apply in_run_Cls in H as (c & t & E & _ & ->). exists 1. simpl.
    rewrite E. simpl. split; [lia|]. auto.
  - apply in_run_Rep in H as (k & [_ Hk] & ->). exists k. simpl.
    split; [|auto].
    pose proof (run_len_le p (rest st)).
    destruct hi; simpl in Hk; lia.
  - apply in_run_Cat in H as (st1 & H1 & H2).
    apply IH1 in H1 as (k1 & L1 & P1 & R1).
    apply IH2 in H2 as (k2 & L2 & P2 & R2).
    exists (k1 + k2). rewrite R1 in L2, R2. rewrite length_skipn in L2.
    rewrite skipn_skipn in R2.
    split; [lia|]. split; [lia|]. now rewrite Nat.add_comm.
  - apply in_run_Grp in H as (st1 & H1 & ->). simpl.
    now apply IH in H1.
Qed.

(** ** [exec] *)

Lemma exec_at_Some r i s m :
  exec_at r i s = Some m ->
  exists st', In st' (run r {| pos := i; rest := s; caps := [] |}) /\
    m = {| index := i; whole := firstn (pos st' - i) s;
           groups := caps st'; after := rest st' |}.
Proof.
  unfold exec_at.
  destruct (run r _) as [|st' l] eqn:E; [discriminate|].
  intros H; inversion H; subst. exists st'. split; [left|]; reflexivity.
Qed.

Lemma exec_at_None r i s :
  exec_at r i s = None <-> run r {| pos := i; rest := s; caps := [] |} = [].
Proof.
  unfold exec_at. destruct (run r _); split; congruence.
Qed.

(** An anchored expression matches at the start of the input or not at
    all. *)
Lemma search_anchored r i s : search (Bol ;; r) (S i) s = None.
Proof.
  revert i; induction s as [|c s IH]; intros i; simpl; auto.
Qed.

Lemma exec_anchored r s : exec (Bol ;; r) s = exec_at (Bol ;; r) 0 s.
Proof.
  unfold exec. destruct s as [|c s]; simpl search.
  - now destruct (exec_at _ 0 []).
  - destruct (exec_at _ 0 (c :: s)); auto. apply search_anchored.
Qed.

Lemma search_Some r : forall s i m,
  search r i s = Some m ->
  exists j, j <= length s /\ index m = i + j /\
            exec_at r (i + j) (skipn j s) = Some m.
Proof.
  induction s as [|c s IH]; intros i m; simpl.
  - destruct (exec_at r i []) eqn:E; [|discriminate].
    intros H; inversion H; subst. exists 0. rewrite Nat.add_0_r.
    split; [lia|]. split; auto.
    apply exec_at_Some in E as (? & _ & ->). simpl; lia.
  - destruct (exec_at r i (c :: s)) eqn:E.
    + intros H; inversion H; subst. exists 0. rewrite Nat.add_0_r.
      split; [lia|]. split; auto.
      apply exec_at_Some in E as (? & _ & ->). simpl; lia.
    + intros H. apply IH in H as (j & L & I & X). exists (S j).
      replace (i + S j) with (S i + j) by lia. simpl. split; [lia|]. auto.
Qed.

End JsFacts.

(* ===================================================================== *)
(** * Facts about the generic formatter *)
(* ===================================================================== *)

Module GenericFacts.
Import Generic GenericView JsFacts.

Lemma is_some_true {A : Type} (o : option A) :
  is_some o = true <-> exists m, o = Some m.
Proof.
  destruct o; simpl; split; eauto; try discriminate.
  intros [? ?]; discriminate.
Qed.

(** An anchored expression finds a match exactly when [run] has one. *)
Lemma anchored_matches r s :
  is_some (exec (Bol ;; r) s) = true <->
  exists st', In st' (run (Bol ;; r) {| pos := 0; rest := s; caps := [] |}).
Proof.
  rewrite exec_anchored. unfold exec_at.
  destruct (run _ _) as [|st l]; simpl; split; eauto; try discriminate.
  intros [? []].
Qed.

Lemma anchored_start r s st' :
  In st' (run (Bol ;; r) {| pos := 0; rest := s; caps := [] |}) <->
  In st' (run r {| pos := 0; rest := s; caps := [] |}).
Proof. simpl. now rewrite app_nil_r. Qed.

Lemma starts_in_run_len p s : starts_in p s = true <-> 1 <= run_len p s.
Proof.
  destruct s as [|c s]; simpl; [split; [discriminate | lia]|].
  destruct (p c); split; intros; auto; try lia; discriminate.
Qed.

Lemma starts_in_cons p s :
  starts_in p s = true <-> exists c t, s = c :: t /\ p c = true.
Proof.
  destruct s as [|c s]; simpl; split; try discriminate; eauto.
  - intros (? & ? & ? & _); discriminate.
  - intros (? & ? & E & H); inversion E; subst; auto.
Qed.

(** Inside a run, every code unit is in the class. *)
Lemma run_len_inside p s k :
  k < run_len p s -> exists c t, skipn k s = c :: t /\ p c = true.
Proof.
  revert k; induction s as [|x s IH]; intros k; simpl; [lia|].
  destruct (p x) eqn:Hx; [|lia].
  destruct k as [|k]; simpl; [eauto|]. intros H. apply IH. lia.
Qed.

(** Past a run that stops before the end comes a code unit outside the
    class. *)
Lemma run_len_stops p s :
  existsb (fun c => negb (p c)) s = true ->
  exists c t, skipn (run_len p s) s = c :: t /\ p c = false.
Proof.
  induction s as [|x s IH]; simpl; [discriminate|].
  destruct (p x) eqn:Hx; simpl; eauto.
Qed.

(** In a trimmed line, any non-empty rest holds a code unit that is not
    white space. *)
Lemma trimmed_tail raw u t :
  trim raw = u ++ t -> t <> [] ->
  existsb (fun c => negb (isWhiteSpace c)) t = true.
Proof.
  intros E Ht. destruct (exists_last Ht) as (t' & z & ->).
  rewrite app_assoc in E. apply trim_last in E.
  rewrite existsb_app. simpl. rewrite E. simpl. apply orb_true_r.
Qed.

Lemma not_ws_dot c : isWhiteSpace c = false -> dot_any c = true.
Proof.
  unfold isWhiteSpace, dot_any, isLineTerminator, between.
  intros H. repeat (apply orb_false_elim in H as [H ?]).
  apply negb_true_iff.
  destruct (N.eqb_spec c 10); [subst; discriminate|].
  destruct (N.eqb_spec c 13); [subst; discriminate|].
  simpl. apply orb_false_intro; assumption.
Qed.

(** The tail [\s+(.+)] shared by the hash and the bullet expressions. *)
Lemma ws_text_members i st st' :
  In st' (run (Rep true 1 None isWhiteSpace ;; Grp i (Rep true 1 None dot_any))
              st) <->
  exists j d,
    1 <= j <= run_len isWhiteSpace (rest st) /\
    1 <= d <= run_len dot_any (skipn j (rest st)) /\
    st' = {| pos := pos st + j + d; rest := skipn d (skipn j (rest st));
             caps := (i, firstn d (skipn j (rest st))) :: caps st |}.
Proof.
  rewrite in_run_Cat. split.
  - intros (st1 & H1 & H2).
    apply in_run_Rep in H1 as (j & Hj & ->).
    apply in_run_Grp in H2 as (st2 & H2 & ->).
    apply in_run_Rep in H2 as (d & Hd & ->).
    simpl in *. exists j, d. repeat split; try lia.
    now replace (pos st + j + d - (pos st + j)) with d by lia.
  - intros (j & d & Hj & Hd & ->).
    exists (advance j st). split; [apply in_run_Rep; exists j; auto|].
    apply in_run_Grp. exists (advance d (advance j st)).
    split; [apply in_run_Rep; exists d; auto|]. simpl.
    now replace (pos st + j + d - (pos st + j)) with d by lia.
Qed.

(** In a trimmed line, [\s+(.+)] matches any rest that starts with white
    space. *)
Lemma ws_text_exists raw u t i p0 cs :
  trim raw = u ++ t -> starts_in isWhiteSpace t = true ->
  exists st',
    In st' (run (Rep true 1 None isWhiteSpace ;; Grp i (Rep true 1 None dot_any))
                {| pos := p0; rest := t; caps := cs |}).
Proof.
  intros E Hs.
  assert (Ht : t <> []) by (destruct t; [discriminate | congruence]).
  destruct (run_len_stops isWhiteSpace t (trimmed_tail raw u E Ht))
    as (c & v & Hskip & Hc).
  apply starts_in_run_len in Hs.
  eexists. apply ws_text_members.
  exists (run_len isWhiteSpace t), 1. simpl rest.
  split; [lia|]. split; [|reflexivity].
  rewrite Hskip. simpl. rewrite (not_ws_dot _ Hc). lia.
Qed.

(** ** [hashRe] *)

Lemma hash_not_ws c : is_char HASH c = true -> isWhiteSpace c = false.
Proof. unfold is_char. intros H. apply N.eqb_eq in H. now subst. Qed.

Lemma hashRe_members line st' :
  In st' (run hashRe {| pos := 0; rest := line; caps := [] |}) <->
  exists k j d,
    1 <= k <= Nat.min 4 (run_len (is_char HASH) line) /\
    1 <= j <= run_len isWhiteSpace (skipn k line) /\
    1 <= d <= run_len dot_any (skipn j (skipn k line)) /\
    st' = {| pos := k + j + d; rest := skipn d (skipn j (skipn k line));
             caps := [(1, firstn d (skipn j (skipn k line)))] |}.
Proof.
  unfold hashRe. rewrite anchored_start, in_run_Cat. split.
  - intros (st1 & H1 & H2).
    apply in_run_Rep in H1 as (k & Hk & ->).
    apply ws_text_members in H2 as (j & d & Hj & Hd & ->).
    simpl in *. exists k, j, d. auto.
  - intros (k & j & d & Hk & Hj & Hd & ->).
    exists (advance k {| pos := 0; rest := line; caps := [] |}).
    split; [apply in_run_Rep; exists k; auto|].
    apply ws_text_members. exists j, d. simpl. auto.
Qed.

Lemma hashRe_shape raw :
  is_some (exec hashRe (trim raw)) = true <-> hash_shape (trim raw) = true.
Proof.
  unfold hashRe at 1. rewrite anchored_matches. fold hashRe.
  unfold hash_shape. set (line := trim raw).
  set (n := run_len (is_char HASH) line).
  rewrite !andb_true_iff, !Nat.leb_le. split.
  - intros (st' & H). apply (proj1 (hashRe_members line st')) in H
      as (k & j & d & Hk & Hj & _ & _). fold n in Hk.
    assert (k = n) as ->.
    { destruct (Nat.eq_dec k n) as [|Hne]; auto.
      destruct (run_len_inside (is_char HASH) line (k := k))
        as (c & t & E & Hc); [fold n; lia|].
      rewrite E in Hj. simpl in Hj. rewrite (hash_not_ws _ Hc) in Hj. lia. }
    repeat split; try lia. apply starts_in_run_len. lia.
  - intros [[H1 H4] Hs].
    destruct (ws_text_exists raw (firstn n line) (skipn n line) 1 (0 + n) []
                (eq_sym (firstn_skipn n line)) Hs) as (st' & H).
    exists st'. unfold hashRe.
    apply (proj2 (anchored_start _ _ _)). apply in_run_Cat.
    exists (advance n {| pos := 0; rest := line; caps := [] |}).
    split; [|exact H]. apply in_run_Rep. exists n.
    unfold cap_hi. cbn [rest]. fold n. split; [lia | reflexivity].
Qed.

(** ** [bulletRe] *)

Lemma bulletRe_members line st' :
  In st' (run bulletRe {| pos := 0; rest := line; caps := [] |}) <->
  exists g t j d,
    line = g :: t /\ bullet_glyph g = true /\
    1 <= j <= run_len isWhiteSpace t /\
    1 <= d <= run_len dot_any (skipn j t) /\
    st' = {| pos := 1 + j + d; rest := skipn d (skipn j t);
             caps := [(1, firstn d (skipn j t))] |}.
Proof.
  unfold bulletRe. rewrite anchored_start, in_run_Cat. split.
  - intros (st1 & H1 & H2).
    apply in_run_Cls in H1 as (g & t & E & Hg & ->). simpl in E. subst line.
    apply ws_text_members in H2 as (j & d & Hj & Hd & ->).
    simpl in *. exists g, t, j, d. auto.
  - intros (g & t & j & d & -> & Hg & Hj & Hd & ->).
    exists (advance 1 {| pos := 0; rest := g :: t; caps := [] |}).
    split; [apply in_run_Cls; exists g, t; auto|].
    apply ws_text_members. exists j, d. simpl. auto.
Qed.

Lemma bulletRe_shape raw :
  is_some (exec bulletRe (trim raw)) = true <-> bullet_shape (trim raw) = true.
Proof.
  unfold bulletRe at 1. rewrite anchored_matches. fold bulletRe.
  unfold bullet_shape. set (line := trim raw). split.
  - intros (st' & H). apply (proj1 (bulletRe_members line st')) in H
      as (g & t & j & d & E & Hg & Hj & _ & _).
    rewrite E, Hg. simpl. apply starts_in_run_len. lia.
  - destruct line as [|g t] eqn:E; [discriminate|].
    rewrite andb_true_iff. intros [Hg Hs].
    destruct (ws_text_exists raw [g] t 1 1 [] E Hs) as (st' & H).
    exists st'. unfold bulletRe.
    apply (proj2 (anchored_start _ _ _)). apply in_run_Cat.
    exists (advance 1 {| pos := 0; rest := g :: t; caps := [] |}).
    split; [|exact H]. apply in_run_Cls. exists g, t. auto.
Qed.

(** ** [numberedRe] *)

Lemma digit_not_sep c : is_digit c = true -> dot_or_paren c = false.
Proof.
  unfold is_digit, between, dot_or_paren, is_char, DOT, RPAREN.
  rewrite andb_true_iff, !N.leb_le. intros [H1 H2].
  apply orb_false_intro; apply N.eqb_neq; lia.
Qed.

Lemma numberedRe_shape raw :
  is_some (exec numberedRe (trim raw)) = true <->
  numbered_shape (trim raw) = true.
Proof.
  unfold numberedRe at 1. rewrite anchored_matches.
  unfold numbered_shape. set (line := trim raw).
  set (n := run_len is_digit line).
  rewrite andb_true_iff, Nat.leb_le. split.
  - intros (st' & H). apply (proj1 (anchored_start _ _ _)) in H.
    apply in_run_Cat in H as (st1 & H1 & _).
    apply in_run_Grp in H1 as (st2 & H1 & _).
    apply in_run_Cat in H1 as (st3 & H1 & H2).
    apply in_run_Rep in H1 as (k & Hk & ->).
    apply in_run_Cat in H2 as (st4 & H2 & H3).
    apply in_run_Cls in H2 as (sep & t & E & Hsep & ->).
    apply in_run_Rep in H3 as (j & Hj & _).
    unfold cap_hi in *. cbn [rest advance] in *. fold n in Hk.
    rewrite E in Hj. cbn [skipn] in Hj.
    assert (k = n) as ->.
    { destruct (Nat.eq_dec k n) as [|Hne]; auto.
      destruct (run_len_inside is_digit line (k := k))
        as (c & t' & E' & Hc); [fold n; lia|].
      rewrite E in E'. inversion E'; subst.
      rewrite (digit_not_sep _ Hc) in Hsep. discriminate. }
    split; [lia|]. rewrite E, Hsep. simpl. apply starts_in_run_len. lia.
  - intros [Hn Hs].
    destruct (skipn n line) as [|sep t] eqn:E; [discriminate|].
    apply andb_true_iff in Hs as [Hsep Hs].
    assert (El : trim raw = (firstn n line ++ [sep]) ++ t).
    { rewrite <- app_assoc. simpl. rewrite <- E. symmetry.
      apply firstn_skipn. }
    assert (Ht : t <> []) by (destruct t; [discriminate | congruence]).
    destruct (run_len_stops isWhiteSpace t (trimmed_tail raw _ El Ht))
      as (c & v & Hskip & Hc).
    apply starts_in_run_len in Hs.
    eexists. apply (proj2 (anchored_start _ _ _)). apply in_run_Cat.
    eexists. split.
    + apply in_run_Grp. eexists. split; [|reflexivity].
      apply in_run_Cat. eexists. split.
      * apply in_run_Rep. exists n. unfold cap_hi. cbn [rest]. fold n.
        split; [lia | reflexivity].
      * apply in_run_Cat. eexists. split.
        -- apply in_run_Cls. exists sep, t. cbn [rest advance]. auto.
        -- apply in_run_Rep. exists (run_len isWhiteSpace t).
           unfold cap_hi. cbn [rest advance]. rewrite E. cbn [skipn].
           split; [lia | reflexivity].
    + apply in_run_Grp. eexists. split; [|reflexivity].
      apply in_run_Rep. exists 1. unfold cap_hi. cbn [rest advance].
      rewrite E. cbn [skipn]. rewrite Hskip. simpl.
      rewrite (not_ws_dot _ Hc). split; [lia | reflexivity].
Qed.

Lemma firstn_length_app (x y : jsstring) : firstn (length x) (x ++ y) = x.
Proof.
  rewrite firstn_app, firstn_all, Nat.sub_diag. simpl. apply app_nil_r.
Qed.

Lemma skipn_length_app (x y : jsstring) : skipn (length x) (x ++ y) = y.
Proof. rewrite skipn_app, skipn_all, Nat.sub_diag. reflexivity. Qed.

(** ** The headings wrapped in asterisks and the headings in capitals *)

Lemma is_char_eq k c : is_char k c = true <-> c = k.
Proof. unfold is_char. apply N.eqb_eq. Qed.

Lemma optional_colon_true f line :
  optional_colon f line = true <->
  f line = true \/ exists b, line = b ++ [COLON] /\ f b = true.
Proof.
  unfold optional_colon, ends_with_colon.
  rewrite orb_true_iff, andb_true_iff, N.eqb_eq. split.
  - intros [H|[Hl Hf]]; [now left | right].
    exists (removelast line). split; [|exact Hf].
    assert (line <> []) by (intros ->; discriminate).
    rewrite <- Hl. now apply app_removelast_last.
  - intros [H|(b & -> & Hf)]; [now left | right].
    now rewrite last_last, removelast_last.
Qed.

(** The tail [:?$] shared by the two expressions. *)
Lemma colon_end_members st st' :
  In st' (run (Rep true 0 (Some 1) (is_char COLON) ;; Eol) st) <->
  (rest st = [] \/ rest st = [COLON]) /\
  st' = {| pos := pos st + length (rest st); rest := []; caps := caps st |}.
Proof.
  rewrite in_run_Cat. split.
  - intros (st1 & H1 & H2).
    apply in_run_Rep in H1 as (q & Hq & ->).
    apply in_run_Eol in H2 as (E & ->).
    unfold cap_hi in Hq. cbn [rest advance] in *.
    destruct (rest st) as [|c t] eqn:Er.
    + simpl in Hq. assert (q = 0) as -> by lia.
      unfold advance. rewrite Er. simpl. auto.
    + destruct q as [|q]; [discriminate|].
      assert (q = 0) as -> by lia. simpl in E. subst t.
      simpl in Hq. destruct (is_char COLON c) eqn:Hc; [|simpl in Hq; lia].
      apply is_char_eq in Hc. subst c.
      unfold advance. rewrite Er. simpl. split; [now right | reflexivity].
  - intros [[E|E] ->].
    + exists (advance 0 st). split.
      * apply in_run_Rep. exists 0. split; [lia | reflexivity].
      * apply in_run_Eol. unfold advance. cbn [rest pos caps].
        rewrite E. simpl. rewrite Nat.add_0_r. auto.
    + exists (advance 1 st). split.
      * apply in_run_Rep. exists 1. unfold cap_hi. rewrite E. simpl.
        split; [lia | reflexivity].
      * apply in_run_Eol. unfold advance. cbn [rest pos caps].
        rewrite E. simpl. auto.
Qed.

Lemma all_asterisks_2 s :
  length s = 2 -> forallb (is_char ASTERISK) s = true ->
  s = [ASTERISK; ASTERISK].
Proof.
  destruct s as [|a [|b [|? ?]]]; try discriminate. simpl.
  rewrite !andb_true_iff, !is_char_eq. intros _ (-> & -> & _). reflexivity.
Qed.

Lemma wrapped_true b :
  wrapped b = true <->
  exists x, x <> [] /\ forallb dot_any x = true /\
            b = [ASTERISK; ASTERISK] ++ x ++ [ASTERISK; ASTERISK].
Proof.
  split.
  - destruct b as [|a1 [|a2 t]]; try discriminate.
    unfold wrapped. cbv zeta.
    rewrite !andb_true_iff, !is_char_eq, !Nat.leb_le.
    intros (((((-> & ->) & Hk) & Ht) & Hx) & Hz).
    exists (firstn (length t - 2) t). split; [|split; [exact Hx|]].
    + intros E. apply (f_equal (@length N)) in E.
      rewrite length_firstn in E. simpl in E. lia.
    + apply all_asterisks_2 in Hz; [|rewrite length_skipn; lia].
      cbn [app]. do 2 f_equal.
      rewrite <- (firstn_skipn (length t - 2) t) at 1. now rewrite Hz.
  - intros (x & Hx & Hd & ->). cbn [app].
    unfold wrapped. cbv zeta.
    rewrite !andb_true_iff, !is_char_eq, !Nat.leb_le.
    rewrite length_app. cbn [length].
    replace (length x + 2 - 2) with (length x) by lia.
    rewrite firstn_length_app, skipn_length_app, Hd.
    destruct x; [congruence|]. simpl. repeat split; auto; lia.
Qed.

Lemma boldHeadingRe_members line st' :
  In st' (run boldHeadingRe {| pos := 0; rest := line; caps := [] |}) <->
  exists x tail,
    x <> [] /\ forallb dot_any x = true /\ (tail = [] \/ tail = [COLON]) /\
    line = [ASTERISK; ASTERISK] ++ x ++ [ASTERISK; ASTERISK] ++ tail /\
    st' = {| pos := length line; rest := []; caps := [(1, x)] |}.
Proof.
  unfold boldHeadingRe. rewrite anchored_start. split.
  - intros H.
    apply in_run_Cat in H as (s1 & H1 & H).
    apply in_run_Cls in H1 as (a1 & t1 & E1 & A1 & ->).
    apply in_run_Cat in H as (s2 & H2 & H).
    apply in_run_Cls in H2 as (a2 & t & E2 & A2 & ->).
    apply in_run_Cat in H as (s3 & H3 & H).
    apply in_run_Grp in H3 as (s3' & H3 & ->).
    apply in_run_Rep in H3 as (k & Hk & ->).
    apply in_run_Cat in H as (s4 & H4 & H).
    apply in_run_Cls in H4 as (z1 & u1 & E4 & Z1 & ->).
    apply in_run_Cat in H as (s5 & H5 & H).
    apply in_run_Cls in H5 as (z2 & t2 & E5 & Z2 & ->).
    apply colon_end_members in H as (Ht & ->).
    unfold cap_hi in *. cbn [rest advance pos caps] in *.
    subst line. cbn [skipn] in *. rewrite E2 in *. cbn [skipn] in *.
    rewrite E4 in *. cbn [skipn] in *. subst u1.
    apply is_char_eq in A1, A2, Z1, Z2. subst a1 a2 z1 z2.
    assert (Hp := proj1 (run_len_prefix dot_any t k) (proj2 Hk)).
    destruct Hp as [Hl Hd].
    assert (Et : t = firstn k t ++ ASTERISK :: ASTERISK :: t2).
    { rewrite <- E4. symmetry. apply firstn_skipn. }
    exists (firstn k t), t2. split; [|split; [exact Hd|split; [exact Ht|]]].
    + intros E. apply (f_equal (@length N)) in E.
      rewrite length_firstn in E. simpl in E. lia.
    + split; [cbn [app]; now rewrite <- Et|].
      f_equal.
      * cbn [length]. pose proof (f_equal (@length N) Et) as El.
        rewrite length_app, length_firstn in El. cbn [length] in El. lia.
      * now replace (0 + 1 + 1 + k - (0 + 1 + 1)) with k by lia.
  - intros (x & tail & Hx & Hd & Ht & -> & ->). simpl app.
    apply in_run_Cat. eexists. split;
      [apply in_run_Cls; do 2 eexists; split; [reflexivity|]; split;
       [reflexivity|reflexivity]|].
    apply in_run_Cat. eexists. split;
      [apply in_run_Cls; do 2 eexists; split; [reflexivity|]; split;
       [reflexivity|reflexivity]|].
    cbn [rest advance pos caps skipn].
    assert (Hk : length x <= run_len dot_any (x ++ ASTERISK :: ASTERISK :: tail)).
    { apply run_len_prefix. rewrite length_app, firstn_length_app.
      split; [lia | exact Hd]. }
    assert (Hs : skipn (length x) (x ++ ASTERISK :: ASTERISK :: tail)
                 = ASTERISK :: ASTERISK :: tail).
    { apply skipn_length_app. }
    apply in_run_Cat. eexists. split.
    { apply in_run_Grp. eexists. split; [|reflexivity].
      apply in_run_Rep. exists (length x). unfold cap_hi. cbn [rest].
      split; [|reflexivity]. destruct x; [congruence|]. simpl in *. lia. }
    cbn [rest advance pos caps skipn]. rewrite Hs.
    apply in_run_Cat. eexists. split;
      [apply in_run_Cls; do 2 eexists; split; [reflexivity|]; split;
       [reflexivity|reflexivity]|].
    apply in_run_Cat. eexists. split;
      [apply in_run_Cls; do 2 eexists; split; [reflexivity|]; split;
       [reflexivity|reflexivity]|].
    apply colon_end_members. cbn [rest advance pos caps skipn].
    split; [exact Ht|].
    replace (0 + 1 + 1 + length x - (0 + 1 + 1)) with (length x) by lia.
    rewrite firstn_length_app. f_equal.
    cbn [length]. rewrite length_app. cbn [length]. lia.
Qed.


Lemma capsHeadingRe_members line st' :
  In st' (run capsHeadingRe {| pos := 0; rest := line; caps := [] |}) <->
  exists c body tail,
    is_upper c = true /\ 3 <= length body /\
    forallb caps_body body = true /\ (tail = [] \/ tail = [COLON]) /\
    line = c :: body ++ tail /\
    st' = {| pos := length line; rest := []; caps := [(1, c :: body)] |}.
Proof.
  unfold capsHeadingRe. rewrite anchored_start. split.
  - intros H.
    apply in_run_Cat in H as (s1 & H1 & H).
    apply in_run_Grp in H1 as (s2 & H1 & ->).
    apply in_run_Cat in H1 as (s3 & H1 & H2).
    apply in_run_Cls in H1 as (c & t & E & Hc & ->).
    apply in_run_Rep in H2 as (k & Hk & ->).
    apply colon_end_members in H as (Ht & ->).
    unfold cap_hi in *. cbn [rest advance pos caps] in *. subst line.
    cbn [skipn] in *.
    destruct (proj1 (run_len_prefix caps_body t k) (proj2 Hk)) as [Hl Hb].
    exists c, (firstn k t), (skipn k t).
    rewrite length_firstn, Nat.min_l by lia.
    split; [exact Hc|]. split; [lia|]. split; [exact Hb|].
    split; [exact Ht|]. rewrite firstn_skipn. split; [reflexivity|].
    replace (0 + 1 + k - 0) with (S k) by lia. cbn [firstn]. f_equal.
    cbn [length]. rewrite length_skipn. lia.
  - intros (c & body & tail & Hc & Hl & Hb & Ht & -> & ->).
    apply in_run_Cat. eexists. split.
    + apply in_run_Grp. eexists. split; [|reflexivity].
      apply in_run_Cat. eexists. split.
      * apply in_run_Cls. exists c, (body ++ tail). auto.
      * apply in_run_Rep. exists (length body). unfold cap_hi.
        cbn [rest advance skipn]. split; [|reflexivity]. split; [lia|].
        apply run_len_prefix. rewrite length_app, firstn_length_app.
        split; [lia | exact Hb].
    + apply colon_end_members. cbn [rest advance pos caps skipn].
      rewrite skipn_length_app. split; [exact Ht|].
      replace (0 + 1 + length body - 0) with (S (length body)) by lia.
      cbn [firstn]. rewrite firstn_length_app. f_equal.
      cbn [length]. rewrite length_app. lia.
Qed.

Lemma boldHeadingRe_shape line :
  is_some (exec boldHeadingRe line) = true <-> bold_shape line = true.
Proof.
  unfold boldHeadingRe at 1. rewrite anchored_matches. fold boldHeadingRe.
  unfold bold_shape. rewrite optional_colon_true. split.
  - intros (st' & H). apply (proj1 (boldHeadingRe_members line st')) in H
      as (x & tail & Hx & Hd & [->| ->] & -> & _).
    + left. apply wrapped_true. exists x. now rewrite app_nil_r.
    + right. exists ([ASTERISK; ASTERISK] ++ x ++ [ASTERISK; ASTERISK]).
      split; [now rewrite <- !app_assoc|]. apply wrapped_true. eauto.
  - intros [H|(b & -> & H)]; apply wrapped_true in H as (x & Hx & Hd & ->);
      eexists; apply boldHeadingRe_members.
    + exists x, []. rewrite app_nil_r. auto 6.
    + exists x, [COLON]. rewrite <- !app_assoc. auto 6.
Qed.

Lemma caps_phrase_true b :
  caps_phrase b = true <->
  exists c body, b = c :: body /\ is_upper c = true /\ 3 <= length body /\
                 forallb caps_body body = true.
Proof.
  destruct b as [|c body]; unfold caps_phrase.
  - split; [discriminate | intros (? & ? & ? & _); discriminate].
  - rewrite !andb_true_iff, Nat.leb_le. split.
    + intros [[H1 H2] H3]. exists c, body. auto.
    + intros (? & ? & E & H1 & H2 & H3). inversion E; subst. auto.
Qed.

Lemma capsHeadingRe_shape line :
  is_some (exec capsHeadingRe line) = true <-> caps_shape line = true.
Proof.
  unfold capsHeadingRe at 1. rewrite anchored_matches. fold capsHeadingRe.
  unfold caps_shape. rewrite optional_colon_true. split.
  - intros (st' & H). apply (proj1 (capsHeadingRe_members line st')) in H
      as (c & body & tail & Hc & Hl & Hb & [->| ->] & -> & _).
    + left. apply caps_phrase_true. exists c, body. now rewrite app_nil_r.
    + right. exists (c :: body). split; [reflexivity|].
      apply caps_phrase_true. exists c, body. auto.
  - intros [H|(b & -> & H)];
      apply caps_phrase_true in H as (c & body & -> & Hc & Hl & Hb);
      eexists; apply capsHeadingRe_members.
    + exists c, body, []. rewrite app_nil_r. auto 7.
    + exists c, body, [COLON]. auto 7.
Qed.

(** ** The first group of a match *)

Lemma anchored_exec_Some r s m :
  exec (Bol ;; r) s = Some m ->
  exists st', In st' (run (Bol ;; r) {| pos := 0; rest := s; caps := [] |}) /\
              groups m = caps st'.
Proof.
  rewrite exec_anchored. intros H.
  apply exec_at_Some in H as (st' & H & ->). eauto.
Qed.

Lemma firstn_nonempty (s : jsstring) d :
  1 <= d <= length s -> firstn d s <> [].
Proof.
  intros H E. apply (f_equal (@length N)) in E.
  rewrite length_firstn in E. simpl in E. lia.
Qed.

Lemma hashRe_group line m :
  exec hashRe line = Some m ->
  exists g, group 1 m = Some g /\ g <> [].
Proof.
  intros H. apply anchored_exec_Some in H as (st' & H & E).
  apply (proj1 (hashRe_members line st')) in H
    as (k & j & d & _ & _ & Hd & ->).
  unfold group. rewrite E. simpl. eexists. split; [reflexivity|].
  apply firstn_nonempty.
  pose proof (run_len_le dot_any (skipn j (skipn k line))). lia.
Qed.

Lemma boldHeadingRe_group line m :
  exec boldHeadingRe line = Some m ->
  exists g, group 1 m = Some g /\ g <> [].
Proof.
  intros H. apply anchored_exec_Some in H as (st' & H & E).
  apply (proj1 (boldHeadingRe_members line st')) in H
    as (x & tail & Hx & _ & _ & _ & ->).
  unfold group. rewrite E. simpl. eauto.
Qed.

Lemma capsHeadingRe_group line m :
  exec capsHeadingRe line = Some m ->
  exists g, group 1 m = Some g /\ g <> [].
Proof.
  intros H. apply anchored_exec_Some in H as (st' & H & E).
  apply (proj1 (capsHeadingRe_members line st')) in H
    as (c & body & tail & _ & _ & _ & _ & _ & ->).
  unfold group. rewrite E. simpl. eexists. split; [reflexivity|].
  discriminate.
Qed.

Lemma bulletRe_group line m :
  exec bulletRe line = Some m -> exists g, group 1 m = Some g.
Proof.
  intros H. apply anchored_exec_Some in H as (st' & H & E).
  apply (proj1 (bulletRe_members line st')) in H
    as (g & t & j & d & _ & _ & _ & _ & ->).
  unfold group. rewrite E. simpl. eauto.
Qed.

(** The heading text is always defined. *)
Lemma heading_source_defined line :
  is_some (exec hashRe line) || is_some (exec boldHeadingRe line)
  || is_some (exec capsHeadingRe line) = true ->
  exists t,
    js_or (opt_group1 (exec hashRe line))
      (js_or (opt_group1 (exec boldHeadingRe line))
         (opt_group1 (exec capsHeadingRe line))) = Some t.
Proof.
  intros H.
  destruct (exec hashRe line) as [m|] eqn:E1.
  { apply hashRe_group in E1 as (g & E & Hg).
    exists g. cbn [opt_group1]. rewrite E.
    destruct g; [congruence | reflexivity]. }
  destruct (exec boldHeadingRe line) as [m|] eqn:E2.
  { apply boldHeadingRe_group in E2 as (g & E & Hg).
    exists g. cbn [opt_group1 js_or]. rewrite E.
    destruct g; [congruence | reflexivity]. }
  destruct (exec capsHeadingRe line) as [m|] eqn:E3; [|discriminate].
  apply capsHeadingRe_group in E3 as (g & E & Hg).
  exists g. cbn [opt_group1 js_or]. rewrite E.
  destruct g; [congruence | reflexivity].
Qed.

(** ** The loop over the lines *)

Lemma typed_lines_app es es' :
  typed_lines (es ++ es') = typed_lines es ++ typed_lines es'.
Proof. apply flat_map_app. Qed.

Lemma flushSection_sectionLines a : sectionLines (flushSection a) = [].
Proof. unfold flushSection. destruct (sectionLines a) eqn:E; auto. Qed.

Lemma flushSection_elements a :
  typed_lines (elements (flushSection a)) = pending a.
Proof.
  unfold flushSection, pending. destruct (sectionLines a) eqn:E.
  - simpl. now rewrite app_nil_r.
  - cbn [elements]. rewrite typed_lines_app. simpl. now rewrite app_nil_r.
Qed.

Lemma pending_flush a : pending (flushSection a) = pending a.
Proof.
  unfold pending at 1.
  now rewrite flushSection_sectionLines, flushSection_elements, app_nil_r.
Qed.

Lemma pending_heading t a :
  pending (push_element (Heading t) (flushSection a)) =
  pending a ++ [ {| tl_kind := KHeading; tl_shown := Text t |} ].
Proof.
  unfold pending at 1, push_element. cbn [elements sectionLines].
  rewrite flushSection_sectionLines, typed_lines_app, flushSection_elements.
  simpl. now rewrite app_nil_r.
Qed.

Lemma pending_section_line l a :
  pending (push_section_line l a) = pending a ++ [of_section_line l].
Proof.
  unfold pending, push_section_line. cbn [elements sectionLines].
  now rewrite map_app, app_assoc.
Qed.

Lemma pending_line c a :
  sectionLines a = [] ->
  pending (push_element (Line c) a) =
  pending a ++ [ {| tl_kind := KPlain; tl_shown := c |} ].
Proof.
  intros E. unfold pending, push_element. cbn [elements sectionLines].
  rewrite E, typed_lines_app. simpl. now rewrite !app_nil_r.
Qed.

(** The branch the callback takes on a line that is not blank, read off
    the typed line it adds. *)
Lemma on_line_cases a raw :
  trim raw <> [] ->
  exists tl,
    on_line a raw <> TypeError /\
    (forall a', on_line a raw = Ok a' -> pending a' = pending a ++ [tl]) /\
    ( (heading_found (trim raw) = true /\
       exists t, heading_source (trim raw) = Some t /\
                 tl = {| tl_kind := KHeading;
                         tl_shown := Text (trim (strip_stars t)) |})
      \/ (heading_found (trim raw) = false /\
          is_some (exec bulletRe (trim raw)) = true /\
          exists m, exec bulletRe (trim raw) = Some m /\
                    tl = {| tl_kind := KBullet;
                            tl_shown := renderInline (to_group1 m) |})
      \/ (heading_found (trim raw) = false /\
          is_some (exec bulletRe (trim raw)) = false /\
          is_some (exec numberedRe (trim raw)) = true /\
          tl = {| tl_kind := KNumbered;
                  tl_shown := renderInline (trim raw) |})
      \/ (heading_found (trim raw) = false /\
          is_some (exec bulletRe (trim raw)) = false /\
          is_some (exec numberedRe (trim raw)) = false /\
          tl = {| tl_kind := KPlain;
                  tl_shown := renderInline (trim raw) |}) ).
Proof.
  intros Hne. unfold on_line, heading_found, heading_source.
  destruct (trim raw) as [|c t] eqn:El; [congruence|].
  set (line := c :: t) in *.
  destruct (is_some (exec hashRe line) || is_some (exec boldHeadingRe line)
            || is_some (exec capsHeadingRe line)) eqn:Hh.
  - destruct (heading_source_defined line Hh) as (t' & ->).
    eexists. split; [discriminate|]. split.
    + intros a' E. inversion E; subst. apply pending_heading.
    + left. split; [reflexivity|]. exists t'. split; reflexivity.
  - destruct (exec bulletRe line) as [m|] eqn:Eb.
    + destruct (bulletRe_group _ Eb) as (g & Eg). rewrite Eg.
      eexists. split; [discriminate|]. split.
      * intros a' E. inversion E; subst. apply pending_section_line.
      * right; left. split; [reflexivity|]. split; [reflexivity|].
        exists m. split; [reflexivity|]. unfold to_group1. now rewrite Eg.
    + destruct (is_some (exec numberedRe line)) eqn:En.
      * eexists. split; [discriminate|]. split.
        -- intros a' E. inversion E; subst. apply pending_section_line.
        -- right; right; left. auto.
      * exists {| tl_kind := KPlain; tl_shown := renderInline line |}.
        destruct (sectionLines a) eqn:Es.
        -- split; [discriminate|]. split.
           ++ intros a' E. inversion E; subst. now apply pending_line.
           ++ right; right; right. auto.
        -- split; [discriminate|]. split.
           ++ intros a' E. inversion E; subst. apply pending_section_line.
           ++ right; right; right. auto.
Qed.

Lemma on_line_blank a raw :
  trim raw = [] -> on_line a raw = Ok (flushSection a).
Proof. intros E. unfold on_line. now rewrite E. Qed.

(** A line adds to any accumulator what it adds to the empty one. *)
Lemma on_line_pending a raw :
  exists a', on_line a raw = Ok a' /\ pending a' = pending a ++ alone raw.
Proof.
  unfold alone. destruct (trim raw) as [|c t] eqn:El.
  - rewrite !on_line_blank by exact El. eexists. split; [reflexivity|].
    rewrite !pending_flush. simpl. now rewrite app_nil_r.
  - assert (Hne : trim raw <> []) by congruence.
    destruct (on_line_cases a raw Hne) as (tl & Hok & Hp & Hk).
    destruct (on_line_cases empty_acc raw Hne) as (tl0 & Hok0 & Hp0 & Hk0).
    assert (tl0 = tl) as ->.
    { destruct Hk as [(H1 & u & E & ->)|[(H1 & H2 & m & E & ->)
                     |[(H1 & H2 & H3 & ->)|(H1 & H2 & H3 & ->)]]];
      destruct Hk0 as [(G1 & u0 & E0 & ->)|[(G1 & G2 & m0 & E0 & ->)
                     |[(G1 & G2 & G3 & ->)|(G1 & G2 & G3 & ->)]]];
      congruence. }
    destruct (on_line a raw) as [a'|]; [|congruence].
    destruct (on_line empty_acc raw) as [a0|]; [|congruence].
    exists a'. split; [reflexivity|].
    rewrite (Hp a' eq_refl), (Hp0 a0 eq_refl). reflexivity.
Qed.

Lemma forEach_pending : forall rawLines a,
  exists a', forEach a rawLines = Ok a' /\
             pending a' = pending a ++ flat_map alone rawLines.
Proof.
  induction rawLines as [|raw more IH]; intros a; simpl.
  - exists a. now rewrite app_nil_r.
  - destruct (on_line_pending a raw) as (a1 & -> & P1). simpl.
    destruct (IH a1) as (a' & -> & P'). exists a'. split; [reflexivity|].
    now rewrite P', P1, app_assoc.
Qed.

Lemma alone_blank raw : trim raw = [] -> alone raw = [].
Proof.
  intros E. unfold alone. rewrite on_line_blank by exact E. reflexivity.
Qed.

Lemma alone_single raw : trim raw <> [] -> exists tl, alone raw = [tl].
Proof.
  intros Hne. unfold alone.
  destruct (on_line_cases empty_acc raw Hne) as (tl & Hok & Hp & _).
  destruct (on_line empty_acc raw) as [a|]; [|congruence].
  exists tl. now rewrite (Hp a eq_refl).
Qed.

Lemma alone_length raw :
  length (alone raw) = if nonempty (trim raw) then 1 else 0.
Proof.
  destruct (trim raw) as [|c t] eqn:E.
  - now rewrite alone_blank.
  - destruct (alone_single raw) as (tl & ->); [congruence | reflexivity].
Qed.

Lemma flat_map_alone_length rawLines :
  length (flat_map alone rawLines) =
  length (filter (fun raw => nonempty (trim raw)) rawLines).
Proof.
  induction rawLines as [|raw more IH]; simpl; [reflexivity|].
  rewrite length_app, alone_length, IH.
  destruct (nonempty (trim raw)); reflexivity.
Qed.

(** The typed lines of the output, section blocks opened up, follow the
    lines of the content in order, each blank line giving none and each
    other line giving exactly one heading, bullet, numbered or plain
    line. *)
Lemma generic_every_line_once (c : option jsstring) (time : jsstring) :
  let msg := {| msg_role := Assistant; msg_content := c; msg_time := time |} in
  let rawLines := split_lf (content_or_empty msg) in
  exists es,
    renderMessageContent msg = Ok (Elements es) /\
    typed_lines es = flat_map alone rawLines /\
    (forall raw, In raw rawLines ->
       (trim raw = [] -> alone raw = []) /\
       (trim raw <> [] -> exists tl, alone raw = [tl])) /\
    length (typed_lines es) =
    length (filter (fun raw => nonempty (trim raw)) rawLines).
Proof.
  intros msg rawLines. unfold renderMessageContent. cbn [msg_role msg].
  fold rawLines.
  destruct (forEach_pending rawLines {| elements := []; sectionLines := [] |})
    as (a & -> & P).
  exists (elements (flushSection a)). cbn [bind]. split; [reflexivity|].
  assert (T : typed_lines (elements (flushSection a)) = flat_map alone rawLines).
  { rewrite flushSection_elements, P. reflexivity. }
  split; [exact T|]. split.
  - intros raw _. split; [apply alone_blank | apply alone_single].
  - rewrite T. apply flat_map_alone_length.
Qed.


(** ** The first match of some constructs *)

Lemma run_Bol_Cat r s :
  run (Bol ;; r) {| pos := 0; rest := s; caps := [] |} =
  run r {| pos := 0; rest := s; caps := [] |}.
Proof. simpl. apply app_nil_r. Qed.

Lemma run_Cls_Cat p r i c t cs :
  p c = true ->
  run (Cls p ;; r) {| pos := i; rest := c :: t; caps := cs |} =
  run r {| pos := i + 1; rest := t; caps := cs |}.
Proof. intros H. simpl. rewrite H. simpl. apply app_nil_r. Qed.




(** ** The tests exclude one another *)

Lemma bool_eq_iff (a b : bool) : (a = true <-> b = true) -> a = b.
Proof.
  destruct a, b; intros [H1 H2]; auto.
  - symmetry. auto.
Qed.

Lemma hashRe_first line :
  is_some (exec hashRe line) = true -> exists t, line = HASH :: t.
Proof.
  unfold hashRe at 1. rewrite anchored_matches. intros (st' & H).
  apply (proj1 (hashRe_members line st')) in H as (k & _ & _ & Hk & _).
  destruct (run_len_inside (is_char HASH) line (k := 0)) as (c & t & E & Hc).
  - pose proof (Nat.le_min_r 4 (run_len (is_char HASH) line)). lia.
  - simpl in E. apply is_char_eq in Hc. subst. eauto.
Qed.

Lemma boldHeadingRe_first line :
  is_some (exec boldHeadingRe line) = true ->
  exists t, line = ASTERISK :: ASTERISK :: t.
Proof.
  unfold boldHeadingRe at 1. rewrite anchored_matches. intros (st' & H).
  apply (proj1 (boldHeadingRe_members line st')) in H
    as (x & tail & _ & _ & _ & -> & _). simpl. eauto.
Qed.

Lemma capsHeadingRe_first line :
  is_some (exec capsHeadingRe line) = true ->
  exists c t, line = c :: t /\ is_upper c = true.
Proof.
  unfold capsHeadingRe at 1. rewrite anchored_matches. intros (st' & H).
  apply (proj1 (capsHeadingRe_members line st')) in H
    as (c & body & tail & Hc & _ & _ & _ & -> & _). eauto.
Qed.

Lemma bulletRe_first line :
  is_some (exec bulletRe line) = true ->
  exists g w t, line = g :: w :: t /\ bullet_glyph g = true /\
                isWhiteSpace w = true.
Proof.
  unfold bulletRe at 1. rewrite anchored_matches. intros (st' & H).
  apply (proj1 (bulletRe_members line st')) in H
    as (g & t & j & d & -> & Hg & Hj & _).
  destruct (run_len_inside isWhiteSpace t (k := 0)) as (w & t' & E & Hw);
    [lia|]. simpl in E. subst. eauto 6.
Qed.

Lemma numbered_shape_first line :
  numbered_shape line = true -> exists d t, line = d :: t /\ is_digit d = true.
Proof.
  unfold numbered_shape. rewrite andb_true_iff, Nat.leb_le. intros [H _].
  destruct (run_len_inside is_digit line (k := 0)) as (d & t & E & Hd);
    [lia|]. simpl in E. eauto.
Qed.

Ltac classes :=
  unfold bullet_glyph, dot_or_paren, is_char, is_digit, is_upper, between,
    HASH, ASTERISK, BULLET, DASH, DOT, RPAREN, COLON in *;
  repeat match goal with
         | H : _ && _ = true |- _ => apply andb_true_iff in H as [? ?]
         | H : _ || _ = true |- _ => apply orb_true_iff in H as [?|?]
         | H : N.eqb _ _ = true |- _ => apply N.eqb_eq in H
         | H : N.leb _ _ = true |- _ => apply N.leb_le in H
         end;
  subst; try discriminate; try lia.

Lemma heading_found_first line :
  heading_found line = true ->
  exists c t, line = c :: t /\
    (c = HASH \/ is_upper c = true
     \/ (c = ASTERISK /\ exists t', t = ASTERISK :: t')).
Proof.
  unfold heading_found. rewrite !orb_true_iff. intros [[H|H]|H].
  - apply hashRe_first in H as (t & ->). exists HASH, t. auto.
  - apply boldHeadingRe_first in H as (t & ->).
    exists ASTERISK, (ASTERISK :: t). split; [reflexivity|].
    right; right. split; [reflexivity|]. now exists t.
  - apply capsHeadingRe_first in H as (c & t & -> & Hc). exists c, t. auto.
Qed.

Lemma bullet_not_heading line :
  is_some (exec bulletRe line) = true -> heading_found line = false.
Proof.
  intros H. apply bulletRe_first in H as (g & w & t & -> & Hg & Hw).
  apply not_true_is_false. intros Hh.
  apply heading_found_first in Hh as (c & t0 & E & Hc). inversion E; subst.
  destruct Hc as [->|[Hc|(-> & t' & Et)]].
  - classes.
  - classes.
  - inversion Et; subst. discriminate.
Qed.

Lemma numbered_not_heading line :
  numbered_shape line = true -> heading_found line = false.
Proof.
  intros H. apply numbered_shape_first in H as (d & t & -> & Hd).
  apply not_true_is_false. intros Hh.
  apply heading_found_first in Hh as (c & t0 & E & Hc). inversion E; subst.
  destruct Hc as [->|[Hc|(-> & _)]]; classes.
Qed.

Lemma numbered_not_bullet line :
  numbered_shape line = true -> is_some (exec bulletRe line) = false.
Proof.
  intros H. apply numbered_shape_first in H as (d & t & -> & Hd).
  apply not_true_is_false. intros Hb.
  apply bulletRe_first in Hb as (g & w & t' & E & Hg & _). inversion E; subst.
  classes.
Qed.

Lemma heading_found_shape raw :
  heading_found (trim raw) =
  hash_shape (trim raw) || bold_shape (trim raw) || caps_shape (trim raw).
Proof.
  unfold heading_found.
  rewrite (bool_eq_iff (hashRe_shape raw)),
          (bool_eq_iff (boldHeadingRe_shape (trim raw))),
          (bool_eq_iff (capsHeadingRe_shape (trim raw))).
  reflexivity.
Qed.

(** C4, as amended.  A line that is not blank, once trimmed, is a heading
    exactly when it begins with one to four [#] followed by white space,
    or is a non-empty text free of line terminators between two pairs
    of asterisks with an optional final colon, or is an upper-case letter
    followed by at least three code units that are upper-case letters,
    white space or [&], with an optional final colon (four characters, not
    four letters).  It is a bullet exactly when a glyph among U+2022, [-]
    and [*] is followed by white space, a numbered line exactly when
    digits are followed by [.] or [)] and white space, and plain in every
    other case. *)
Theorem classification_of_lines (raw : jsstring) :
  trim raw <> [] ->
  let line := trim raw in
  exists tl,
    alone raw = [tl] /\
    (tl_kind tl = KHeading <->
       hash_shape line = true \/ bold_shape line = true
       \/ caps_shape line = true) /\
    (tl_kind tl = KBullet <-> bullet_shape line = true) /\
    (tl_kind tl = KNumbered <-> numbered_shape line = true) /\
    (tl_kind tl = KPlain <->
       hash_shape line = false /\ bold_shape line = false /\
       caps_shape line = false /\ bullet_shape line = false /\
       numbered_shape line = false).
Proof.
  intros Hne line.
  destruct (on_line_cases empty_acc raw Hne) as (tl & Hok & Hp & Hk).
  exists tl. split.
  { unfold alone. destruct (on_line empty_acc raw) as [a|]; [|congruence].
    now rewrite (Hp a eq_refl). }
  fold line in Hk.
  assert (Hb := bool_eq_iff (bulletRe_shape raw)).
  assert (Hn := bool_eq_iff (numberedRe_shape raw)).
  assert (Hh := heading_found_shape raw).
  assert (Xb := bullet_not_heading line).
  assert (Xn := numbered_not_heading line).
  assert (Xnb := numbered_not_bullet line).
  fold line in Hb, Hn, Hh. rewrite Hb in *. rewrite Hn in *.
  rewrite Hh in *. clear Hb Hn Hh Hok Hp.
  destruct (hash_shape line), (bold_shape line), (caps_shape line),
    (bullet_shape line), (numbered_shape line);
    simpl in *;
    try (specialize (Xb eq_refl)); try (specialize (Xn eq_refl));
    try (specialize (Xnb eq_refl)); try discriminate;
    destruct Hk as [(H1 & u & E & ->)|[(H1 & H2 & m & E & ->)
                   |[(H1 & H2 & H3 & ->)|(H1 & H2 & H3 & ->)]]];
    try discriminate; simpl;
    repeat split; intros; try discriminate; auto;
    repeat match goal with
           | H : _ \/ _ |- _ => destruct H
           | H : _ /\ _ |- _ => destruct H
           end; try discriminate.
Qed.

Lemma classification_of_lines_witness :
  exists tl,
    alone (js "- Walk daily") = [tl] /\ tl_kind tl = KBullet.
Proof.
  destruct (@classification_of_lines (js "- Walk daily"))
    as (tl & E & _ & Hb & _); [vm_compute; discriminate|].
  exists tl. split; [exact E|]. apply Hb. reflexivity.
Defined.

(** C4, as stated, fails: a line in capitals with fewer than four letters
    is a heading. *)
Lemma short_caps_heading :
  (alone (js "Q & A") =
     [ {| tl_kind := KHeading; tl_shown := Text (js "Q & A") |} ]
   /\ spec_heading (trim (js "Q & A")) = false)
  /\
  (alone (js "AB C:") =
     [ {| tl_kind := KHeading; tl_shown := Text (js "AB C") |} ]
   /\ spec_heading (trim (js "AB C:")) = false).
Proof. repeat split; vm_compute; reflexivity. Qed.

(** ** Inline emphasis *)

(** A match of [boldRe] is never empty. *)
Lemma boldRe_whole s m : exec boldRe s = Some m -> 1 <= length (whole m).
Proof.
  unfold exec. intros H.
  apply search_Some in H as (j & Hj & _ & H).
  apply exec_at_Some in H as (st' & H & ->). cbn [whole].
  unfold boldRe in H. apply in_run_Cat in H as (st1 & H1 & H2).
  apply in_run_Cls in H1 as (c & t & E & _ & ->).
  apply run_consumes in H2 as (k & Hk & Hp & _).
  cbn [rest pos advance] in *. rewrite E in *. cbn [skipn length] in *.
  rewrite Hp, length_firstn. cbn [length]. lia.
Qed.

(** The loop of [renderInline] ends before its fuel does: any fuel that
    covers the text gives the same spans. *)
Lemma inline_loop_fuel : forall n m remaining parts,
  length remaining <= n -> length remaining <= m ->
  inline_loop n remaining parts = inline_loop m remaining parts.
Proof.
  induction n as [|n IH]; intros m remaining parts Hn Hm.
  - destruct remaining; [|simpl in Hn; lia]. destruct m; reflexivity.
  - destruct m as [|m].
    + destruct remaining; [reflexivity | simpl in Hm; lia].
    + cbn [inline_loop]. destruct remaining as [|c t]; [reflexivity|].
      destruct (exec boldRe (c :: t)) as [bm|] eqn:E; [|reflexivity].
      apply boldRe_whole in E.
      apply IH; unfold substring_from; rewrite length_skipn;
        simpl length in *; lia.
Qed.

(** C3, at the failing input.  The text before an emphasized span is
    shown as it is, with its asterisk; so is an asterisk inside the
    span. *)
Theorem asterisk_before_bold_shown :
  renderMessageContent (assistant (js "2 * 3 = **6**")) =
    Ok (Elements
          [ Line (Parts [ {| bold := false; span_text := js "2 * 3 = " |};
                          {| bold := true; span_text := js "6" |} ]) ])
  /\ In ASTERISK (js "2 * 3 = ")
  /\ renderInline (js "see ***a**") =
       Parts [ {| bold := false; span_text := js "see " |};
               {| bold := true; span_text := js "*a" |} ].
Proof.
  split; [vm_compute; reflexivity|].
  split; [vm_compute; tauto | vm_compute; reflexivity].
Qed.

(** ** What inline formatting keeps *)

Lemma exec_at_starsRe i s :
  exec_at starsRe i s =
  match run_len (is_char ASTERISK) s with
  | 0 => None
  | S n =>
      Some {| index := i; whole := firstn (S n) s; groups := [];
              after := skipn (S n) s |}
  end.
Proof.
  unfold exec_at, starsRe. cbn [run cap_hi rest].
  destruct (run_len (is_char ASTERISK) s) as [|n] eqn:E.
  - reflexivity.
  - rewrite counts_greedy by lia. cbn [map advance pos rest caps].
    now replace (i + S n - i) with (S n) by lia.
Qed.

(** [replace(/\*+/g, '')] removes the asterisks and nothing else. *)
Lemma replace_stars_filter : forall s skip i,
  skip <= length s ->
  forallb (is_char ASTERISK) (firstn skip s) = true ->
  replace_from starsRe to_empty skip i s = filter not_asterisk s.
Proof.
  induction s as [|c s IH]; intros skip i Hl Hs.
  - destruct skip; [|simpl in Hl; lia]. reflexivity.
  - destruct skip as [|k].
    + cbn [replace_from]. rewrite exec_at_starsRe. cbn [run_len filter].
      unfold not_asterisk at 1.
      destruct (is_char ASTERISK c) eqn:Hc; cbn [negb].
      * cbn [to_empty app whole]. rewrite length_firstn.
        pose proof (run_len_le (is_char ASTERISK) s).
        cbn [length]. rewrite Nat.min_l by lia.
        apply IH; [lia|]. apply run_len_split.
      * f_equal. apply IH; [lia | reflexivity].
    + cbn [replace_from filter]. cbn [firstn forallb] in Hs.
      apply andb_true_iff in Hs as [Hc Hs]. unfold not_asterisk at 1.
      rewrite Hc. cbn [negb]. apply IH; [simpl in Hl; lia | exact Hs].
Qed.

Lemma strip_stars_filter t : strip_stars t = filter not_asterisk t.
Proof.
  unfold strip_stars, replace_g. apply replace_stars_filter;
    [lia | reflexivity].
Qed.

Lemma filter_filter {A : Type} (f : A -> bool) (l : list A) :
  filter f (filter f l) = filter f l.
Proof.
  induction l as [|x l IH]; simpl; [reflexivity|].
  destruct (f x) eqn:E; simpl; [rewrite E|]; now rewrite IH.
Qed.

(** A match of [boldRe]: two asterisks, the captured text, two
    asterisks. *)
Lemma boldRe_members i s st' :
  In st' (run boldRe {| pos := i; rest := s; caps := [] |}) ->
  exists x t2,
    x <> [] /\ forallb dot_any x = true /\
    s = [ASTERISK; ASTERISK] ++ x ++ [ASTERISK; ASTERISK] ++ t2 /\
    st' = {| pos := i + (4 + length x); rest := t2; caps := [(1, x)] |}.
Proof.
  unfold boldRe. intros H.
  apply in_run_Cat in H as (s1 & H1 & H).
  apply in_run_Cls in H1 as (a1 & t1 & E1 & A1 & ->).
  apply in_run_Cat in H as (s2 & H2 & H).
  apply in_run_Cls in H2 as (a2 & t & E2 & A2 & ->).
  apply in_run_Cat in H as (s3 & H3 & H).
  apply in_run_Grp in H3 as (s3' & H3 & ->).
  apply in_run_Rep in H3 as (k & Hk & ->).
  apply in_run_Cat in H as (s4 & H4 & H).
  apply in_run_Cls in H4 as (z1 & u1 & E4 & Z1 & ->).
  apply in_run_Cls in H as (z2 & t2 & E5 & Z2 & ->).
  unfold cap_hi in *. cbn [rest advance pos caps] in *.
  subst s. cbn [skipn] in *. rewrite E2 in *. cbn [skipn] in *.
  rewrite E4 in *. cbn [skipn] in *. subst u1.
  apply is_char_eq in A1, A2, Z1, Z2. subst a1 a2 z1 z2.
  destruct (proj1 (run_len_prefix dot_any t k) (proj2 Hk)) as [Hl Hd].
  assert (Et : t = firstn k t ++ ASTERISK :: ASTERISK :: t2).
  { rewrite <- E4. symmetry. apply firstn_skipn. }
  assert (Lk : length (firstn k t) = k)
    by (rewrite length_firstn; lia).
  exists (firstn k t), t2. split; [|split; [exact Hd|split]].
  - intros E. rewrite E in Lk. simpl in Lk. lia.
  - cbn [app]. now rewrite <- Et.
  - rewrite Lk.
    replace (i + 1 + 1 + k - (i + 1 + 1)) with k by lia.
    unfold advance. cbn [pos rest caps skipn]. f_equal. lia.
Qed.

Lemma boldRe_decompose s m :
  exec boldRe s = Some m ->
  exists x,
    to_group1 m = x /\
    s = substring_to (index m) s ++ [ASTERISK; ASTERISK] ++ x
        ++ [ASTERISK; ASTERISK]
        ++ substring_from (index m + length (whole m)) s.
Proof.
  unfold exec. intros H.
  apply search_Some in H as (j & Hj & Hi & H). simpl in Hi.
  apply exec_at_Some in H as (st' & H & ->).
  apply boldRe_members in H as (x & t2 & Hx & _ & Es & ->).
  exists x. split; [reflexivity|]. cbn [index whole pos].
  unfold substring_to, substring_from.
  replace (0 + j) with j by lia.
  replace (j + (4 + length x) - j) with (4 + length x) by lia.
  assert (Lw : length (firstn (4 + length x) (skipn j s)) = 4 + length x).
  { rewrite Es, length_firstn, !length_app. cbn [length]. lia. }
  rewrite Lw.
  assert (Ea : skipn (j + (4 + length x)) s = t2).
  { rewrite Nat.add_comm, <- skipn_skipn, Es. cbn [app].
    replace (4 + length x) with (S (S (length x + 2))) by lia.
    cbn [skipn]. rewrite skipn_app, skipn_all2 by lia.
    replace (length x + 2 - length x) with 2 by lia. reflexivity. }
  rewrite Ea, <- Es. symmetry. apply firstn_skipn.
Qed.

Lemma filter_two_asterisks l :
  filter not_asterisk ([ASTERISK; ASTERISK] ++ l) = filter not_asterisk l.
Proof. reflexivity. Qed.

Lemma spans_text_snoc ps b t :
  spans_text (ps ++ [ {| bold := b; span_text := t |} ]) = spans_text ps ++ t.
Proof.
  unfold spans_text. rewrite flat_map_app. simpl. now rewrite app_nil_r.
Qed.

Lemma inline_loop_keeps : forall n remaining parts,
  length remaining <= n ->
  filter not_asterisk (spans_text (inline_loop n remaining parts)) =
  filter not_asterisk (spans_text parts ++ remaining).
Proof.
  induction n as [|n IH]; intros remaining parts Hn.
  - destruct remaining; [|simpl in Hn; lia]. simpl. now rewrite app_nil_r.
  - cbn [inline_loop]. destruct remaining as [|c t];
      [now rewrite app_nil_r|].
    set (rem := c :: t) in *.
    destruct (exec boldRe rem) as [bm|] eqn:E.
    + pose proof (boldRe_whole _ E) as Hw.
      destruct (boldRe_decompose _ E) as (x & Ex & Er).
      assert (Hlen : length (substring_from
                               (index bm + length (whole bm)) rem) <= n)
        by (unfold substring_from; rewrite length_skipn; lia).
      remember (substring_to (index bm) rem) as before eqn:Eb.
      remember (substring_from (index bm + length (whole bm)) rem)
        as later eqn:El.
      rewrite (IH later _ Hlen), spans_text_snoc, Ex.
      assert (Hb : spans_text
                     (if nonempty before
                      then parts ++ [ {| bold := false; span_text := before |} ]
                      else parts)
                   = spans_text parts ++ before).
      { destruct before; cbn [nonempty].
        - now rewrite app_nil_r.
        - apply spans_text_snoc. }
      rewrite Hb, Er.
      rewrite <- !app_assoc, !(filter_app _ (spans_text parts)).
      rewrite !(filter_app _ before).
      rewrite filter_two_asterisks, !(filter_app _ x), filter_two_asterisks.
      reflexivity.
    + rewrite strip_stars_filter.
      destruct (filter not_asterisk rem) as [|y ys] eqn:Ef; cbn [nonempty].
      * rewrite filter_app, Ef. now rewrite app_nil_r.
      * rewrite spans_text_snoc, !filter_app, <- Ef. now rewrite filter_filter.
Qed.

(** Inline formatting removes asterisks and nothing else: what a line
    shows, asterisks apart, is its text, asterisks apart. *)
Lemma renderInline_keeps_text text :
  filter not_asterisk (shown_text (renderInline text)) =
  filter not_asterisk text.
Proof.
  unfold renderInline.
  pose proof (@inline_loop_keeps (length text) text [] (le_n _)) as H.
  destruct (inline_loop (length text) text []) as [|p ps]; cbn [shown_text].
  - rewrite strip_stars_filter. apply filter_filter.
  - exact H.
Qed.

(** A plain or numbered line shows its own text, asterisks apart. *)
Lemma plain_numbered_text_kept raw tl :
  alone raw = [tl] -> tl_kind tl = KPlain \/ tl_kind tl = KNumbered ->
  filter not_asterisk (shown_text (tl_shown tl)) =
  filter not_asterisk (trim raw).
Proof.
  intros Ea Hk.
  assert (Hne : trim raw <> []).
  { intros E. rewrite (alone_blank raw E) in Ea. discriminate. }
  destruct (on_line_cases empty_acc raw Hne) as (tl0 & Hok & Hp & Hc).
  assert (tl0 = tl) as ->.
  { unfold alone in Ea. destruct (on_line empty_acc raw) as [a|];
      [|congruence]. rewrite (Hp a eq_refl) in Ea. simpl in Ea. congruence. }
  destruct Hc as [(_ & u & _ & ->)|[(_ & _ & m & _ & ->)
                 |[(_ & _ & _ & ->)|(_ & _ & _ & ->)]]];
    cbn [tl_kind tl_shown] in *;
    try (destruct Hk; discriminate); apply renderInline_keeps_text.
Qed.

(** ** What a bullet and a numbered line show *)









(** ** Line terminators inside a line *)

(** C2, at the failing input.  The content is split at line feeds only,
    while the [.] of the bullet and heading expressions stops at every
    line terminator: of a bullet line and of a heading line that hold a
    carriage return or a line separator, only the text before it is shown,
    and the rest of the line appears in no element.  A numbered line and a
    plain line with the same carriage return are shown whole.  Every line
    that is not blank does give exactly one heading, bullet, numbered or
    plain line. *)
Theorem text_after_terminator_dropped :
  renderMessageContent
    (assistant (js "- Walk daily" ++ [13%N] ++ js "- Sleep well")) =
    Ok (Elements
          [ SectionBlock
              [ {| cls := MsgBullet;
                   content :=
                     Parts [ {| bold := false;
                                span_text := js "Walk daily" |} ] |} ] ])
  /\ renderMessageContent
       (assistant (js "## Plan" ++ [8232%N] ++ js "Walk daily")) =
       Ok (Elements [ Heading (js "Plan") ])
  /\ renderMessageContent
       (assistant (js "1. Walk daily" ++ [13%N] ++ js "2. Sleep well")) =
       Ok (Elements
             [ SectionBlock
                 [ {| cls := MsgNumbered;
                      content :=
                        Parts [ {| bold := false;
                                   span_text :=
                                     js "1. Walk daily" ++ [13%N]
                                     ++ js "2. Sleep well" |} ] |} ] ])
  /\ renderMessageContent
       (assistant (js "Walk daily" ++ [13%N] ++ js "Sleep well")) =
       Ok (Elements
             [ Line (Parts [ {| bold := false;
                                span_text :=
                                  js "Walk daily" ++ [13%N]
                                  ++ js "Sleep well" |} ]) ])
  /\ (forall (c : option jsstring) (time : jsstring),
        let msg :=
          {| msg_role := Assistant; msg_content := c; msg_time := time |} in
        exists es,
          renderMessageContent msg = Ok (Elements es) /\
          length (typed_lines es) =
          length (filter (fun raw => nonempty (trim raw))
                    (split_lf (content_or_empty msg)))).
Proof.
  split; [vm_compute; reflexivity|].
  split; [vm_compute; reflexivity|].
  split; [vm_compute; reflexivity|].
  split; [vm_compute; reflexivity|].
  intros c time msg.
  destruct (generic_every_line_once c time) as (es & E & _ & _ & L).
  exists es. split; [exact E | exact L].
Qed.

End GenericFacts.

(* ===================================================================== *)
(** * Facts about the template formatter *)
(* ===================================================================== *)

Module SlidesFacts.
Import Slides SlidesView.

Lemma filter_length_sum {A : Type} (f : A -> bool) (l : list A) :
  length (filter f l) = list_sum (map (fun x => b2n (f x)) l).
Proof.
  induction l as [|x l IH]; simpl; [reflexivity|].
  destruct (f x); simpl; now rewrite IH.
Qed.

Lemma list_sum_add {A : Type} (f g : A -> nat) (l : list A) :
  list_sum (map (fun x => f x + g x) l) =
  list_sum (map f l) + list_sum (map g l).
Proof. induction l as [|x l IH]; simpl; [reflexivity|]. rewrite IH. lia. Qed.

(** Counting the pairs of a line and a marker it contains, by lines or
    by markers. *)
Lemma double_count {A B : Type} (rel : B -> A -> bool)
      (xs : list A) (ds : list B) :
  list_sum (map (fun x => length (filter (fun d => rel d x) ds)) xs) =
  list_sum (map (fun d => length (filter (rel d) xs)) ds).
Proof.
  induction xs as [|x xs IH]; simpl.
  - induction ds as [|d ds IHd]; simpl; auto.
  - rewrite IH, filter_length_sum.
    rewrite <- list_sum_add. f_equal. apply map_ext. intros d.
    destruct (rel d x); reflexivity.
Qed.

Lemma count_once {A : Type} (f : A -> bool) (l : list A) :
  length (filter f l) <= 1 -> length (filter f l) = b2n (existsb f l).
Proof.
  induction l as [|x l IH]; simpl; [reflexivity|].
  destruct (f x); simpl; [|exact IH].
  intros H. f_equal. lia.
Qed.

Lemma filter_length_zero {A : Type} (f : A -> bool) (l : list A) :
  length (filter f l) = 0 <-> forall x, In x l -> f x = false.
Proof.
  induction l as [|x l IH]; simpl.
  - split; [intros _ ? [] | reflexivity].
  - destruct (f x) eqn:Hx; simpl.
    + split; [discriminate|]. intros H. specialize (H x (or_introl eq_refl)).
      congruence.
    + rewrite IH. split.
      * intros H y [<-|Hy]; auto.
      * intros H y Hy. apply H. now right.
Qed.

Lemma list_sum_zero {A : Type} (f : A -> nat) (l : list A) :
  list_sum (map f l) = 0 <-> forall x, In x l -> f x = 0.
Proof.
  induction l as [|x l IH]; simpl.
  - split; [intros _ ? [] | reflexivity].
  - split.
    + intros H y [<-|Hy]; [lia|]. apply IH; [lia | exact Hy].
    + intros H. rewrite (H x (or_introl eq_refl)). simpl.
      apply IH. intros y Hy. apply H. now right.
Qed.

Lemma existsb_filter_zero {A : Type} (f : A -> bool) (l : list A) :
  existsb f l = false <-> length (filter f l) = 0.
Proof.
  induction l as [|x l IH]; simpl; [tauto|].
  destruct (f x); simpl; [split; discriminate | exact IH].
Qed.

Lemma on_current_length f ss : length (on_current f ss) = length ss.
Proof.
  induction ss as [|s [|s' more] IH]; simpl in *; auto.
Qed.

Section WithRuntime.

Variable toLowerCase : jsstring -> jsstring.

Lemma find_header_mentions line :
  match find_header toLowerCase line with
  | Some _ => true
  | None => false
  end = mentions_marker toLowerCase line.
Proof.
  unfold find_header, mentions_marker, sectionDefs. cbn [find def_match].
  destruct (includes (js "understanding your results") (toLowerCase line));
    [reflexivity|].
  destruct (includes (js "your personalized action plan") (toLowerCase line));
    [reflexivity|].
  destruct (includes (js "monitoring your progress") (toLowerCase line));
    [reflexivity|].
  destruct (includes (js "when to see your doctor") (toLowerCase line));
    reflexivity.
Qed.

Lemma mentions_marker_hits line :
  mentions_marker toLowerCase line = (1 <=? hits toLowerCase line).
Proof.
  unfold mentions_marker, hits, mentions, sectionDefs.
  cbn [filter def_match].
  destruct (includes (js "understanding your results") (toLowerCase line));
  destruct (includes (js "your personalized action plan") (toLowerCase line));
  destruct (includes (js "monitoring your progress") (toLowerCase line));
  destruct (includes (js "when to see your doctor") (toLowerCase line));
  reflexivity.
Qed.

(** Each line that contains a marker opens one section; no other line
    opens or closes any. *)
Lemma on_line_length ss line :
  length (on_line toLowerCase ss line) =
  length ss + b2n (mentions_marker toLowerCase line).
Proof.
  unfold on_line. rewrite <- find_header_mentions.
  destruct (find_header toLowerCase line).
  - rewrite length_app. reflexivity.
  - simpl b2n. rewrite Nat.add_0_r. destruct ss as [|s more]; [reflexivity|].
    destruct (startsWith [BULLET] line || startsWith [DASH] line);
      apply on_current_length.
Qed.

Lemma fold_on_line_length lines : forall ss,
  length (fold_left (on_line toLowerCase) lines ss) =
  length ss + length (filter (mentions_marker toLowerCase) lines).
Proof.
  induction lines as [|line more IH]; intros ss; simpl; [lia|].
  rewrite IH, on_line_length.
  destruct (mentions_marker toLowerCase line); simpl; lia.
Qed.

Lemma build_sections_length lines :
  length (build_sections toLowerCase lines) =
  length (filter (mentions_marker toLowerCase) lines).
Proof. unfold build_sections. now rewrite fold_on_line_length. Qed.

Lemma hasSlideSections_length lines :
  hasSlideSections toLowerCase lines =
  (1 <=? length (filter (mentions_marker toLowerCase) lines)).
Proof.
  unfold hasSlideSections. induction lines as [|line more IH]; simpl; auto.
  destruct (mentions_marker toLowerCase line); simpl; auto.
Qed.

(** When no line contains two markers and no marker is on two lines, the
    lines that contain a marker are as many as the markers present. *)
Lemma marker_lines_count lines :
  forallb (fun line => hits toLowerCase line <=? 1) lines = true ->
  forallb (fun d => count_lines toLowerCase lines d <=? 1) sectionDefs = true ->
  length (filter (mentions_marker toLowerCase) lines) =
  markers_present toLowerCase lines.
Proof.
  intros Hl Hd. unfold markers_present.
  rewrite !filter_length_sum.
  transitivity (list_sum (map (hits toLowerCase) lines)).
  { f_equal. apply map_ext_in. intros line Hin.
    rewrite forallb_forall in Hl. specialize (Hl line Hin).
    apply Nat.leb_le in Hl. rewrite mentions_marker_hits.
    destruct (hits toLowerCase line) as [|[|n]]; simpl; auto; lia. }
  unfold hits. rewrite (double_count (mentions toLowerCase) lines sectionDefs).
  f_equal. apply map_ext_in. intros d Hin.
  rewrite forallb_forall in Hd. specialize (Hd d Hin).
  apply Nat.leb_le in Hd. unfold count_lines in Hd. unfold present.
  now apply count_once.
Qed.

(** C1, as amended.  Every line that contains a marker opens one section
    block, so the blocks are as many as those lines: none, on the generic
    path, when no marker is present, and at least one otherwise.  When no
    line contains two markers and no marker is on two lines the blocks
    are as many as the markers present: exactly four when all four are,
    fewer when some are absent. *)
Theorem template_section_blocks (c : option jsstring) (time : jsstring) :
  let msg := {| msg_role := Assistant; msg_content := c; msg_time := time |} in
  let lines := rawLines msg in
  let out := renderMessageContent toLowerCase msg in
  section_blocks out = length (filter (mentions_marker toLowerCase) lines) /\
  (markers_present toLowerCase lines = 0 ->
     out = Lines (map_indexed toLowerCase lines 0 lines)
     /\ section_blocks out = 0) /\
  (1 <= markers_present toLowerCase lines ->
     out = Slide (build_sections toLowerCase lines)
     /\ 1 <= section_blocks out) /\
  (forallb (fun line => hits toLowerCase line <=? 1) lines = true ->
   forallb (fun d => count_lines toLowerCase lines d <=? 1) sectionDefs = true ->
     section_blocks out = markers_present toLowerCase lines
     /\ (markers_present toLowerCase lines = 4 -> section_blocks out = 4)
     /\ (markers_present toLowerCase lines < 4 -> section_blocks out < 4)).
Proof.
  intros msg lines out.
  assert (Hout : section_blocks out
                 = length (filter (mentions_marker toLowerCase) lines)).
  { subst out. unfold renderMessageContent. cbn [msg_role msg].
    fold lines. rewrite hasSlideSections_length.
    destruct (Nat.leb_spec 1
                (length (filter (mentions_marker toLowerCase) lines)))
      as [H|H]; cbn [section_blocks].
    - apply build_sections_length.
    - lia. }
  assert (Hp : markers_present toLowerCase lines = 0 <->
               length (filter (mentions_marker toLowerCase) lines) = 0).
  { unfold markers_present. rewrite !filter_length_zero.
    transitivity (forall d, In d sectionDefs ->
                            count_lines toLowerCase lines d = 0).
    { split; intros H d Hd; specialize (H d Hd); unfold present, count_lines in *;
        now apply existsb_filter_zero. }
    rewrite <- list_sum_zero.
    unfold count_lines.
    rewrite <- (double_count (mentions toLowerCase) lines sectionDefs).
    rewrite list_sum_zero.
    split; intros H line Hin; specialize (H line Hin);
      rewrite mentions_marker_hits in *; fold (hits toLowerCase line) in *.
    - now rewrite H.
    - destruct (hits toLowerCase line); [reflexivity | discriminate]. }
  split; [exact Hout|]. split; [|split].
  - intros H0. apply Hp in H0. split; [|lia].
    subst out. unfold renderMessageContent. cbn [msg_role msg]. fold lines.
    rewrite hasSlideSections_length, H0. reflexivity.
  - intros H1. assert (1 <= length (filter (mentions_marker toLowerCase) lines))
      by lia. split; [|lia].
    subst out. unfold renderMessageContent. cbn [msg_role msg]. fold lines.
    rewrite hasSlideSections_length.
    destruct (Nat.leb_spec 1
                (length (filter (mentions_marker toLowerCase) lines)));
      [reflexivity | lia].
  - intros Hl Hd. rewrite Hout, (marker_lines_count lines Hl Hd). lia.
Qed.

End WithRuntime.

(** On the fallback path every line kept by [rawLines] is shown once, in
    order. *)
Lemma fallback_every_line_once (toLowerCase : jsstring -> jsstring)
      (c : option jsstring) (time : jsstring) :
  let msg := {| msg_role := Assistant; msg_content := c; msg_time := time |} in
  hasSlideSections toLowerCase (rawLines msg) = false ->
  exists ls,
    renderMessageContent toLowerCase msg = Lines ls /\
    map snd ls = rawLines msg /\
    length ls =
    length (filter (fun raw => nonempty (trim raw))
              (split_lf (content_or_empty msg))).
Proof.
  intros msg H. unfold renderMessageContent. cbn [msg_role msg]. rewrite H.
  eexists. split; [reflexivity|].
  assert (M : forall todo all i,
             map snd (map_indexed toLowerCase all i todo) = todo).
  { induction todo as [|l todo IH]; intros all i; simpl; [reflexivity|].
    now rewrite IH. }
  split; [apply M|].
  rewrite <- (length_map snd), M. unfold rawLines.
  rewrite length_map. clear H.
  induction (split_lf (content_or_empty msg)) as [|raw more IH]; simpl;
    [reflexivity|].
  destruct (nonempty (trim raw)); simpl; now rewrite IH.
Qed.

Lemma template_section_blocks_witness :
  section_blocks
    (renderMessageContent asciiLower (assistant template_reply)) = 4.
Proof.
  destruct (template_section_blocks asciiLower (Some template_reply) [])
    as (_ & _ & _ & H).
  destruct H as (_ & H4 & _); [reflexivity | reflexivity |].
  apply H4. reflexivity.
Defined.

(** C1, as stated, fails: with all four markers present, a marker on two
    lines gives five blocks, and the four markers on one line give one. *)
Lemma repeated_marker_five_blocks :
  (markers_present asciiLower (rawLines (assistant template_repeated)) = 4
   /\ section_blocks
        (renderMessageContent asciiLower (assistant template_repeated)) = 5)
  /\
  (markers_present asciiLower (rawLines (assistant template_one_line)) = 4
   /\ section_blocks
        (renderMessageContent asciiLower (assistant template_one_line)) = 1).
Proof. vm_compute. repeat split. Qed.

End SlidesFacts.

(* ===================================================================== *)
(** * Facts about the Session Controller *)
(* ===================================================================== *)

Module SessionFacts.
Import Session.

Section Collaborators.

Variable File : Type.
Variable post_upload : File -> settled upload_data.
Variable post_chat : payload -> settled chat_data.
Variables time_sent time_received : jsstring.

Lemma send_begin_guard text st :
  nonempty (trim text) = true -> loading st = false ->
  send_begin time_sent text st =
  Some (setLoading true
          (setMessage []
             (setMessages
                (fun prev =>
                   prev ++ [ {| msg_role := User; msg_content := Some text;
                                msg_time := time_sent |} ]) st)),
        {| message_ := text;
           conversation_history :=
             map (fun m => (msg_role m, msg_content m)) (messages st);
           file_context := or_null (fileContext st) |}).
Proof. intros Ht Hl. unfold send_begin. now rewrite Ht, Hl. Qed.

(** The three messages of [getErrorMessage] are not empty. *)
Lemma getErrorMessage_nonempty (err : caught) : getErrorMessage err <> [].
Proof.
  unfold getErrorMessage.
  destruct (match err_code err with
            | Some c => str_eqb c (js "ECONNABORTED")
            | None => false
            end); [vm_compute; discriminate|].
  destruct (negb (err_response err)); vm_compute; discriminate.
Qed.

(** A text that is not empty, once set as the error, is what the toast
    shows. *)
Lemma error_toast_set (msg : jsstring) (st : state) :
  msg <> [] -> error st = Some msg -> error_toast st = Some msg.
Proof.
  intros Hne E. unfold error_toast. rewrite E.
  destruct msg; [congruence | reflexivity].
Qed.

(** C5.  A send that passes the guard leaves [loading] false however the
    request settles.  When the request fails (rejected with or without a
    response, or fulfilled without a body) the transcript is the prior
    transcript followed by the user message, with no assistant message,
    and the error is set to the message of [getErrorMessage], which is
    not empty, so that the error toast shows it. *)
Theorem send_failure_keeps_user_message (text : jsstring) (st : state) :
  nonempty (trim text) = true -> loading st = false ->
  let userMessage :=
    {| msg_role := User; msg_content := Some text; msg_time := time_sent |} in
  let request :=
    {| message_ := text;
       conversation_history :=
         map (fun m => (msg_role m, msg_content m)) (messages st);
       file_context := or_null (fileContext st) |} in
  let st' := fst (sendMessage post_chat time_sent time_received text st) in
  loading st' = false /\
  (forall code response,
     post_chat request = Rejected code response ->
     let msg :=
       getErrorMessage {| err_code := code; err_response := response |} in
     messages st' = messages st ++ [userMessage] /\
     error st' = Some msg /\ msg <> [] /\ error_toast st' = Some msg) /\
  (post_chat request = Fulfilled None ->
     let msg := getErrorMessage type_error in
     messages st' = messages st ++ [userMessage] /\
     error st' = Some msg /\ msg <> [] /\ error_toast st' = Some msg).
Proof.
  intros Ht Hl userMessage request st'. subst st'. unfold sendMessage.
  rewrite (send_begin_guard text st Ht Hl). fold userMessage request.
  cbn [fst]. split.
  - unfold send_settle. destruct (post_chat request) as [[d|]|]; reflexivity.
  - split.
    + intros code response ->.
      split; [reflexivity|]. split; [reflexivity|].
      split; [apply getErrorMessage_nonempty|].
      apply error_toast_set; [apply getErrorMessage_nonempty | reflexivity].
    + intros ->.
      split; [reflexivity|]. split; [reflexivity|].
      split; [apply getErrorMessage_nonempty|].
      apply error_toast_set; [apply getErrorMessage_nonempty | reflexivity].
Qed.

(** C7.  The request of a send that passes the guard carries the text,
    the role and content of each entry of the transcript as it was before
    the user message was appended, in order, and the report context, or
    none when the report context is the empty text. *)
Theorem send_request_payload (text : jsstring) (st : state) :
  nonempty (trim text) = true -> loading st = false ->
  snd (sendMessage post_chat time_sent time_received text st) =
  Some {| message_ := text;
          conversation_history :=
            map (fun m => (msg_role m, msg_content m)) (messages st);
          file_context :=
            match fileContext st with
            | [] => None
            | _ :: _ => Some (fileContext st)
            end |}.
Proof.
  intros Ht Hl. unfold sendMessage.
  rewrite (send_begin_guard text st Ht Hl). reflexivity.
Qed.

(** C6.  An upload that fails, by an error field in the response, by a
    rejected request or by a response without a body, sets an error
    message that is not empty, so that the error toast shows it: the error
    text of the response in the first case, the message of
    [getErrorMessage] in the others.  It leaves the screen, the file name,
    the report context and the transcript as they were. *)
Theorem upload_failure_keeps_state (f : File) (st : state) :
  (exists data, post_upload f = Fulfilled (Some data)
                /\ truthy (up_error data) = true)
  \/ post_upload f = Fulfilled None
  \/ (exists code response, post_upload f = Rejected code response) ->
  let st' := fst (handleUpload post_upload (Some f) st) in
  (exists msg,
     error st' = Some msg /\ msg <> [] /\ error_toast st' = Some msg /\
     match post_upload f with
     | Fulfilled (Some data) => up_error data = Some msg
     | Fulfilled None => msg = getErrorMessage type_error
     | Rejected code response =>
         msg = getErrorMessage
                 {| err_code := code; err_response := response |}
     end) /\
  screen st' = screen st /\ fileName st' = fileName st /\
  fileContext st' = fileContext st /\ messages st' = messages st /\
  uploading st' = false.
Proof.
  intros H st'. subst st'. unfold handleUpload, upload_try.
  destruct H as [(data & -> & Ht)|[->|(code & response & ->)]].
  - rewrite Ht. cbn. destruct (up_error data) as [[|c e]|] eqn:E;
      try discriminate.
    split; [|repeat split].
    exists (c :: e). split; [reflexivity|]. split; [discriminate|].
    split; reflexivity.
  - split; [|repeat split].
    exists (getErrorMessage type_error). split; [reflexivity|].
    split; [exact (getErrorMessage_nonempty type_error)|].
    split; [|reflexivity].
    apply error_toast_set;
      [exact (getErrorMessage_nonempty type_error) | reflexivity].
  - split; [|repeat split].
    exists (getErrorMessage {| err_code := code; err_response := response |}).
    split; [reflexivity|].
    split; [exact (getErrorMessage_nonempty _)|]. split; [|reflexivity].
    apply error_toast_set;
      [exact (getErrorMessage_nonempty _) | reflexivity].
Qed.

(** The guard of [sendMessage]: blank text or a send in flight. *)
Lemma send_guard_noop (text : jsstring) (st : state) :
  nonempty (trim text) = false \/ loading st = true ->
  sendMessage post_chat time_sent time_received text st = (st, None).
Proof.
  intros H. unfold sendMessage, send_begin.
  destruct H as [-> | ->]; [reflexivity|].
  now rewrite orb_true_r.
Qed.

End Collaborators.

Lemma send_failure_keeps_user_message_witness :
  let st' :=
    fst (sendMessage (fun _ => Rejected (Some (js "ECONNABORTED")) false)
           (js "10:01") (js "10:02") (js "hi") initial) in
  loading st' = false /\
  messages st' =
    [ {| msg_role := User; msg_content := Some (js "hi");
         msg_time := js "10:01" |} ] /\
  error_toast st' =
    Some (getErrorMessage
            {| err_code := Some (js "ECONNABORTED");
               err_response := false |}).
Proof.
  destruct (@send_failure_keeps_user_message
              (fun _ => Rejected (Some (js "ECONNABORTED")) false)
              (js "10:01") (js "10:02") (js "hi") initial
              eq_refl eq_refl) as (Hl & Hr & _).
  split; [exact Hl|].
  destruct (Hr _ _ eq_refl) as (Hm & _ & _ & Ht).
  split; [exact Hm | exact Ht].
Defined.

Lemma send_request_payload_witness :
  snd (sendMessage (fun _ => Fulfilled (Some {| reply := Some (js "ok") |}))
         (js "10:01") (js "10:02") (js "hi")
         (setFileContext (js "report") initial)) =
  Some {| message_ := js "hi"; conversation_history := [];
          file_context := Some (js "report") |}.
Proof.
  exact (@send_request_payload
           (fun _ => Fulfilled (Some {| reply := Some (js "ok") |}))
           (js "10:01") (js "10:02") (js "hi")
           (setFileContext (js "report") initial) eq_refl eq_refl).
Defined.

Lemma upload_failure_keeps_state_witness :
  let respond (_ : unit) :=
    Fulfilled (Some {| up_error := Some (js "Could not parse file");
                       up_filename := None; up_content := None |}) in
  let st' := fst (handleUpload respond (Some tt) initial) in
  error_toast st' = Some (js "Could not parse file") /\ screen st' = upload.
Proof.
  intros respond st'.
  destruct (@upload_failure_keeps_state unit respond tt initial)
    as ((msg & _ & _ & Ht & Hm) & Hs & _).
  - left. eexists. split; reflexivity.
  - split; [exact (eq_trans Ht (eq_sym Hm)) | exact Hs].
Defined.

(** C8.  [handleNewChat] empties the transcript, the file name, the
    report context, the input and the error and shows the upload screen,
    whatever the state before; in the local-storage client, which has no
    screen state, it empties the same fields and the three stored keys, and
    the welcome view with the upload section is shown again. *)
Theorem new_chat_resets (st : state) (pst : Persisted.state) :
  (let st' := handleNewChat st in
   messages st' = [] /\ fileName st' = None /\ fileContext st' = [] /\
   error st' = None /\ message st' = [] /\ screen st' = screen initial)
  /\
  (let pst' := Persisted.handleNewChat pst in
   Persisted.messages pst' = [] /\ Persisted.fileName pst' = None /\
   Persisted.fileContext pst' = [] /\ Persisted.error pst' = None /\
   Persisted.hasMessages pst' = false /\
   Persisted.localStorage pst' =
     {| Persisted.recognaize_messages := None;
        Persisted.recognaize_filename := None;
        Persisted.recognaize_file_context := None |} /\
   Persisted.localStorage (Persisted.persist_messages pst') =
     {| Persisted.recognaize_messages := Some [];
        Persisted.recognaize_filename := None;
        Persisted.recognaize_file_context := None |}).
Proof. split; cbn; repeat split. Qed.

(** In the local-storage client blank text is the only guard. *)
Lemma persisted_blank_noop (post_chat : payload -> settled chat_data)
      (time_sent time_received text : jsstring) (pst : Persisted.state) :
  nonempty (trim text) = false ->
  Persisted.sendMessage post_chat time_sent time_received text pst
  = (pst, None).
Proof.
  intros H. unfold Persisted.sendMessage, Persisted.send_begin.
  now rewrite H.
Qed.

(** C9, at the failing input.  With a send in flight, [sendMessage] of
    the local-storage client appends the user message and issues a second
    request. *)
Theorem persisted_send_while_loading :
  let busy :=
    {| Persisted.message := js "again"; Persisted.loading := true;
       Persisted.fileName := None; Persisted.fileContext := [];
       Persisted.messages :=
         [ {| msg_role := User; msg_content := Some (js "hi");
              msg_time := js "10:00" |} ];
       Persisted.error := None;
       Persisted.localStorage :=
         {| Persisted.recognaize_messages := None;
            Persisted.recognaize_filename := None;
            Persisted.recognaize_file_context := None |} |} in
  let out :=
    Persisted.sendMessage (fun _ => Rejected None false)
      (js "10:01") (js "10:02") (js "again") busy in
  snd out =
    Some {| message_ := js "again";
            conversation_history := [(User, Some (js "hi"))];
            file_context := None |}
  /\ length (Persisted.messages (fst out)) = 2
  /\ Persisted.loading (fst out) = false.
Proof. vm_compute. repeat split. Qed.

End SessionFacts.

(* ===================================================================== *)
(** * More about the generic formatter *)
(* ===================================================================== *)

Module GenericMore.
Import Generic GenericView JsFacts GenericFacts.

(** ** The steps of the loop *)

(** What one call of the callback does to the two variables. *)
Lemma on_line_step a raw a' :
  on_line a raw = Ok a' ->
  a' = flushSection a
  \/ (exists t, a' = push_element (Heading (trim (strip_stars t)))
                       (flushSection a))
  \/ (exists l, cls l <> MsgLine /\ a' = push_section_line l a)
  \/ (exists c, sectionLines a <> []
                /\ a' = push_section_line {| cls := MsgLine; content := c |} a)
  \/ (exists c, sectionLines a = [] /\ a' = push_element (Line c) a).
Proof.
  unfold on_line. destruct (trim raw) as [|c0 t0].
  { intros H. inversion H. auto. }
  set (line := c0 :: t0).
  destruct (is_some (exec hashRe line) || is_some (exec boldHeadingRe line)
            || is_some (exec capsHeadingRe line)).
  - destruct (js_or _ _) as [t|]; [|discriminate].
    intros H. inversion H. right; left. eauto.
  - destruct (exec bulletRe line) as [m|].
    + destruct (group 1 m) as [g|]; [|discriminate].
      intros H. inversion H. right; right; left.
      eexists. split; [|reflexivity]. discriminate.
    + destruct (is_some (exec numberedRe line)).
      * intros H. inversion H. right; right; left.
        eexists. split; [|reflexivity]. discriminate.
      * destruct (sectionLines a) as [|l ls] eqn:Es; intros H; inversion H.
        -- right; right; right; right. eexists. split; [reflexivity|].
           unfold push_element. now rewrite Es.
        -- right; right; right; left. eexists. split; [discriminate|].
           unfold push_section_line. now rewrite Es.
Qed.

(** A property of the two variables kept by every step holds at the end
    of the loop. *)
Lemma forEach_invariant (P : acc -> Prop) :
  (forall a raw a', P a -> on_line a raw = Ok a' -> P a') ->
  forall rawLines a a', P a -> forEach a rawLines = Ok a' -> P a'.
Proof.
  intros Hstep. induction rawLines as [|raw more IH]; intros a a' Ha; simpl.
  - intros H. inversion H. now subst.
  - destruct (on_line a raw) as [a1|] eqn:E; [|discriminate]. simpl.
    apply IH. eapply Hstep; eauto.
Qed.

(** ** Headings *)

Lemma In_dropWhile p (s : jsstring) c : In c (dropWhile p s) -> In c s.
Proof.
  induction s as [|x s IH]; simpl; [tauto|].
  destruct (p x); simpl; tauto.
Qed.

Lemma In_trim s c : In c (trim s) -> In c s.
Proof.
  unfold trim, trimEnd, trimStart. intros H.
  apply in_rev, In_dropWhile, in_rev in H. now apply In_dropWhile in H.
Qed.

Lemma strip_stars_clean t : ~ In ASTERISK (strip_stars t).
Proof.
  rewrite strip_stars_filter. intros H. apply filter_In in H as [_ H].
  discriminate.
Qed.


(** X13.  No heading shows an asterisk. *)
Theorem headings_without_asterisks (c : option jsstring) (time : jsstring)
        (es : list element) (t : jsstring) :
  renderMessageContent
    {| msg_role := Assistant; msg_content := c; msg_time := time |}
  = Ok (Elements es) ->
  In (Heading t) es -> ~ In ASTERISK t.
Proof.
  unfold renderMessageContent. cbn [msg_role].
  destruct (forEach _ _) as [a|] eqn:E; [|discriminate]. cbn [bind].
  intros H. inversion H. subst es. clear H.
  assert (Ha : headings_clean (elements a)).
  { apply (forEach_invariant (fun a => headings_clean (elements a)))
      with (3 := E); [|intros ? []].
    clear. intros a raw a' Ha Hs u Hu.
    assert (Hflush : headings_clean (elements (flushSection a))).
    { unfold flushSection. destruct (sectionLines a); [exact Ha|].
      cbn [elements]. intros v Hv. apply in_app_iff in Hv as [Hv|[Hv|[]]];
        [now apply Ha | discriminate]. }
    apply on_line_step in Hs
      as [->|[(t & ->)|[(l & _ & ->)|[(c & _ & ->)|(c & _ & ->)]]]];
      cbn [push_element push_section_line elements] in Hu.
    - now apply Hflush.
    - apply in_app_iff in Hu as [Hu|[Hu|[]]]; [now apply Hflush|].
      inversion Hu. intros Hin. apply In_trim in Hin.
      exact (strip_stars_clean _ Hin).
    - now apply Ha.
    - now apply Ha.
    - apply in_app_iff in Hu as [Hu|[Hu|[]]]; [now apply Ha | discriminate]. }
  unfold flushSection. destruct (sectionLines a); [apply Ha|].
  cbn [elements]. intros Hin. apply in_app_iff in Hin as [Hin|[Hin|[]]];
    [now apply Ha | discriminate].
Qed.

(** ** Section blocks *)



Lemma blocks_led_flush a : blocks_led a -> blocks_led (flushSection a).
Proof.
  intros [He Hs]. unfold flushSection.
  destruct (sectionLines a) as [|l ls] eqn:E; [split; auto|].
  split; cbn [elements sectionLines]; [|now left].
  intros bs Hb. apply in_app_iff in Hb as [Hb|[Hb|[]]]; [now apply He|].
  inversion Hb. subst bs. destruct Hs as [Hs|Hs]; [discriminate | exact Hs].
Qed.

Lemma blocks_led_step a raw a' :
  blocks_led a -> on_line a raw = Ok a' -> blocks_led a'.
Proof.
  intros Ha Hs.
  apply on_line_step in Hs
    as [->|[(t & ->)|[(l & Hl & ->)|[(c & Hc & ->)|(c & Hc & ->)]]]].
  - now apply blocks_led_flush.
  - destruct (blocks_led_flush Ha) as [He Hs]. split.
    + cbn [push_element elements]. intros ls Hb.
      apply in_app_iff in Hb as [Hb|[Hb|[]]]; [now apply He | discriminate].
    + exact Hs.
  - destruct Ha as [He Hs]. split; [exact He|]. right.
    cbn [push_section_line sectionLines].
    destruct Hs as [->|(x & more & -> & Hx)].
    + exists l, []. auto.
    + exists x, (more ++ [l]). auto.
  - destruct Ha as [He Hs]. split; [exact He|]. right.
    cbn [push_section_line sectionLines].
    destruct Hs as [Hs|(x & more & -> & Hx)]; [contradiction|].
    exists x, (more ++ [ {| cls := MsgLine; content := c |} ]). auto.
  - destruct Ha as [He Hs]. split; [|exact Hs].
    cbn [push_element elements]. intros ls Hb.
    apply in_app_iff in Hb as [Hb|[Hb|[]]]; [now apply He | discriminate].
Qed.

(** X14.  A section block is never empty and always starts with a
    bullet or a numbered line: a plain line joins a block only after such
    a line, and stands alone otherwise. *)
Theorem section_blocks_start_with_item (c : option jsstring)
        (time : jsstring) (es : list element) (ls : list section_line) :
  renderMessageContent
    {| msg_role := Assistant; msg_content := c; msg_time := time |}
  = Ok (Elements es) ->
  In (SectionBlock ls) es ->
  exists l more, ls = l :: more /\ (cls l = MsgBullet \/ cls l = MsgNumbered).
Proof.
  unfold renderMessageContent. cbn [msg_role].
  destruct (forEach _ _) as [a|] eqn:E; [|discriminate]. cbn [bind].
  intros H. inversion H. subst es. clear H. intros Hin.
  assert (Ha : blocks_led a).
  { apply (forEach_invariant blocks_led) with (3 := E).
    - intros; eapply blocks_led_step; eauto.
    - split; [intros ? [] | now left]. }
  apply blocks_led_flush in Ha. destruct Ha as [He _].
  destruct (He ls Hin) as (l & more & -> & Hl). exists l, more.
  split; [reflexivity|]. destruct (cls l); auto. congruence.
Qed.

(** ** Inline emphasis *)


Lemma exec_at_boldRe_other i s :
  starts_in (is_char ASTERISK) s = false -> exec_at boldRe i s = None.
Proof.
  intros H. unfold exec_at, boldRe. cbn [run rest].
  destruct s as [|c s]; [reflexivity|]. simpl in H. rewrite H. reflexivity.
Qed.

Lemma search_boldRe_plain : forall s i,
  plain_text s = true -> search boldRe i s = None.
Proof.
  induction s as [|c s IH]; intros i H.
  - reflexivity.
  - unfold plain_text in H. cbn [forallb] in H.
    apply andb_true_iff in H as [Hc Hs].
    cbn [search]. rewrite exec_at_boldRe_other.
    + now apply IH.
    + simpl. unfold not_asterisk in Hc. now apply negb_true_iff in Hc.
Qed.

(** The search passes over text without asterisks. *)
Lemma search_boldRe_skip : forall before i s,
  plain_text before = true ->
  search boldRe i (before ++ s) = search boldRe (i + length before) s.
Proof.
  induction before as [|c b IH]; intros i s H.
  - simpl. now rewrite Nat.add_0_r.
  - unfold plain_text in H. cbn [forallb] in H.
    apply andb_true_iff in H as [Hc Hs].
    cbn [app search]. rewrite exec_at_boldRe_other.
    + rewrite IH by exact Hs. f_equal. simpl. lia.
    + simpl. unfold not_asterisk in Hc. now apply negb_true_iff in Hc.
Qed.

Lemma filter_all {A : Type} (f : A -> bool) (l : list A) :
  forallb f l = true -> filter f l = l.
Proof.
  induction l as [|x l IH]; simpl; [reflexivity|].
  intros H. apply andb_true_iff in H as [Hx Hl]. now rewrite Hx, IH.
Qed.

Lemma strip_stars_plain t : plain_text t = true -> strip_stars t = t.
Proof. intros H. rewrite strip_stars_filter. now apply filter_all. Qed.

(** X15.  A text without asterisks is shown as it is, in one span that
    is not emphasized. *)
Theorem renderInline_plain (t : jsstring) :
  plain_text t = true -> t <> [] ->
  renderInline t = Parts [ {| bold := false; span_text := t |} ].
Proof.
  intros H Hne. unfold renderInline.
  destruct t as [|c t]; [congruence|]. cbn [length inline_loop].
  unfold exec. rewrite search_boldRe_plain by exact H.
  rewrite strip_stars_plain by exact H. reflexivity.
Qed.

Lemma flat_map_of_map {A B C : Type} (f : B -> list C) (g : A -> B)
      (l : list A) :
  flat_map f (map g l) = flat_map (fun x => f (g x)) l.
Proof. induction l as [|x l IH]; simpl; [reflexivity|]. now rewrite IH. Qed.

(** A lazy quantifier stops at the first count after which the rest of
    the expression matches. *)
Lemma lazy_first {C : Type} (g : nat -> list C) n k :
  1 <= k <= n -> (forall j, 1 <= j < k -> g j = []) ->
  exists more, flat_map g (seq 1 n) = g k ++ more.
Proof.
  intros Hk Hg.
  replace n with ((k - 1) + (S (n - k))) by lia.
  rewrite seq_app, flat_map_app.
  replace (1 + (k - 1)) with k by lia. cbn [seq flat_map].
  assert (E : forall l, (forall j, In j l -> g j = []) -> flat_map g l = []).
  { induction l as [|a l IH]; intros H; simpl; [reflexivity|].
    rewrite (H a (or_introl eq_refl)), IH; [reflexivity|].
    intros j Hj. apply H. now right. }
  rewrite (E (seq 1 (k - 1)))
    by (intros j Hj; apply in_seq in Hj; apply Hg; lia).
  eexists. reflexivity.
Qed.

Lemma skipn_inside (x y : jsstring) k :
  k < length x -> exists c t, skipn k (x ++ y) = c :: t /\ In c x.
Proof.
  revert k; induction x as [|a x IH]; intros k H; simpl in H; [lia|].
  destruct k as [|k].
  - exists a, (x ++ y). split; [reflexivity | now left].
  - destruct (IH k) as (c & t & E & Hin); [lia|].
    exists c, t. split; [exact E | now right].
Qed.

Lemma run_Cls_one p i c t cs :
  p c = true ->
  run (Cls p) {| pos := i; rest := c :: t; caps := cs |} =
  [ {| pos := i + 1; rest := t; caps := cs |} ].
Proof. intros H. simpl. now rewrite H. Qed.

Lemma run_Cls_fail p r i c t cs :
  p c = false ->
  run (Cls p ;; r) {| pos := i; rest := c :: t; caps := cs |} = [].
Proof. intros H. simpl. now rewrite H. Qed.

(** A lazy group followed by the rest of an expression: the counts are
    tried from one up. *)
Lemma run_Grp_lazy_Cat j p r i s cs :
  run (Grp j (Rep false 1 None p) ;; r)
      {| pos := i; rest := s; caps := cs |} =
  flat_map
    (fun k => run r {| pos := i + k; rest := skipn k s;
                       caps := (j, firstn k s) :: cs |})
    (seq 1 (run_len p s)).
Proof.
  cbn [run cap_hi rest]. unfold counts.
  replace (S (run_len p s) - 1) with (run_len p s) by lia.
  rewrite map_map, flat_map_of_map. apply flat_map_ext. intros k.
  cbn [advance pos rest caps].
  now replace (i + k - i) with k by lia.
Qed.

(** [boldRe] at two asterisks, a text without asterisks and two
    asterisks: the match is that much, and its group the text. *)
Lemma exec_at_boldRe_wrapped i x later :
  x <> [] -> plain_text x = true -> forallb dot_any x = true ->
  exists m,
    exec_at boldRe i
      ([ASTERISK; ASTERISK] ++ x ++ [ASTERISK; ASTERISK] ++ later) = Some m /\
    index m = i /\ length (whole m) = 4 + length x /\ to_group1 m = x.
Proof.
  intros Hne Hp Hd. unfold exec_at, boldRe. cbn [app].
  rewrite !run_Cls_Cat by reflexivity.
  set (s := x ++ ASTERISK :: ASTERISK :: later).
  rewrite run_Grp_lazy_Cat.
  assert (Hn : length x <= run_len dot_any s).
  { apply run_len_prefix. unfold s. rewrite length_app, firstn_length_app.
    split; [lia | exact Hd]. }
  assert (Hx : 1 <= length x) by (destruct x; [congruence | simpl; lia]).
  match goal with
  | |- context [flat_map ?g (seq 1 _)] =>
      destruct (@lazy_first _ g (run_len dot_any s) (length x)) as (more & E)
  end.
  - lia.
  - intros j Hj.
    destruct (@skipn_inside x (ASTERISK :: ASTERISK :: later) j)
      as (c & t & Es & Hin); [lia|].
    fold s in Es. rewrite Es. apply run_Cls_fail.
    unfold plain_text in Hp. rewrite forallb_forall in Hp.
    specialize (Hp c Hin). unfold not_asterisk in Hp.
    now apply negb_true_iff in Hp.
  - rewrite E. unfold s at 1 2. rewrite skipn_length_app, firstn_length_app.
    rewrite run_Cls_Cat, run_Cls_one by reflexivity. cbn [app].
    eexists. split; [reflexivity|]. cbn [index whole].
    split; [reflexivity|]. split; [|reflexivity].
    rewrite length_firstn. cbn [pos length]. unfold s.
    rewrite length_app. cbn [length]. lia.
Qed.

Lemma inline_loop_nil n parts : inline_loop n [] parts = parts.
Proof. destruct n; reflexivity. Qed.

Lemma inline_loop_plain n t parts :
  plain_text t = true -> length t <= n ->
  inline_loop n t parts =
  if nonempty t then parts ++ [ {| bold := false; span_text := t |} ]
  else parts.
Proof.
  intros H Hl. destruct t as [|c t]; [apply inline_loop_nil|].
  destruct n as [|n]; [simpl in Hl; lia|]. cbn [inline_loop].
  unfold exec. rewrite search_boldRe_plain by exact H.
  rewrite strip_stars_plain by exact H. reflexivity.
Qed.

Lemma inline_loop_match n remaining parts bm :
  remaining <> [] -> exec boldRe remaining = Some bm ->
  inline_loop (S n) remaining parts =
  inline_loop n
    (substring_from (index bm + length (whole bm)) remaining)
    ((if nonempty (substring_to (index bm) remaining)
      then parts ++ [ {| bold := false;
                         span_text := substring_to (index bm) remaining |} ]
      else parts)
     ++ [ {| bold := true; span_text := to_group1 bm |} ]).
Proof.
  intros Hne E. destruct remaining as [|c t]; [congruence|].
  cbn [inline_loop]. now rewrite E.
Qed.

(** X16.  A text without asterisks between two pairs of asterisks is
    shown emphasized and without them, between the text before it and the
    text after it when these are not empty. *)
Theorem renderInline_emphasis (before x later : jsstring) :
  plain_text before = true -> plain_text x = true ->
  plain_text later = true -> x <> [] -> forallb dot_any x = true ->
  renderInline
    (before ++ [ASTERISK; ASTERISK] ++ x ++ [ASTERISK; ASTERISK] ++ later) =
  Parts
    ((if nonempty before
      then [ {| bold := false; span_text := before |} ] else [])
     ++ {| bold := true; span_text := x |}
     :: (if nonempty later
         then [ {| bold := false; span_text := later |} ] else [])).
Proof.
  intros Hb Hx Hl Hne Hd. unfold renderInline.
  set (text := before ++ [ASTERISK; ASTERISK] ++ x
                 ++ [ASTERISK; ASTERISK] ++ later).
  destruct (@exec_at_boldRe_wrapped (0 + length before) x later Hne Hx Hd)
    as (m & Em & Ei & Ew & Eg).
  assert (Ee : exec boldRe text = Some m).
  { unfold exec, text. rewrite search_boldRe_skip by exact Hb.
    destruct x as [|c x']; [congruence|]. cbn [app search].
    cbn [app] in Em. now rewrite Em. }
  assert (Lt : length text = S (length before + (3 + length x) + length later)).
  { unfold text. rewrite !length_app. cbn [length]. lia. }
  assert (Eb : substring_to (0 + length before) text = before).
  { unfold substring_to, text. cbn [Nat.add]. apply firstn_length_app. }
  assert (Ea : substring_from (0 + length before + (4 + length x)) text
               = later).
  { unfold substring_from, text.
    change (0 + length before) with (length before).
    rewrite Nat.add_comm, <- skipn_skipn, skipn_length_app.
    cbn [app]. replace (4 + length x) with (S (S (length x + 2))) by lia.
    cbn [skipn]. rewrite skipn_app, skipn_all2 by lia.
    replace (length x + 2 - length x) with 2 by lia. reflexivity. }
  assert (Hn : text <> []).
  { intros E. rewrite E in Lt. discriminate. }
  rewrite Lt, (inline_loop_match _ _ Hn Ee), Ei, Ew, Eg, Eb, Ea.
  rewrite inline_loop_plain by (auto; lia).
  destruct before, later; cbn [nonempty app]; reflexivity.
Qed.

Lemma boldRe_group s m :
  exec boldRe s = Some m ->
  to_group1 m <> [] /\ forallb dot_any (to_group1 m) = true.
Proof.
  unfold exec. intros H.
  apply search_Some in H as (j & _ & _ & H).
  apply exec_at_Some in H as (st' & H & ->).
  apply boldRe_members in H as (x & t2 & Hx & Hd & _ & ->).
  unfold to_group1, group. cbn. auto.
Qed.


Lemma inline_loop_spans : forall n remaining parts,
  (forall p, In p parts -> span_ok p) ->
  forall p, In p (inline_loop n remaining parts) -> span_ok p.
Proof.
  induction n as [|n IH]; intros remaining parts Hp; [exact Hp|].
  cbn [inline_loop]. destruct remaining as [|c t]; [exact Hp|].
  set (rem := c :: t).
  destruct (exec boldRe rem) as [bm|] eqn:E.
  - apply IH. intros p Hin. apply in_app_iff in Hin as [Hin|[<-|[]]].
    + destruct (substring_to (index bm) rem) eqn:Eb; cbn [nonempty] in Hin;
        [now apply Hp|].
      apply in_app_iff in Hin as [Hin|[<-|[]]]; [now apply Hp|].
      split; [discriminate | discriminate].
    + destruct (boldRe_group _ E) as [H1 H2]. split; auto.
  - destruct (strip_stars rem) eqn:Es; cbn [nonempty]; [exact Hp|].
    intros p Hin. apply in_app_iff in Hin as [Hin|[<-|[]]]; [now apply Hp|].
    split; discriminate.
Qed.

(** X17.  No span is empty, and an emphasized span holds no line
    terminator. *)
Theorem renderInline_spans (text : jsstring) (ps : list span) (p : span) :
  renderInline text = Parts ps -> In p ps ->
  span_text p <> [] /\
  (bold p = true -> forallb dot_any (span_text p) = true).
Proof.
  unfold renderInline.
  pose proof (@inline_loop_spans (length text) text []
                (fun p (H : In p []) => match H with end)) as H.
  destruct (inline_loop (length text) text []) as [|q qs]; [discriminate|].
  intros E. inversion E. subst ps. apply H.
Qed.

(** ** Blank content and line endings *)

Lemma forEach_blank : forall rawLines,
  forallb (fun raw => negb (nonempty (trim raw))) rawLines = true ->
  forEach empty_acc rawLines = Ok empty_acc.
Proof.
  induction rawLines as [|raw more IH]; intros H; [reflexivity|].
  cbn [forallb] in H. apply andb_true_iff in H as [Hr Hm].
  cbn [forEach]. rewrite on_line_blank.
  - cbn. now apply IH.
  - destruct (trim raw); [reflexivity | discriminate].
Qed.

(** X18.  A reply without content, or with blank lines only, is shown as
    no element at all. *)
Theorem blank_content_renders_nothing (c : option jsstring)
        (time : jsstring) :
  let msg := {| msg_role := Assistant; msg_content := c; msg_time := time |} in
  forallb (fun raw => negb (nonempty (trim raw)))
    (split_lf (content_or_empty msg)) = true ->
  renderMessageContent msg = Ok (Elements []).
Proof.
  intros msg H. unfold renderMessageContent. cbn [msg_role msg].
  fold empty_acc. now rewrite (forEach_blank _ H).
Qed.

Lemma trim_snoc_ws s w : isWhiteSpace w = true -> trim (s ++ [w]) = trim s.
Proof.
  intros Hw. unfold trim, trimStart.
  assert (E : dropWhile isWhiteSpace (s ++ [w]) = [] /\
              dropWhile isWhiteSpace s = []
              \/ dropWhile isWhiteSpace (s ++ [w])
                 = dropWhile isWhiteSpace s ++ [w]).
  { induction s as [|x s IH]; simpl.
    - rewrite Hw. auto.
    - destruct (isWhiteSpace x); [exact IH | now right]. }
  destruct E as [[-> ->]| ->]; [reflexivity|].
  unfold trimEnd. rewrite rev_app_distr. simpl. now rewrite Hw.
Qed.

Lemma on_line_same_trim a raw raw' :
  trim raw = trim raw' -> on_line a raw = on_line a raw'.
Proof. intros E. unfold on_line. now rewrite E. Qed.

Lemma forEach_same_trim : forall l l' a,
  map trim l = map trim l' -> forEach a l = forEach a l'.
Proof.
  induction l as [|x l IH]; intros [|y l'] a H; try discriminate;
    [reflexivity|].
  inversion H. cbn [forEach]. rewrite (on_line_same_trim a x y) by assumption.
  destruct (on_line a y); [|reflexivity]. cbn. now apply IH.
Qed.

Lemma split_lf_cons_line l more rest :
  forallb (fun c => negb (N.eqb c LF)) l = true ->
  split_lf rest = more ->
  split_lf (l ++ LF :: rest) = l :: more.
Proof.
  intros Hl <-. induction l as [|c l IH]; [reflexivity|].
  cbn [forallb] in Hl. apply andb_true_iff in Hl as [Hc Hl].
  cbn [app split_lf]. apply negb_true_iff in Hc. rewrite Hc, IH by exact Hl.
  reflexivity.
Qed.

Lemma split_lf_line l :
  forallb (fun c => negb (N.eqb c LF)) l = true -> split_lf l = [l].
Proof.
  induction l as [|c l IH]; intros Hl; [reflexivity|].
  cbn [forallb] in Hl. apply andb_true_iff in Hl as [Hc Hl].
  cbn [split_lf]. apply negb_true_iff in Hc. now rewrite Hc, IH.
Qed.

(** Splitting at the line feeds undoes the joining of lines that hold
    none. *)
Lemma split_lf_unlines : forall ls,
  ls <> [] ->
  forallb (forallb (fun c => negb (N.eqb c LF))) ls = true ->
  split_lf (unlines ls) = ls.
Proof.
  induction ls as [|l ls IH]; intros Hne H; [congruence|].
  cbn [forallb] in H. apply andb_true_iff in H as [Hl Hls].
  destruct ls as [|l2 more].
  - cbn [unlines]. now apply split_lf_line.
  - change (unlines (l :: l2 :: more))
      with (l ++ [LF] ++ unlines (l2 :: more)).
    cbn [app]. apply split_lf_cons_line; [exact Hl|].
    apply IH; [discriminate | exact Hls].
Qed.

(** X19.  Line endings with a carriage return change nothing: a reply
    whose lines each end in CR before the line feed is shown as the reply
    without the CRs. *)
Theorem crlf_renders_as_lf (ls : list jsstring) (time : jsstring) :
  forallb (forallb (fun c => negb (N.eqb c LF))) ls = true ->
  renderMessageContent
    {| msg_role := Assistant;
       msg_content := Some (unlines (map (fun l => l ++ [13%N]) ls));
       msg_time := time |} =
  renderMessageContent
    {| msg_role := Assistant; msg_content := Some (unlines ls);
       msg_time := time |}.
Proof.
  intros H. unfold renderMessageContent. cbn [msg_role].
  destruct ls as [|l0 ls0]; [reflexivity|].
  set (ls := l0 :: ls0) in *.
  assert (Hc : forall s, content_or_empty
                 {| msg_role := Assistant; msg_content := Some s;
                    msg_time := time |} = s).
  { intros [|c s]; reflexivity. }
  rewrite !Hc.
  rewrite (split_lf_unlines (ls := ls)) by (auto; discriminate).
  rewrite split_lf_unlines.
  - f_equal. apply forEach_same_trim. rewrite map_map.
    apply map_ext. intros l. now apply trim_snoc_ws.
  - discriminate.
  - rewrite forallb_forall in *. intros l Hin.
    apply in_map_iff in Hin as (l' & <- & Hin').
    rewrite forallb_app. cbn. rewrite (H l' Hin'). reflexivity.
Qed.

(** X20.  Inline formatting removes asterisks and nothing else: what is
    shown for a text is, asterisks apart, the text itself. *)
Theorem inline_text_kept (text : jsstring) :
  filter not_asterisk (shown_text (renderInline text)) =
  filter not_asterisk text.
Proof. apply renderInline_keeps_text. Qed.

Lemma headings_without_asterisks_witness :
  ~ In ASTERISK (js "Your plan").
Proof.
  eapply (@headings_without_asterisks
            (Some (unlines [js "## **Your *plan**"; js "- walk"])) []).
  - vm_compute. reflexivity.
  - left. reflexivity.
Defined.

Lemma section_blocks_start_with_item_witness :
  exists l more,
    [ {| cls := MsgBullet; content := renderInline (js "walk") |};
      {| cls := MsgLine; content := renderInline (js "every day") |} ]
    = l :: more /\ (cls l = MsgBullet \/ cls l = MsgNumbered).
Proof.
  eapply (@section_blocks_start_with_item
            (Some (unlines [js "intro"; js "- walk"; js "every day"])) []).
  - vm_compute. reflexivity.
  - right. left. vm_compute. reflexivity.
Defined.

Lemma renderInline_plain_witness :
  renderInline (js "Walk daily")
  = Parts [ {| bold := false; span_text := js "Walk daily" |} ].
Proof.
  apply renderInline_plain; [reflexivity | discriminate].
Defined.

Lemma renderInline_emphasis_witness :
  renderInline (js "Take **Omega-3** daily") =
  Parts [ {| bold := false; span_text := js "Take " |};
          {| bold := true; span_text := js "Omega-3" |};
          {| bold := false; span_text := js " daily" |} ].
Proof.
  apply (@renderInline_emphasis (js "Take ") (js "Omega-3") (js " daily"));
    try reflexivity. discriminate.
Defined.

Lemma renderInline_spans_witness :
  js "6" <> [] /\ (true = true -> forallb dot_any (js "6") = true).
Proof.
  apply (@renderInline_spans (js "2 * 3 = **6**")
           [ {| bold := false; span_text := js "2 * 3 = " |};
             {| bold := true; span_text := js "6" |} ]
           {| bold := true; span_text := js "6" |}).
  - vm_compute. reflexivity.
  - right. left. reflexivity.
Defined.

Lemma blank_content_renders_nothing_witness :
  renderMessageContent (assistant [32; 10; 9; 13; 10]%N) = Ok (Elements []).
Proof.
  apply (@blank_content_renders_nothing (Some [32; 10; 9; 13; 10]%N) []).
  reflexivity.
Defined.

Lemma crlf_renders_as_lf_witness :
  renderMessageContent
    (assistant (js "# Plan" ++ [13; 10]%N ++ js "- walk" ++ [13]%N)) =
  renderMessageContent (assistant (js "# Plan" ++ [10]%N ++ js "- walk")).
Proof.
  apply (@crlf_renders_as_lf [js "# Plan"; js "- walk"] []). reflexivity.
Defined.

End GenericMore.

(* ===================================================================== *)
(** * More about the template formatter *)
(* ===================================================================== *)

Module SlidesMore.
Import Slides SlidesView JsFacts GenericView GenericFacts SlidesFacts.



Lemma placed_app ss ss' : placed (ss ++ ss') = placed ss + placed ss'.
Proof. unfold placed. now rewrite map_app, list_sum_app. Qed.

Lemma placed_on_current_bullet b ss :
  ss <> [] -> placed (on_current (push_bullet b) ss) = S (placed ss).
Proof.
  induction ss as [|s [|s' more] IH]; intros Hne; [congruence| |].
  - unfold placed. simpl. rewrite length_app. simpl. lia.
  - change (on_current (push_bullet b) (s :: s' :: more))
      with (s :: on_current (push_bullet b) (s' :: more)).
    change (s :: ?l) with ([s] ++ l). rewrite !placed_app, IH by discriminate.
    lia.
Qed.

Lemma placed_on_current_paragraph p ss :
  ss <> [] -> placed (on_current (push_paragraph p) ss) = S (placed ss).
Proof.
  induction ss as [|s [|s' more] IH]; intros Hne; [congruence| |].
  - unfold placed. simpl. rewrite length_app. simpl. lia.
  - change (on_current (push_paragraph p) (s :: s' :: more))
      with (s :: on_current (push_paragraph p) (s' :: more)).
    change (s :: ?l) with ([s] ++ l). rewrite !placed_app, IH by discriminate.
    lia.
Qed.

(** ** Lines without asterisks *)

Lemma exec_at_Cls_other p r i s :
  starts_in p s = false -> exec_at (Cls p ;; r) i s = None.
Proof.
  intros H. unfold exec_at. cbn [run rest].
  destruct s as [|c s]; [reflexivity|]. simpl in H. now rewrite H.
Qed.

Lemma run_Rep_other p r st :
  starts_in p (rest st) = false -> run (Rep true 1 None p ;; r) st = [].
Proof.
  intros H. cbn [run cap_hi].
  assert (E : run_len p (rest st) = 0).
  { destruct (rest st) as [|c s]; [reflexivity|]. simpl in *. now rewrite H. }
  rewrite E. reflexivity.
Qed.


Lemma plain_starts s :
  forallb not_asterisk s = true -> starts_in (is_char ASTERISK) s = false.
Proof.
  destruct s as [|c s]; [reflexivity|]. simpl. unfold not_asterisk.
  intros H. apply andb_true_iff in H as [H _]. now apply negb_true_iff in H.
Qed.

Lemma replace_from_plain r f : needs_asterisk r -> forall s i,
  forallb not_asterisk s = true -> replace_from r f 0 i s = s.
Proof.
  intros Hr. induction s as [|c s IH]; intros i H; cbn [replace_from].
  - now rewrite Hr.
  - rewrite Hr by now apply plain_starts.
    cbn [forallb] in H. apply andb_true_iff in H as [_ H]. now rewrite IH.
Qed.

Lemma search_plain r : needs_asterisk r -> forall s i,
  forallb not_asterisk s = true -> search r i s = None.
Proof.
  intros Hr. induction s as [|c s IH]; intros i H; cbn [search].
  - now rewrite Hr.
  - rewrite Hr by now apply plain_starts.
    cbn [forallb] in H. apply andb_true_iff in H as [_ H]. now apply IH.
Qed.

Lemma needs_asterisk_boldPair : needs_asterisk boldPairRe.
Proof. intros i s H. now apply exec_at_Cls_other. Qed.

Lemma needs_asterisk_starPair : needs_asterisk starPairRe.
Proof. intros i s H. now apply exec_at_Cls_other. Qed.

Lemma needs_asterisk_trailing : needs_asterisk trailingStarsRe.
Proof.
  intros i s H. unfold exec_at, trailingStarsRe.
  now rewrite run_Rep_other.
Qed.

Lemma needs_asterisk_leading : needs_asterisk leadingStarsRe.
Proof.
  intros i s H. unfold exec_at, leadingStarsRe. destruct i as [|i].
  - rewrite run_Bol_Cat. now rewrite run_Rep_other.
  - reflexivity.
Qed.

Lemma plain_trim s :
  forallb not_asterisk s = true -> forallb not_asterisk (trim s) = true.
Proof.
  rewrite !forallb_forall. intros H c Hc. apply H.
  unfold trim, trimEnd, trimStart in Hc.
  assert (D : forall p (t : jsstring) x, In x (dropWhile p t) -> In x t).
  { intros p t x. induction t as [|y t IH]; simpl; [tauto|].
    destruct (p y); simpl; tauto. }
  apply in_rev, D, in_rev, D in Hc. exact Hc.
Qed.

(** X24.  A line without asterisks is only trimmed by
    [normalizeAssistantLine]. *)
Theorem normalize_plain_line (line : jsstring) :
  forallb not_asterisk line = true -> normalizeAssistantLine line = trim line.
Proof.
  intros H. apply plain_trim in H. unfold normalizeAssistantLine.
  unfold replace_g, replace, exec.
  rewrite (replace_from_plain _ needs_asterisk_boldPair _ _ H).
  rewrite (replace_from_plain _ needs_asterisk_starPair _ _ H).
  rewrite (search_plain needs_asterisk_leading _ _ H).
  now rewrite (replace_from_plain _ needs_asterisk_trailing _ _ H).
Qed.

(** ** Titles *)

Lemma replace_leading_run p s :
  replace (Bol ;; Rep true 1 None p) to_empty s = skipn (run_len p s) s.
Proof.
  unfold replace. rewrite exec_anchored. unfold exec_at.
  rewrite run_Bol_Cat. cbn [run cap_hi rest].
  destruct (run_len p s) as [|n] eqn:E; [reflexivity|].
  rewrite counts_greedy by lia. cbn [map advance pos rest caps index after].
  reflexivity.
Qed.

Lemma alnum_not_ws c : alnum c = true -> isWhiteSpace c = false.
Proof.
  unfold alnum, is_lower, is_upper, is_digit, isWhiteSpace, between.
  rewrite !orb_true_iff, !andb_true_iff, !N.leb_le. intros H.
  repeat (apply orb_false_intro);
    try (apply andb_false_iff; rewrite !N.leb_gt; lia);
    apply N.eqb_neq; lia.
Qed.

Lemma trim_keeps_head c t :
  isWhiteSpace c = false -> exists t', trim (c :: t) = c :: t'.
Proof.
  intros Hc. unfold trim, trimStart, trimEnd. cbn [dropWhile]. rewrite Hc.
  cbn [rev]. rewrite dropWhile_snoc by exact Hc.
  rewrite rev_app_distr. simpl. eauto.
Qed.

Lemma title_clean line :
  let title := trim (replace leadingNonAlnumRe to_empty line) in
  title = [] \/ exists c t, title = c :: t /\ alnum c = true.
Proof.
  unfold leadingNonAlnumRe. rewrite replace_leading_run.
  pose proof (run_len_split not_alnum line) as [_ H].
  destruct (skipn (run_len not_alnum line) line) as [|c t]; cbn zeta.
  - now left.
  - right. assert (Ha : alnum c = true).
    { unfold not_alnum in H. apply negb_false_iff in H. exact H. }
    destruct (@trim_keeps_head c t (alnum_not_ws _ Ha)) as (t' & ->). eauto.
Qed.

Section WithRuntime.

Variable toLowerCase : jsstring -> jsstring.

Lemma on_line_nonempty ss line :
  ss <> [] -> on_line toLowerCase ss line <> [].
Proof.
  intros Hne. unfold on_line. destruct (find_header toLowerCase line).
  - destruct ss; discriminate.
  - destruct ss as [|s more]; [congruence|].
    intros E. apply (f_equal (@length section)) in E.
    destruct (startsWith [BULLET] line || startsWith [DASH] line);
      rewrite on_current_length in E; discriminate.
Qed.

Lemma on_line_placed ss line :
  ss <> [] -> placed (on_line toLowerCase ss line) = S (placed ss).
Proof.
  intros Hne. unfold on_line. destruct (find_header toLowerCase line).
  - rewrite placed_app. unfold placed at 2. simpl. lia.
  - destruct ss as [|s more]; [congruence|].
    destruct (startsWith [BULLET] line || startsWith [DASH] line).
    + now apply placed_on_current_bullet.
    + now apply placed_on_current_paragraph.
Qed.

Lemma fold_placed lines : forall ss,
  ss <> [] ->
  placed (fold_left (on_line toLowerCase) lines ss) = placed ss + length lines.
Proof.
  induction lines as [|line more IH]; intros ss Hne; simpl; [lia|].
  rewrite IH by now apply on_line_nonempty.
  rewrite on_line_placed by exact Hne. lia.
Qed.

Lemma on_current_last (f : section -> section) ss c :
  on_current f (ss ++ [c]) = ss ++ [f c].
Proof.
  induction ss as [|s more IH]; [reflexivity|].
  cbn [app]. destruct (more ++ [c]) as [|s' more'] eqn:E.
  - destruct more; discriminate.
  - cbn [on_current]. cbn [on_current] in IH. now rewrite IH.
Qed.

Lemma with_lines_nil c : with_lines [] c = c.
Proof. destruct c. unfold with_lines. simpl. now rewrite !app_nil_r. Qed.

Lemma fold_cards lines : forall ss c,
  fold_left (on_line toLowerCase) lines (ss ++ [c]) =
  ss ++ with_lines (until_marker toLowerCase lines) c
     :: cards toLowerCase lines.
Proof.
  induction lines as [|line more IH]; intros ss c.
  - simpl. now rewrite with_lines_nil.
  - cbn [fold_left until_marker cards]. unfold on_line at 2.
    destruct (find_header toLowerCase line) as [d|].
    + rewrite IH, with_lines_nil, <- app_assoc. reflexivity.
    + destruct (ss ++ [c]) as [|s0 more0] eqn:E;
        [destruct ss; discriminate|]. rewrite <- E.
      fold (starts_with_glyph line).
      destruct (starts_with_glyph line) eqn:Hg.
      * rewrite on_current_last, IH. do 2 f_equal.
        unfold with_lines, push_bullet. cbn [key title icon paragraphs bullets filter].
        rewrite Hg. cbn [negb map]. now rewrite <- app_assoc.
      * rewrite on_current_last, IH. do 2 f_equal.
        unfold with_lines, push_paragraph. cbn [key title icon paragraphs bullets filter].
        rewrite Hg. cbn [negb]. now rewrite <- app_assoc.
Qed.

(** X21.  On the template path the lines before the first marker line
    are left out and every line from it on is placed once: a marker line
    opens a section, of which it gives the title, and each line under it,
    up to the next marker line, goes to that section, in order, to its
    bullets without its glyph when it starts with one and to its
    paragraphs as it is otherwise.  The sections, paragraphs and bullets
    are as many as the lines from the first marker line on. *)
Theorem template_places_every_line (lines : list jsstring) :
  build_sections toLowerCase lines = cards toLowerCase lines /\
  placed (build_sections toLowerCase lines) =
  length (from_first (mentions_marker toLowerCase) lines).
Proof.
  split.
  - unfold build_sections. induction lines as [|line more IH]; [reflexivity|].
    cbn [fold_left cards]. unfold on_line at 2.
    destruct (find_header toLowerCase line) as [d|]; [|exact IH].
    exact (fold_cards more [] _).
  - unfold build_sections. induction lines as [|line more IH]; [reflexivity|].
    cbn [fold_left from_first]. rewrite <- find_header_mentions.
    unfold on_line at 2. destruct (find_header toLowerCase line) as [d|].
    + rewrite fold_placed by discriminate. unfold placed. simpl. lia.
    + exact IH.
Qed.


Lemma header_of_on_current f ss :
  (forall s, header_of (f s) = header_of s) ->
  map header_of (on_current f ss) = map header_of ss.
Proof.
  intros Hf. induction ss as [|s [|s' more] IH]; [reflexivity| |].
  - simpl. now rewrite Hf.
  - change (on_current f (s :: s' :: more))
      with (s :: on_current f (s' :: more)).
    cbn [map]. now rewrite IH.
Qed.

Lemma on_line_headers ss line :
  map header_of (on_line toLowerCase ss line) =
  map header_of ss ++ opened toLowerCase line.
Proof.
  unfold on_line, opened. destruct (find_header toLowerCase line).
  - now rewrite map_app.
  - rewrite app_nil_r. destruct ss as [|s more]; [reflexivity|].
    destruct (startsWith [BULLET] line || startsWith [DASH] line);
      apply header_of_on_current; reflexivity.
Qed.

Lemma fold_headers lines : forall ss,
  map header_of (fold_left (on_line toLowerCase) lines ss)
  = map header_of ss ++ flat_map (opened toLowerCase) lines.
Proof.
  induction lines as [|line more IH]; intros ss; simpl.
  - now rewrite app_nil_r.
  - now rewrite IH, on_line_headers, <- app_assoc.
Qed.

(** X22.  The sections follow the marker lines in order, one for one:
    each has the key and the icon of the first marker, in the order of
    [sectionDefs], that its line contains, and as title the line without
    its leading characters that are not letters or digits, trimmed. *)
Theorem sections_follow_marker_lines (lines : list jsstring) :
  map header_of (build_sections toLowerCase lines)
  = flat_map (opened toLowerCase) lines.
Proof. unfold build_sections. apply (fold_headers lines []). Qed.

(** X25.  The title of a section never starts with an emoji,
    punctuation or white space: it is empty or starts with a letter or a
    digit. *)
Theorem section_titles_clean (lines : list jsstring) (s : section) :
  In s (build_sections toLowerCase lines) ->
  title s = [] \/ exists c t, title s = c :: t /\ alnum c = true.
Proof.
  intros Hin. apply (in_map header_of) in Hin.
  unfold build_sections in Hin. rewrite fold_headers in Hin. cbn [map app] in Hin.
  apply in_flat_map in Hin as (line & _ & Hin). unfold opened in Hin.
  destruct (find_header toLowerCase line) as [d|]; [|destruct Hin].
  destruct Hin as [E|[]]. unfold header_of in E. inversion E.
  apply title_clean.
Qed.

(** In the fallback path no line contains a marker, so the four marker
    tests of [isHeaderLine] never hold. *)
Lemma isHeaderLine_fallback lines line index :
  mentions_marker toLowerCase line = false ->
  isHeaderLine toLowerCase lines line index =
  negb (starts_with_glyph line)
  && (fixed_title (toLowerCase line)
      || (Nat.leb (length line) 60
          && starts_with_glyph (next_line lines index))).
Proof.
  unfold mentions_marker, isHeaderLine, starts_with_glyph, fixed_title.
  intros H. apply orb_false_elim in H as [H H4].
  apply orb_false_elim in H as [H H3]. apply orb_false_elim in H as [H1 H2].
  rewrite H1, H2, H3, H4, !orb_false_r.
  destruct (startsWith [BULLET] line || startsWith [DASH] line);
    [reflexivity|].
  cbn [negb andb].
  match goal with |- (if ?b then _ else _) = _ => destruct b end;
    reflexivity.
Qed.

Lemma map_indexed_nth lines : forall todo index i h line,
  nth_error (map_indexed toLowerCase lines index todo) i = Some (h, line) ->
  nth_error todo i = Some line /\
  h = isHeaderLine toLowerCase lines line (index + i).
Proof.
  induction todo as [|l todo IH]; intros index i h line.
  - destruct i; discriminate.
  - destruct i as [|i]; cbn [map_indexed nth_error].
    + intros E. inversion E; subst. rewrite Nat.add_0_r. auto.
    + intros E. apply IH in E as [E ->].
      replace (S index + i) with (index + S i) by lia. auto.
Qed.

Lemma map_indexed_lines lines : forall todo index,
  map snd (map_indexed toLowerCase lines index todo) = todo.
Proof.
  induction todo as [|l todo IH]; intros index; simpl; [reflexivity|].
  now rewrite IH.
Qed.

(** X23.  On the fallback path a shown line that starts with a bullet
    glyph is never a header line, and any other shown line is one exactly
    when it is one of the seven fixed titles, whatever its case, or has at
    most 60 code units and the line shown after it starts with a bullet
    glyph. *)
Theorem fallback_header_lines (c : option jsstring) (time : jsstring)
        (ls : list (bool * jsstring)) (i : nat) (h : bool)
        (line : jsstring) :
  renderMessageContent toLowerCase
    {| msg_role := Assistant; msg_content := c; msg_time := time |}
  = Lines ls ->
  nth_error ls i = Some (h, line) ->
  h = negb (starts_with_glyph line)
      && (fixed_title (toLowerCase line)
          || (Nat.leb (length line) 60
              && starts_with_glyph (nth (i + 1) (map snd ls) []))).
Proof.
  unfold renderMessageContent. cbn [msg_role].
  set (lines := rawLines _).
  destruct (hasSlideSections toLowerCase lines) eqn:Hs; [discriminate|].
  intros E Hn. inversion E. subst ls. clear E.
  rewrite map_indexed_lines.
  apply map_indexed_nth in Hn as (Hl & ->). apply nth_error_In in Hl.
  unfold hasSlideSections in Hs.
  assert (Hm : mentions_marker toLowerCase line = false).
  { destruct (mentions_marker toLowerCase line) eqn:Em; [|reflexivity].
    assert (existsb (mentions_marker toLowerCase) lines = true)
      by (apply existsb_exists; eauto). congruence. }
  rewrite (@isHeaderLine_fallback lines line (0 + i) Hm). reflexivity.
Qed.

End WithRuntime.

(** X26.  On the fallback path every line that is not blank is shown
    exactly once, in order, as its normalised text. *)
Theorem fallback_shows_every_line (toLowerCase : jsstring -> jsstring)
        (c : option jsstring) (time : jsstring) :
  let msg := {| msg_role := Assistant; msg_content := c; msg_time := time |} in
  hasSlideSections toLowerCase (rawLines msg) = false ->
  exists ls,
    renderMessageContent toLowerCase msg = Lines ls /\
    map snd ls =
      map normalizeAssistantLine
        (filter nonempty (map trim (split_lf (content_or_empty msg)))).
Proof.
  intros msg H. unfold renderMessageContent. cbn [msg_role msg]. rewrite H.
  eexists. split; [reflexivity|]. now rewrite map_indexed_lines.
Qed.

Lemma fallback_shows_every_line_witness :
  exists ls,
    renderMessageContent asciiLower (assistant (js "Key points")) = Lines ls
    /\ map snd ls = [js "Key points"].
Proof.
  destruct (@fallback_shows_every_line asciiLower (Some (js "Key points")) [])
    as (ls & E & Hl); [reflexivity|].
  exists ls. split; [exact E | exact Hl].
Defined.

Lemma fallback_header_lines_witness :
  true = negb (starts_with_glyph (js "Plan:"))
         && (fixed_title (asciiLower (js "Plan:"))
             || (Nat.leb (length (js "Plan:")) 60
                 && starts_with_glyph
                      (nth (0 + 1) [js "Plan:"; js "- Walk daily"] []))).
Proof.
  apply (@fallback_header_lines asciiLower
           (Some (unlines [js "Plan:"; js "- Walk daily"])) []
           [(true, js "Plan:"); (false, js "- Walk daily")] 0 true
           (js "Plan:")).
  - vm_compute. reflexivity.
  - reflexivity.
Defined.

Lemma normalize_plain_line_witness :
  normalizeAssistantLine (js "  Walk daily ") = trim (js "  Walk daily ").
Proof. apply normalize_plain_line. reflexivity. Defined.

Lemma section_titles_clean_witness :
  exists c t, js "Understanding Your Results" = c :: t /\ alnum c = true.
Proof.
  destruct (@section_titles_clean asciiLower
              [[55357; 56522; 32]%N ++ js "Understanding Your Results"]
              {| key := js "understanding";
                 title := js "Understanding Your Results";
                 icon := [55357; 56522]%N; paragraphs := []; bullets := [] |})
    as [E|H].
  - left. vm_compute. reflexivity.
  - discriminate E.
  - exact H.
Defined.

End SlidesMore.

(* ===================================================================== *)
(** * More about the Session Controller *)
(* ===================================================================== *)

Module SessionMore.
Import Session.

Section Collaborators.

Variable File : Type.
Variable post_upload : File -> settled upload_data.
Variable post_chat : payload -> settled chat_data.
Variables time_sent time_received : jsstring.

(** X1.  A successful upload sets the file name and the report context
    of the response together, replacing any earlier ones, shows the chat
    screen, clears the error and leaves the transcript alone. *)
Theorem upload_success_sets_report (f : File) (data : upload_data)
        (st : state) :
  post_upload f = Fulfilled (Some data) -> truthy (up_error data) = false ->
  let st' := fst (handleUpload post_upload (Some f) st) in
  fileName st' = up_filename data /\
  fileContext st' = or_empty (up_content data) /\
  screen st' = chat /\ error st' = None /\ uploading st' = false /\
  messages st' = messages st /\ loading st' = loading st /\
  message st' = message st.
Proof.
  intros Hp Ht st'. subst st'. unfold handleUpload, upload_try.
  rewrite Hp, Ht. cbn. repeat split.
Qed.

(** X2.  A send that succeeds appends the user message and then the
    reply, clears the input and the loading status, and leaves the error as
    it was. *)
Theorem send_success_appends_both (text : jsstring) (st : state)
        (data : chat_data) :
  nonempty (trim text) = true -> loading st = false ->
  post_chat {| message_ := text;
               conversation_history := map (fun m => (msg_role m, msg_content m)) (messages st);
               file_context := or_null (fileContext st) |}
    = Fulfilled (Some data) ->
  let st' := fst (sendMessage post_chat time_sent time_received text st) in
  messages st' =
    messages st ++
    [ {| msg_role := User; msg_content := Some text; msg_time := time_sent |};
      {| msg_role := Assistant; msg_content := reply data;
         msg_time := time_received |} ] /\
  loading st' = false /\ message st' = [] /\ error st' = error st.
Proof.
  intros Ht Hl Hp st'. subst st'. unfold sendMessage, send_begin.
  rewrite Ht, Hl. cbn [negb orb fst]. rewrite Hp. cbn.
  rewrite <- app_assoc. repeat split.
Qed.

(** X3.  The transcript only grows: whatever the text, the state and
    the answer of the server, [sendMessage] keeps the earlier entries in
    place and adds at most a user message and a reply after them;
    [handleUpload] leaves the transcript as it is. *)
Theorem transcript_append_only (text : jsstring) (file : option File)
        (st : state) :
  (exists added,
     messages (fst (sendMessage post_chat time_sent time_received text st))
     = messages st ++ added /\
     (added = [] \/
      exists replies,
        added = {| msg_role := User; msg_content := Some text;
                   msg_time := time_sent |} :: replies /\
        length replies <= 1 /\
        forall m, In m replies -> msg_role m = Assistant)) /\
  messages (fst (handleUpload post_upload file st)) = messages st.
Proof.
  split.
  - unfold sendMessage, send_begin.
    destruct (negb (nonempty (trim text)) || loading st).
    + exists []. rewrite app_nil_r. cbn. auto.
    + cbn [fst]. set (req := {| message_ := text |}).
      destruct (post_chat req) as [[d|]|code response]; cbn.
      * eexists. rewrite <- app_assoc. split; [reflexivity|]. right.
        eexists. split; [reflexivity|]. split; [simpl; lia|].
        intros m [<-|[]]. reflexivity.
      * eexists. split; [reflexivity|]. right. exists [].
        split; [reflexivity|]. split; [simpl; lia | intros ? []].
      * eexists. split; [reflexivity|]. right. exists [].
        split; [reflexivity|]. split; [simpl; lia | intros ? []].
  - unfold handleUpload, upload_try. destruct file as [f|]; [|reflexivity].
    destruct (post_upload f) as [[d|]|code response]; cbn;
      [destruct (truthy (up_error d))|..]; reflexivity.
Qed.

(** X4.  Two sends in a row: the history of the second request is the
    history of the first, then the first user message, then the reply when
    one came.  After a failed send the retry therefore carries the
    unanswered user message in its history. *)
Theorem next_request_history (text1 text2 : jsstring) (st : state) :
  nonempty (trim text1) = true -> nonempty (trim text2) = true ->
  loading st = false ->
  let request1 :=
    {| message_ := text1;
       conversation_history := map (fun m => (msg_role m, msg_content m)) (messages st);
       file_context := or_null (fileContext st) |} in
  snd (sendMessage post_chat time_sent time_received text2
         (fst (sendMessage post_chat time_sent time_received text1 st))) =
  Some {| message_ := text2;
          conversation_history :=
            map (fun m => (msg_role m, msg_content m)) (messages st) ++ (User, Some text1) ::
            match post_chat request1 with
            | Fulfilled (Some data) => [(Assistant, reply data)]
            | _ => []
            end;
          file_context := or_null (fileContext st) |}.
Proof.
  intros H1 H2 Hl request1. unfold sendMessage at 2, send_begin.
  rewrite H1, Hl. cbn [negb orb fst]. fold request1.
  unfold sendMessage, send_begin. rewrite H2.
  destruct (post_chat request1) as [[d|]|code response]; cbn;
    rewrite ?map_app, <- ?app_assoc; reflexivity.
Qed.

(** X5.  [handleNewChat] leaves the loading status as it is, and the
    reply to a request that was in flight when it ran is appended to the
    emptied transcript: the new transcript then holds that reply alone. *)
Theorem reply_after_new_chat (text : jsstring) (st st1 : state)
        (request : payload) (data : chat_data) :
  send_begin time_sent text st = Some (st1, request) ->
  loading (handleNewChat st1) = true /\
  fst (sendMessage post_chat time_sent time_received text (handleNewChat st1)) = handleNewChat st1 /\
  messages (send_settle time_received (Fulfilled (Some data))
              (handleNewChat st1)) =
    [ {| msg_role := Assistant; msg_content := reply data;
         msg_time := time_received |} ].
Proof.
  unfold send_begin.
  destruct (negb (nonempty (trim text)) || loading st); [discriminate|].
  intros H. inversion H; subst. clear H. split; [reflexivity|].
  split; [|reflexivity].
  unfold sendMessage, send_begin. cbn. now rewrite orb_true_r.
Qed.

(** X6.  After [handleNewChat], once nothing is in flight, a request
    carries no history and no report context. *)
Theorem request_after_new_chat (text : jsstring) (st : state) :
  nonempty (trim text) = true -> loading st = false ->
  snd (sendMessage post_chat time_sent time_received text (handleNewChat st)) =
  Some {| message_ := text; conversation_history := [];
          file_context := None |}.
Proof.
  intros Ht Hl. unfold sendMessage, send_begin. cbn. rewrite Ht, Hl.
  reflexivity.
Qed.

(** X7.  After a successful upload the next request carries the
    extracted text as its report context, and none when the response had no
    text or an empty one. *)
Theorem request_after_upload (f : File) (data : upload_data)
        (text : jsstring) (st : state) :
  post_upload f = Fulfilled (Some data) -> truthy (up_error data) = false ->
  nonempty (trim text) = true -> loading st = false ->
  snd (sendMessage post_chat time_sent time_received text (fst (handleUpload post_upload (Some f) st))) =
  Some {| message_ := text;
          conversation_history := map (fun m => (msg_role m, msg_content m)) (messages st);
          file_context :=
            match up_content data with
            | Some (c :: s) => Some (c :: s)
            | _ => None
            end |}.
Proof.
  intros Hp He Ht Hl. unfold handleUpload, upload_try. rewrite Hp, He.
  unfold sendMessage, send_begin. cbn. rewrite Ht, Hl. cbn.
  destruct (up_content data) as [[|c s]|]; reflexivity.
Qed.

(** X8.  The send button is disabled exactly when [handleSend] would
    do nothing, and once a send has been issued the input is empty, so
    that a second [handleSend] does nothing. *)
Theorem send_button_matches_guard (st : state) :
  (send_disabled st = true <->
   handleSend post_chat time_sent time_received st = (st, None)) /\
  (forall text st' request,
     sendMessage post_chat time_sent time_received text st = (st', Some request) ->
     handleSend post_chat time_sent time_received st' = (st', None)).
Proof.
  split.
  - unfold send_disabled, handleSend, sendMessage, send_begin.
    rewrite orb_comm.
    destruct (negb (nonempty (trim (message st))) || loading st);
      split; auto; discriminate.
  - intros text st' request. unfold handleSend, sendMessage, send_begin.
    destruct (negb (nonempty (trim text)) || loading st); [discriminate|].
    intros H. inversion H; subst. clear H.
    destruct (post_chat _) as [[d|]|code response]; reflexivity.
Qed.

End Collaborators.

Lemma upload_success_sets_report_witness :
  let respond (_ : unit) :=
    Fulfilled (Some {| up_error := None; up_filename := Some (js "r.pdf");
                       up_content := Some (js "score 7") |}) in
  let st' := fst (handleUpload respond (Some tt) initial) in
  fileName st' = Some (js "r.pdf") /\ fileContext st' = js "score 7" /\
  screen st' = chat.
Proof.
  intros respond st'.
  destruct (@upload_success_sets_report unit respond tt
              {| up_error := None; up_filename := Some (js "r.pdf");
                 up_content := Some (js "score 7") |} initial
              eq_refl eq_refl) as (H1 & H2 & H3 & _).
  auto.
Defined.

Lemma send_success_appends_both_witness :
  messages
    (fst (sendMessage (fun _ => Fulfilled (Some {| reply := Some (js "ok") |}))
            (js "10:01") (js "10:02") (js "hi") initial)) =
  [ {| msg_role := User; msg_content := Some (js "hi");
       msg_time := js "10:01" |};
    {| msg_role := Assistant; msg_content := Some (js "ok");
       msg_time := js "10:02" |} ].
Proof.
  exact (proj1 (@send_success_appends_both
                  (fun _ => Fulfilled (Some {| reply := Some (js "ok") |}))
                  (js "10:01") (js "10:02") (js "hi") initial
                  {| reply := Some (js "ok") |} eq_refl eq_refl eq_refl)).
Defined.

Lemma next_request_history_witness :
  snd (sendMessage (fun _ => Rejected None false) (js "10:01") (js "10:02")
         (js "again")
         (fst (sendMessage (fun _ => Rejected None false)
                 (js "10:01") (js "10:02") (js "hi") initial))) =
  Some {| message_ := js "again";
          conversation_history := [(User, Some (js "hi"))];
          file_context := None |}.
Proof.
  exact (@next_request_history (fun _ => Rejected None false)
           (js "10:01") (js "10:02") (js "hi") (js "again") initial
           eq_refl eq_refl eq_refl).
Defined.

Lemma reply_after_new_chat_witness :
  messages
    (send_settle (js "10:02") (Fulfilled (Some {| reply := Some (js "ok") |}))
       (handleNewChat
          (setLoading true
             (setMessage []
                (setMessages
                   (fun prev =>
                      prev ++ [ {| msg_role := User;
                                   msg_content := Some (js "hi");
                                   msg_time := js "10:01" |} ])
                   initial))))) =
  [ {| msg_role := Assistant; msg_content := Some (js "ok");
       msg_time := js "10:02" |} ].
Proof.
  exact (proj2 (proj2 (@reply_after_new_chat
                         (fun _ => Rejected None false)
                         (js "10:01") (js "10:02") (js "hi") initial _ _
                         {| reply := Some (js "ok") |} eq_refl))).
Defined.

Lemma request_after_new_chat_witness :
  snd (sendMessage (fun _ => Rejected None false) (js "10:01") (js "10:02")
         (js "hi") (handleNewChat (setFileContext (js "report") initial))) =
  Some {| message_ := js "hi"; conversation_history := [];
          file_context := None |}.
Proof.
  exact (@request_after_new_chat (fun _ => Rejected None false)
           (js "10:01") (js "10:02") (js "hi")
           (setFileContext (js "report") initial) eq_refl eq_refl).
Defined.

Lemma request_after_upload_witness :
  let respond (_ : unit) :=
    Fulfilled (Some {| up_error := None; up_filename := Some (js "r.pdf");
                       up_content := Some [] |}) in
  snd (sendMessage (fun _ => Rejected None false) (js "10:01") (js "10:02")
         (js "hi") (fst (handleUpload respond (Some tt) initial))) =
  Some {| message_ := js "hi"; conversation_history := [];
          file_context := None |}.
Proof.
  intros respond.
  exact (@request_after_upload unit respond (fun _ => Rejected None false)
           (js "10:01") (js "10:02") tt
           {| up_error := None; up_filename := Some (js "r.pdf");
              up_content := Some [] |} (js "hi") initial
           eq_refl eq_refl eq_refl eq_refl).
Defined.

End SessionMore.

(* ===================================================================== *)
(** * More about the local-storage client *)
(* ===================================================================== *)

Module PersistedMore.
Import Persisted.

Section Collaborators.

Variable File : Type.
Variable post_upload : File -> settled upload_data.
Variable post_chat : payload -> settled chat_data.
Variables time_sent time_received : jsstring.

(** X9.  In the local-storage client an upload that fails sets an error
    message and changes neither the file name, the report context and the
    transcript nor anything stored. *)
Theorem persisted_upload_failure (f : File) (st : state) :
  (exists data, post_upload f = Fulfilled (Some data)
                /\ truthy (up_error data) = true)
  \/ post_upload f = Fulfilled None
  \/ (exists code response, post_upload f = Rejected code response) ->
  let st' := fst (handleUpload post_upload (Some f) st) in
  (exists msg, error st' = Some msg /\ msg <> []) /\
  fileName st' = fileName st /\ fileContext st' = fileContext st /\
  messages st' = messages st /\ localStorage st' = localStorage st /\
  loading st' = false.
Proof.
  intros H st'. subst st'. unfold handleUpload.
  destruct H as [(data & -> & Ht)|[->|(code & response & ->)]].
  - rewrite Ht. cbn. destruct (up_error data) as [[|c e]|] eqn:E;
      try discriminate. repeat split. eexists. split; [reflexivity|].
    discriminate.
  - cbn. repeat split. eexists. split; [reflexivity | discriminate].
  - cbn. repeat split. eexists. split; [reflexivity | discriminate].
Qed.

(** X10.  What a successful upload and the transcript effect store, a
    reload restores: the transcript, the report context, and the file name
    when the response named the file.  When the response had no file name
    the reload shows the text "undefined" as the file name. *)
Theorem reload_restores_session (f : File) (data : upload_data)
        (st : state) :
  post_upload f = Fulfilled (Some data) -> truthy (up_error data) = false ->
  let st' := fst (handleUpload post_upload (Some f) st) in
  let back := reload (persist_messages st') in
  messages back = messages st /\
  fileContext back = fileContext st' /\
  (truthy (up_filename data) = true -> fileName back = fileName st') /\
  (up_filename data = None -> fileName back = Some (js "undefined")).
Proof.
  intros Hp He st' back. subst back st'. unfold handleUpload.
  rewrite Hp, He. cbn. split; [reflexivity|]. split.
  - destruct (or_empty (up_content data)); reflexivity.
  - split.
    + destruct (up_filename data) as [[|c s]|]; try discriminate. reflexivity.
    + intros ->. reflexivity.
Qed.

(** X11.  [clearFile] removes the file name and the report context
    from the state and from the storage and nothing else: the transcript,
    the input, the error, the loading status and the stored transcript are
    as they were.  After it a reload brings back the transcript and no
    file, and the next request carries the history and no report
    context. *)
Theorem clear_file_keeps_transcript (st : state) :
  let st' := clearFile st in
  fileName st' = None /\ fileContext st' = [] /\
  recognaize_filename (localStorage st') = None /\
  recognaize_file_context (localStorage st') = None /\
  recognaize_messages (localStorage st')
  = recognaize_messages (localStorage st) /\
  messages st' = messages st /\ error st' = error st /\
  message st' = message st /\ loading st' = loading st /\
  (let back := reload (persist_messages st') in
   messages back = messages st /\ fileName back = None /\
   fileContext back = []) /\
  (forall text,
     nonempty (trim text) = true ->
     snd (sendMessage post_chat time_sent time_received text st') =
     Some {| message_ := text;
             conversation_history :=
               map (fun m => (msg_role m, msg_content m)) (messages st);
             file_context := None |}).
Proof.
  cbn. repeat split.
  intros text Ht. unfold sendMessage, send_begin. rewrite Ht. reflexivity.
Qed.

(** X12.  In the local-storage client a send of text that is not blank
    always issues its request and ends with the loading status cleared;
    the transcript gains the user message and then, when the server
    answered, the reply; when it did not, the error is the one fixed
    text. *)
Theorem persisted_send_outcomes (text : jsstring) (st : state) :
  nonempty (trim text) = true ->
  let request :=
    {| message_ := text;
       conversation_history :=
         map (fun m => (msg_role m, msg_content m)) (messages st);
       file_context := or_null (fileContext st) |} in
  let userMessage :=
    {| msg_role := User; msg_content := Some text; msg_time := time_sent |} in
  let out := sendMessage post_chat time_sent time_received text st in
  snd out = Some request /\ loading (fst out) = false /\
  (forall data, post_chat request = Fulfilled (Some data) ->
     messages (fst out) =
       messages st ++
       [ userMessage;
         {| msg_role := Assistant; msg_content := reply data;
            msg_time := time_received |} ]
     /\ error (fst out) = error st) /\
  ((forall data, post_chat request <> Fulfilled (Some data)) ->
     messages (fst out) = messages st ++ [userMessage] /\
     error (fst out)
     = Some (js "Unable to reach the assistant. Please try again.")).
Proof.
  intros Ht request userMessage out. subst out.
  unfold sendMessage, send_begin. rewrite Ht. cbn [negb fst snd].
  fold request userMessage. split; [reflexivity|]. split.
  { unfold send_settle. destruct (post_chat request) as [[d|]|]; reflexivity. }
  split.
  - intros data ->. cbn. rewrite <- app_assoc. split; reflexivity.
  - intros H. destruct (post_chat request) as [[d|]|code response] eqn:E.
    + destruct (H d eq_refl).
    + split; reflexivity.
    + split; reflexivity.
Qed.

End Collaborators.

Lemma persisted_upload_failure_witness :
  let respond (_ : unit) : settled upload_data := Rejected None false in
  let st' := fst (handleUpload respond (Some tt) (initial
                    {| recognaize_messages := None;
                       recognaize_filename := Some (js "r.pdf");
                       recognaize_file_context := Some (js "score 7") |})) in
  error st' = Some (js "Unable to upload file. Please try again.") /\
  recognaize_filename (localStorage st') = Some (js "r.pdf").
Proof.
  intros respond st'.
  destruct (@persisted_upload_failure unit respond tt
              (initial {| recognaize_messages := None;
                          recognaize_filename := Some (js "r.pdf");
                          recognaize_file_context := Some (js "score 7") |}))
    as (_ & _ & _ & _ & Hs & _).
  - right; right. exists None, false. reflexivity.
  - split; [reflexivity|]. fold st' in Hs. now rewrite Hs.
Defined.

Lemma reload_restores_session_witness :
  let data := {| up_error := None; up_filename := Some (js "r.pdf");
                 up_content := Some (js "score 7") |} in
  let st' := fst (handleUpload (fun _ : unit => Fulfilled (Some data))
                    (Some tt)
                    (initial {| recognaize_messages := None;
                                recognaize_filename := None;
                                recognaize_file_context := None |})) in
  fileName (reload (persist_messages st')) = Some (js "r.pdf") /\
  fileContext (reload (persist_messages st')) = js "score 7".
Proof.
  intros data st'.
  destruct (@reload_restores_session unit
              (fun _ : unit => Fulfilled (Some data)) tt data
              (initial {| recognaize_messages := None;
                          recognaize_filename := None;
                          recognaize_file_context := None |})
              eq_refl eq_refl) as (_ & Hc & Hf & _).
  split; [exact (Hf eq_refl) | exact Hc].
Defined.

Lemma persisted_send_outcomes_witness :
  let out :=
    sendMessage (fun _ => Rejected None false) (js "10:01") (js "10:02")
      (js "hi") (initial {| recognaize_messages := None;
                            recognaize_filename := None;
                            recognaize_file_context := None |}) in
  loading (fst out) = false /\
  error (fst out) = Some (js "Unable to reach the assistant. Please try again.").
Proof.
  intros out.
  destruct (@persisted_send_outcomes (fun _ => Rejected None false)
              (js "10:01") (js "10:02") (js "hi")
              (initial {| recognaize_messages := None;
                          recognaize_filename := None;
                          recognaize_file_context := None |}) eq_refl)
    as (_ & Hl & _ & Hf).
  split; [exact Hl|]. apply Hf. intros d. discriminate.
Defined.

End PersistedMore.
